(** * ksim: reward dispatch and MJCF adaptation

    A shallow embedding of
    - [ksim/mjx_gym/envs/default_humanoid_env/rewards.py]
      (the per-timestep reward functions and their dictionary dispatch), and
    - [ksim/scripts/process_mjcf.py]
      (the element-tree surgery of [Sim2SimRobot.adapt_world] and [save]).

    Conventions.
    - A Python [dict] is an association list in insertion order with
      pairwise distinct keys; [dict_get] is [d[k]] and [dict_set] is
      [d[k] = v].
    - A raised exception is the [Raise] branch of [result].
    - A JAX scalar is an IEEE-754 binary float of precision [prec] and
      exponent bound [emax] ([prec = 24], [emax = 128] for the default
      float32), with the arithmetic of the standard library's [SpecFloat]. *)

From Stdlib Require Import ZArith Floats Ascii String.
From stdpp Require Import base option list strings pretty.

Set Default Proof Using "Type".
Set Warnings "-inexact-float,-register-all,-clear-no-such-hyp".
Local Open Scope string_scope.
Local Open Scope list_scope.
Local Open Scope nat_scope.

(** ** Exceptions *)

Inductive exn : Type :=
| KeyError (key : string)
| TypeError
| AttributeError
| ValueError.

Inductive result (A : Type) : Type :=
| Ok (a : A)
| Raise (e : exn).
Arguments Ok {A} a.
Arguments Raise {A} e.

#[global] Instance result_ret : MRet result := @Ok.
#[global] Instance result_bind : MBind result := λ A B f m,
  match m with Ok a => f a | Raise e => Raise e end.
#[global] Instance result_fmap : FMap result := λ A B f m,
  match m with Ok a => Ok (f a) | Raise e => Raise e end.

Definition is_Ok {A} (m : result A) : Prop := ∃ a, m = Ok a.

(** ** Python dictionaries *)

Definition dict (V : Type) : Type := list (string * V).

Fixpoint dict_lookup {V} (d : dict V) (k : string) : option V :=
  match d with
  | [] => None
  | (k', v) :: d' => if decide (k' = k) then Some v else dict_lookup d' k
  end.

(** [d[k]]: raises [KeyError] on a missing key. *)
Definition dict_get {V} (d : dict V) (k : string) : result V :=
  match dict_lookup d k with
  | Some v => Ok v
  | None => Raise (KeyError k)
  end.

(** [d[k] = v]: overwrites in place, or appends a new key at the end. *)
Fixpoint dict_set {V} (d : dict V) (k : string) (v : V) : dict V :=
  match d with
  | [] => [(k, v)]
  | (k', v') :: d' =>
      if decide (k' = k) then (k, v) :: d' else (k', v') :: dict_set d' k v
  end.

Definition dict_keys {V} (d : dict V) : list string := d.*1.

(** [option]-valued fields of a [TypedDict] ([NotRequired]) read with
    [params[k]]. *)
Definition field_get {V} (k : string) (o : option V) : result V :=
  match o with
  | Some v => Ok v
  | None => Raise (KeyError k)
  end.

(** ** rewards.py *)

Module Rewards.

(** [class RewardDict(TypedDict)]: [weight] is required, the two bounds are
    [NotRequired]. *)
Record RewardDict : Type := {
  weight : spec_float;
  healthy_z_lower : option spec_float;
  healthy_z_upper : option spec_float;
}.

Definition RewardParams : Type := dict RewardDict.

Section Rewards.
(** The float format of the arrays. *)
Context (prec emax : Z).
(** [brax.mjx.base.State], read through [state.q[i]] and
    [state.subtree_com[i][j]]. *)
Context {mjxState : Type}.
Context (q_at : mjxState → Z → spec_float).
Context (subtree_com_at : mjxState → Z → Z → spec_float).
(** [jp.sum] over a one-dimensional array; the order of the reduction is
    the array library's. *)
Context (jp_sum : list spec_float → spec_float).

Definition f0 : spec_float := S754_zero false.
Definition f1 : spec_float := SFone prec emax.

(** [jp.where(c, x, y)] on scalars. *)
Definition jp_where (c : bool) (x y : spec_float) : spec_float :=
  if c then x else y.

(** [jp.square] on a one-dimensional array. *)
Definition jp_square (a : list spec_float) : list spec_float :=
  map (λ x, SFmul prec emax x x) a.

Definition RewardFunction : Type :=
  mjxState → list spec_float → mjxState → spec_float → RewardDict →
  result (spec_float * spec_float).

Definition forward_reward_fn : RewardFunction :=
  λ state action next_state dt params,
    let xpos := subtree_com_at state 1 0 in
    let next_xpos := subtree_com_at next_state 1 0 in
    let velocity := SFdiv prec emax (SFsub prec emax next_xpos xpos) dt in
    let forward_reward := SFmul prec emax (weight params) velocity in
    Ok (forward_reward, f1).

Definition healthy_reward_fn : RewardFunction :=
  λ state action next_state dt params,
    min_z ← field_get "healthy_z_lower" (healthy_z_lower params);
    max_z ← field_get "healthy_z_upper" (healthy_z_upper params);
    let is_healthy := jp_where (SFltb (q_at state 2) min_z) f0 f1 in
    let is_healthy := jp_where (SFltb max_z (q_at state 2)) f0 is_healthy in
    let healthy_reward := SFmul prec emax (weight params) is_healthy in
    Ok (healthy_reward, is_healthy).

Definition ctrl_cost_reward_fn : RewardFunction :=
  λ state action next_state dt params,
    let ctrl_cost :=
      SFmul prec emax (SFopp (weight params)) (jp_sum (jp_square action)) in
    Ok (ctrl_cost, f1).

Definition reward_functions : dict RewardFunction :=
  [ ("rew_forward", forward_reward_fn);
    ("rew_healthy", healthy_reward_fn);
    ("rew_ctrl_cost", ctrl_cost_reward_fn) ].

(** The body of the [for key, params in reward_params.items()] loop of
    [reward_fn], with the three accumulators as arguments. *)
Fixpoint reward_loop (dt : spec_float) (include_reward_breakdown : bool)
    (state : mjxState) (action : list spec_float) (next_state : mjxState)
    (items : list (string * RewardDict))
    (reward is_healthy : spec_float) (rewards : dict spec_float)
    : result (spec_float * spec_float * dict spec_float) :=
  match items with
  | [] => Ok (reward, is_healthy, rewards)
  | (key, params) :: items =>
      f ← dict_get reward_functions key;
      '(r, h) ← f state action next_state dt params;
      let is_healthy := SFmul prec emax is_healthy h in
      let reward := SFadd prec emax reward r in
      let rewards :=
        if include_reward_breakdown then dict_set rewards key r else rewards in
      reward_loop dt include_reward_breakdown state action next_state
        items reward is_healthy rewards
  end.

(** [get_reward_fn] only builds the closure [reward_fn]; it reads none of
    its arguments before the closure is applied. *)
Definition get_reward_fn (reward_params : RewardParams) (dt : spec_float)
    (include_reward_breakdown : bool)
    : mjxState → list spec_float → mjxState →
      result (spec_float * spec_float * dict spec_float) :=
  λ state action next_state,
    reward_loop dt include_reward_breakdown state action next_state
      reward_params f0 f1 [].

(** The claimed value of the first component, in the words of the
    specification: the sum, over the entries [(key, params)] of
    [reward_params], of the first component of
    [reward_functions[key](state, action, next_state, dt, params)].  The
    sum is Python's [sum]: a left-to-right accumulation from zero.  It
    raises when one of the dispatched calls does. *)
Definition dispatched (dt : spec_float)
    (state : mjxState) (action : list spec_float) (next_state : mjxState)
    (entry : string * RewardDict) : result (spec_float * spec_float) :=
  f ← dict_get reward_functions entry.1;
  f state action next_state dt entry.2.

Definition sum_floats (xs : list spec_float) : spec_float :=
  foldl (SFadd prec emax) f0 xs.

Definition sum_of_dispatched (reward_params : RewardParams) (dt : spec_float)
    (state : mjxState) (action : list spec_float) (next_state : mjxState)
    : result spec_float :=
  rhs ← mapM (dispatched dt state action next_state) reward_params;
  Ok (sum_floats rhs.*1).

(** The breakdown dictionary in the words of the specification: the keys
    of [reward_params], each mapped to the first component computed by
    that key's dispatched reward function. *)
Definition breakdown_of_dispatched (reward_params : RewardParams)
    (dt : spec_float)
    (state : mjxState) (action : list spec_float) (next_state : mjxState)
    : result (dict spec_float) :=
  rhs ← mapM (dispatched dt state action next_state) reward_params;
  Ok (zip (dict_keys reward_params) rhs.*1).

(** Every key of [reward_params] is a key of the registry. *)
Definition registered (key : string) : Prop :=
  key ∈ dict_keys reward_functions.

Definition keys_registered (reward_params : RewardParams) : Prop :=
  Forall registered (dict_keys reward_params).

End Rewards.

(** Every entry carries the keys that its reward function reads: only
    [healthy_reward_fn] reads anything beyond [weight]. *)
Definition has_bounds (params : RewardDict) : Prop :=
  is_Some (healthy_z_lower params) ∧ is_Some (healthy_z_upper params).

Definition params_complete (reward_params : RewardParams) : Prop :=
  Forall (λ entry, entry.1 = "rew_healthy" → has_bounds entry.2) reward_params.

(** The dictionary that the loop has built after storing [kvs] in order. *)
Definition stored (rewards : dict spec_float)
    (kvs : list (string * spec_float)) : dict spec_float :=
  foldl (λ d kv, dict_set d kv.1 kv.2) rewards kvs.

(** Neither comparison of [healthy_reward_fn] fires. *)
Definition in_healthy_range (z min_z max_z : spec_float) : bool :=
  negb (SFltb z min_z) && negb (SFltb max_z z).

(** [min_z <= z <= max_z] in IEEE-754 arithmetic. *)
Definition between (z min_z max_z : spec_float) : bool :=
  SFleb min_z z && SFleb z max_z.

Definition is_nan (x : spec_float) : bool :=
  match x with S754_nan => true | _ => false end.

(** *** Sample inputs *)

(** The float nearest to [n / d]. *)
Definition float_of_ratio (prec emax : Z) (n d : Z) : spec_float :=
  SFdiv prec emax (binary_normalize prec emax n 0 false)
    (binary_normalize prec emax d 0 false).

(** [DEFAULT_REWARD_PARAMS] in float32. *)
Definition DEFAULT_REWARD_PARAMS : RewardParams :=
  [ ("rew_forward",
     {| weight := float_of_ratio 24 128 125 100;
        healthy_z_lower := None; healthy_z_upper := None |});
    ("rew_healthy",
     {| weight := float_of_ratio 24 128 5 1;
        healthy_z_lower := Some (float_of_ratio 24 128 1 1);
        healthy_z_upper := Some (float_of_ratio 24 128 2 1) |});
    ("rew_ctrl_cost",
     {| weight := float_of_ratio 24 128 1 10;
        healthy_z_lower := None; healthy_z_upper := None |}) ].

(** A state given by its two arrays, read with JAX's clamping of an
    out-of-range index. *)
Record sample_state : Type := {
  sample_q : list spec_float;
  sample_subtree_com : list (list spec_float);
}.

Definition clamp_nth {A} (d : A) (l : list A) (i : Z) : A :=
  nth (Z.to_nat (Z.min i (Z.of_nat (length l) - 1))) l d.

Definition sample_q_at (s : sample_state) (i : Z) : spec_float :=
  clamp_nth S754_nan (sample_q s) i.

Definition sample_subtree_com_at (s : sample_state) (i j : Z) : spec_float :=
  clamp_nth S754_nan (clamp_nth [] (sample_subtree_com s) i) j.

(** A left-to-right reduction, one admissible [jp.sum]. *)
Definition sample_sum (xs : list spec_float) : spec_float :=
  foldl (SFadd 24 128) (S754_zero false) xs.

(** A humanoid standing at height [z], its torso centre of mass at [x]. *)
Definition standing (x z : spec_float) : sample_state :=
  {| sample_q := [S754_zero false; S754_zero false; z];
     sample_subtree_com :=
       [ [S754_zero false; S754_zero false; S754_zero false];
         [x; S754_zero false; z] ] |}.

Definition sample_dt : spec_float := float_of_ratio 24 128 1 100.
Definition sample_before : sample_state :=
  standing (S754_zero false) (float_of_ratio 24 128 3 2).
Definition sample_after : sample_state :=
  standing (float_of_ratio 24 128 1 100) (float_of_ratio 24 128 3 2).
Definition sample_action : list spec_float :=
  [float_of_ratio 24 128 1 2; float_of_ratio 24 128 1 2].

(** The [rew_healthy] entry of [DEFAULT_REWARD_PARAMS]. *)
Definition healthy_params : RewardDict :=
  {| weight := float_of_ratio 24 128 5 1;
     healthy_z_lower := Some (float_of_ratio 24 128 1 1);
     healthy_z_upper := Some (float_of_ratio 24 128 2 1) |}.

(** A state whose height has diverged to NaN. *)
Definition sample_diverged : sample_state :=
  standing (S754_zero false) S754_nan.

(** Parameters with a key that the registry does not have. *)
Definition unregistered_params : RewardParams :=
  [ ("rew_forward",
     {| weight := float_of_ratio 24 128 125 100;
        healthy_z_lower := None; healthy_z_upper := None |});
    ("rew_alive",
     {| weight := float_of_ratio 24 128 1 1;
        healthy_z_lower := None; healthy_z_upper := None |}) ].

(** *** The health value in the words of a user *)

(** One entry of [reward_params] leaves the robot healthy: only a
    [rew_healthy] entry can say otherwise, when the height is out of its
    range. *)
Definition entry_healthy (z : spec_float) (entry : string * RewardDict)
    : bool :=
  if decide (entry.1 = "rew_healthy") then
    match healthy_z_lower entry.2, healthy_z_upper entry.2 with
    | Some min_z, Some max_z => in_healthy_range z min_z max_z
    | _, _ => true
    end
  else true.

Definition all_healthy (z : spec_float) (reward_params : RewardParams)
    : bool :=
  forallb (entry_healthy z) reward_params.

(** The float formats of JAX arrays: float16, bfloat16, float32 and
    float64, each by its precision and exponent bound. *)
Definition jax_float (prec emax : Z) : Prop :=
  (prec, emax) ∈ [(11, 16); (8, 128); (24, 128); (53, 1024)]%Z.



(** Parameters whose [rew_healthy] entry lacks its lower bound, and
    parameters whose entry lacks only the upper one. *)
Definition no_lower_params : RewardParams :=
  [ ("rew_forward",
     {| weight := float_of_ratio 24 128 125 100;
        healthy_z_lower := None; healthy_z_upper := None |});
    ("rew_healthy",
     {| weight := float_of_ratio 24 128 5 1;
        healthy_z_lower := None; healthy_z_upper := None |}) ].

Definition no_upper_params : RewardParams :=
  [ ("rew_healthy",
     {| weight := float_of_ratio 24 128 5 1;
        healthy_z_lower := Some (float_of_ratio 24 128 1 1);
        healthy_z_upper := None |});
    ("rew_ctrl_cost",
     {| weight := float_of_ratio 24 128 1 10;
        healthy_z_lower := None; healthy_z_upper := None |}) ].

(** A humanoid that has fallen below the healthy range. *)
Definition sample_fallen : sample_state :=
  standing (S754_zero false) (float_of_ratio 24 128 1 2).

End Rewards.

(** ** rewards.py over an object store

    The same functions with [state], [action], [next_state] and the
    captured [reward_params] as references into a store of objects, and
    with the breakdown dictionary as the one object that [reward_fn]
    allocates and mutates.  JAX arrays are immutable: [reward += r] and
    [is_healthy *= h] rebind a local name to a new array, so the scalars
    stay values. *)

Module RewardsStore.
Import Rewards.

Definition loc : Type := nat.

Section Store.
Context (prec emax : Z).
Context {mjxState : Type}.
Context (q_at : mjxState → Z → spec_float).
Context (subtree_com_at : mjxState → Z → Z → spec_float).
Context (jp_sum : list spec_float → spec_float).

Inductive obj : Type :=
| OState (s : mjxState)
| OArray (a : list spec_float)
| OParams (p : RewardParams)
| ODict (d : dict spec_float).

(** The store; a new object takes the next free index. *)
Definition heap : Type := list obj.

(** A computation reads and updates the store and returns or raises; the
    store it leaves behind survives an exception. *)
Definition M (A : Type) : Type := heap → result A * heap.

#[global] Instance store_ret : MRet M := λ A a h, (Ok a, h).
#[global] Instance store_bind : MBind M := λ A B f m h,
  match m h with
  | (Ok a, h') => f a h'
  | (Raise e, h') => (Raise e, h')
  end.

Definition lift {A} (r : result A) : M A := λ h, (r, h).

Definition get_state (l : loc) : M mjxState := λ h,
  match h !! l with
  | Some (OState s) => (Ok s, h)
  | _ => (Raise AttributeError, h)
  end.

Definition get_array (l : loc) : M (list spec_float) := λ h,
  match h !! l with
  | Some (OArray a) => (Ok a, h)
  | _ => (Raise TypeError, h)
  end.

(** [reward_params.items()] *)
Definition get_items (l : loc) : M (list (string * RewardDict)) := λ h,
  match h !! l with
  | Some (OParams p) => (Ok p, h)
  | _ => (Raise AttributeError, h)
  end.

(** [{}] *)
Definition new_dict : M loc := λ h, (Ok (length h), h ++ [ODict []]).

(** [d[k] = v] on the dictionary object at [l]. *)
Definition dict_setitem (l : loc) (k : string) (v : spec_float) : M unit :=
  λ h,
    match h !! l with
    | Some (ODict d) => (Ok (), <[l := ODict (dict_set d k v)]> h)
    | _ => (Raise TypeError, h)
    end.

Definition RewardFunction : Type :=
  loc → loc → loc → spec_float → RewardDict → M (spec_float * spec_float).

Definition forward_reward_fn : RewardFunction :=
  λ state action next_state dt params,
    s ← get_state state;
    let xpos := subtree_com_at s 1 0 in
    s' ← get_state next_state;
    let next_xpos := subtree_com_at s' 1 0 in
    let velocity := SFdiv prec emax (SFsub prec emax next_xpos xpos) dt in
    let forward_reward := SFmul prec emax (weight params) velocity in
    mret (forward_reward, f1 prec emax).

Definition healthy_reward_fn : RewardFunction :=
  λ state action next_state dt params,
    min_z ← lift (field_get "healthy_z_lower" (healthy_z_lower params));
    max_z ← lift (field_get "healthy_z_upper" (healthy_z_upper params));
    s ← get_state state;
    let is_healthy := jp_where (SFltb (q_at s 2) min_z) f0 (f1 prec emax) in
    let is_healthy := jp_where (SFltb max_z (q_at s 2)) f0 is_healthy in
    let healthy_reward := SFmul prec emax (weight params) is_healthy in
    mret (healthy_reward, is_healthy).

Definition ctrl_cost_reward_fn : RewardFunction :=
  λ state action next_state dt params,
    a ← get_array action;
    let ctrl_cost :=
      SFmul prec emax (SFopp (weight params))
        (jp_sum (jp_square prec emax a)) in
    mret (ctrl_cost, f1 prec emax).

Definition reward_functions : dict RewardFunction :=
  [ ("rew_forward", forward_reward_fn);
    ("rew_healthy", healthy_reward_fn);
    ("rew_ctrl_cost", ctrl_cost_reward_fn) ].

Fixpoint reward_loop (dt : spec_float) (include_reward_breakdown : bool)
    (state action next_state : loc)
    (items : list (string * RewardDict))
    (reward is_healthy : spec_float) (rewards : loc)
    : M (spec_float * spec_float * loc) :=
  match items with
  | [] => mret (reward, is_healthy, rewards)
  | (key, params) :: items =>
      f ← lift (dict_get reward_functions key);
      '(r, h) ← f state action next_state dt params;
      let is_healthy := SFmul prec emax is_healthy h in
      let reward := SFadd prec emax reward r in
      _ ← (if include_reward_breakdown
           then dict_setitem rewards key r else mret ());
      reward_loop dt include_reward_breakdown state action next_state
        items reward is_healthy rewards
  end.

(** The closure captures the reference [reward_params]. *)
Definition get_reward_fn (reward_params : loc) (dt : spec_float)
    (include_reward_breakdown : bool)
    : loc → loc → loc → M (spec_float * spec_float * loc) :=
  λ state action next_state,
    rewards ← new_dict;
    items ← get_items reward_params;
    reward_loop dt include_reward_breakdown state action next_state
      items f0 (f1 prec emax) rewards.

(** The returned triple by value: the breakdown reference is read in the
    store that the call left. *)
Definition returned (out : result (spec_float * spec_float * loc) * heap)
    : result (spec_float * spec_float * dict spec_float) :=
  match out.1 with
  | Ok (reward, is_healthy, rewards) =>
      match out.2 !! rewards with
      | Some (ODict d) => Ok (reward, is_healthy, d)
      | _ => Raise TypeError
      end
  | Raise e => Raise e
  end.

(** The references of a call point to objects of the expected classes. *)
Definition well_typed (h : heap) (reward_params state action next_state : loc)
    (p : RewardParams) (s : mjxState) (a : list spec_float) (s' : mjxState)
    : Prop :=
  h !! reward_params = Some (OParams p) ∧ h !! state = Some (OState s) ∧
  h !! action = Some (OArray a) ∧ h !! next_state = Some (OState s').

End Store.

(** A store holding the default parameters, two states and an action. *)
Definition sample_heap : heap (mjxState := sample_state) :=
  [ OParams DEFAULT_REWARD_PARAMS; OState sample_before;
    OArray sample_action; OState sample_after ].

End RewardsStore.

(** ** process_mjcf.py

    An [xml.etree.ElementTree.Element] is a mutable object; the script
    edits the tree through aliases ([asset], [worldbody], [new_root_body],
    [sensors], [geom], ...).  The tree is passed explicitly here, every
    element carries its object identity [eid], and an edit through an
    alias is an edit of the element with that identity.  Creating an
    element draws the next unused identity from a counter.  The [text]
    and [tail] of an element are left out: [adapt_world] neither reads nor
    writes them. *)

Module Mjcf.

Inductive element : Type :=
| Element (eid : nat) (tag : string) (attrib : dict (option string))
    (children : list element).

Definition eid (e : element) : nat :=
  match e with Element i _ _ _ => i end.
Definition tag (e : element) : string :=
  match e with Element _ t _ _ => t end.
Definition attrib (e : element) : dict (option string) :=
  match e with Element _ _ a _ => a end.
Definition children (e : element) : list element :=
  match e with Element _ _ _ cs => cs end.

Definition with_attrib (a : dict (option string)) (e : element) : element :=
  Element (eid e) (tag e) a (children e).
Definition with_children (cs : list element) (e : element) : element :=
  Element (eid e) (tag e) (attrib e) cs.

(** Attributes given as string literals. *)
Definition attrs (kvs : list (string * string)) : dict (option string) :=
  (λ kv, (kv.1, Some kv.2)) <$> kvs.

(** *** The ElementTree interface *)

(** [e.get(k)]: [None] for a missing key, and for a key bound to [None]. *)
Definition get (k : string) (e : element) : option string :=
  default None (dict_lookup (attrib e) k).

(** [e.set(k, v)]; nothing checks that [v] is a string. *)
Definition set (k : string) (v : option string) (e : element) : element :=
  with_attrib (dict_set (attrib e) k v) e.

(** [k in e.attrib] and [e.attrib.pop(k)]. *)
Definition has_key (k : string) (e : element) : bool :=
  bool_decide (is_Some (dict_lookup (attrib e) k)).
Definition pop (k : string) (e : element) : element :=
  with_attrib (filter (λ kv, kv.1 ≠ k) (attrib e)) e.

(** The truth value of a [str | None]. *)
Definition truthy (v : option string) : bool :=
  match v with
  | Some s => negb (bool_decide (s = EmptyString))
  | None => false
  end.

(** [e.findall(t)] and [e.find(t)] for a plain tag [t]: direct children. *)
Definition findall (t : string) (e : element) : list element :=
  filter (λ c, tag c = t) (children e).
Definition find (t : string) (e : element) : option element :=
  head (findall t e).

(** Every element below [e], in document order; [e.findall(".//t")] keeps
    those with tag [t]. *)
Fixpoint descendants (e : element) : list element :=
  match e with
  | Element _ _ _ cs => cs ≫= λ c, c :: descendants c
  end.
Definition findall_below (t : string) (e : element) : list element :=
  filter (λ c, tag c = t) (descendants e).

(** [e.append(c)], [e.extend(cs)], [e.insert(i, c)]. *)
Definition append (c : element) (e : element) : element :=
  with_children (children e ++ [c]) e.
Definition extend (cs : list element) (e : element) : element :=
  with_children (children e ++ cs) e.
Definition insert (i : nat) (c : element) (e : element) : element :=
  with_children (take i (children e) ++ c :: drop i (children e)) e.

(** [list(e).index(c)]: elements compare by identity. *)
Definition index (c : nat) (e : element) : result nat :=
  match list_find (λ x, eid x = c) (children e) with
  | Some (i, _) => Ok i
  | None => Raise ValueError
  end.

(** The child that the reference [c] denotes. *)
Definition child (c : nat) (e : element) : result element :=
  match list_find (λ x, eid x = c) (children e) with
  | Some (_, x) => Ok x
  | None => Raise ValueError
  end.

(** [e.remove(c)]: the first child identical to [c] goes. *)
Definition remove (c : nat) (e : element) : result element :=
  i ← index c e;
  Ok (with_children (delete i (children e)) e).

(** An edit [f] through a reference [c] to a child of [e]. *)
Definition at_child (c : nat) (f : element → element) (e : element)
    : element :=
  with_children
    ((λ x, if decide (eid x = c) then f x else x) <$> children e) e.

(** *** Allocation *)

(** A computation draws identities from a counter and returns or raises. *)
Definition M (A : Type) : Type := nat → result (A * nat).

#[global] Instance alloc_ret : MRet M := λ A a n, Ok (a, n).
#[global] Instance alloc_bind : MBind M := λ A B f m n,
  match m n with
  | Ok (a, n') => f a n'
  | Raise e => Raise e
  end.

Definition lift {A} (r : result A) : M A := λ n,
  match r with Ok a => Ok (a, n) | Raise e => Raise e end.

(** Attribute access on [None] raises [AttributeError]; iterating over
    [None] raises [TypeError]. *)
Definition not_none {A} (e : exn) (o : option A) : M A :=
  lift (match o with Some a => Ok a | None => Raise e end).

(** The tree [t] as newly created objects: its elements take the
    identities [n], [n + 1], ... in document order. *)
Fixpoint relabel (n : nat) (t : element) : element * nat :=
  match t with
  | Element _ tg a cs =>
      let '(cs', n') :=
        (fix go (n : nat) (cs : list element) : list element * nat :=
           match cs with
           | [] => ([], n)
           | c :: cs =>
               let '(c', n1) := relabel n c in
               let '(cs', n2) := go n1 cs in
               (c' :: cs', n2)
           end) (S n) cs in
      (Element n tg a cs', n')
  end.

(** The inner loop of [relabel]: a list of trees in turn. *)
Fixpoint relabel_all (n : nat) (cs : list element) : list element * nat :=
  match cs with
  | [] => ([], n)
  | c :: cs =>
      let '(c', n1) := relabel n c in
      let '(cs', n2) := relabel_all n1 cs in
      (c' :: cs', n2)
  end.

Definition new (t : element) : M element := λ n,
  Ok ((relabel n t).1, (relabel n t).2).

(** [ET.Element(tag, attrib)] *)
Definition new_element (tg : string) (a : dict (option string)) : M element :=
  new (Element 0 tg a []).

(** [for x in xs: acc = step(acc, x)] *)
Fixpoint for_loop {A B} (step : B → A → M B) (xs : list A) (acc : B) : M B :=
  match xs with
  | [] => mret acc
  | x :: xs => acc ← step acc x; for_loop step xs acc
  end.

(** [for x in root.findall(".//t"): f(x)] for an edit [f] of [x] and of
    the elements directly under it: the edit reaches every element with
    tag [t] below [root].  An edit at one element does not change the
    outcome at another, so the order of the visits is immaterial.
    [for_each] is the loop for an edit that creates nothing, [for_each_new]
    for one that creates elements. *)
Fixpoint for_each (t : string) (f : element → element) (e : element)
    : element :=
  match e with
  | Element i tg a cs =>
      let e' := Element i tg a (for_each t f <$> cs) in
      if decide (tg = t) then f e' else e'
  end.

Definition for_each_below (t : string) (f : element → element)
    (root : element) : element :=
  with_children (for_each t f <$> children root) root.

Fixpoint for_each_new (t : string) (f : element → M element) (e : element)
    : M element :=
  match e with
  | Element i tg a cs =>
      cs' ← (fix go (cs : list element) : M (list element) :=
               match cs with
               | [] => mret []
               | c :: cs =>
                   c' ← for_each_new t f c; cs' ← go cs; mret (c' :: cs')
               end) cs;
      let e' := Element i tg a cs' in
      if decide (tg = t) then f e' else mret e'
  end.

Fixpoint in_turn (f : element → M element) (cs : list element)
    : M (list element) :=
  match cs with
  | [] => mret []
  | c :: cs => c' ← f c; cs' ← in_turn f cs; mret (c' :: cs')
  end.

Definition for_each_new_below (t : string) (f : element → M element)
    (root : element) : M element :=
  cs' ← in_turn (for_each_new t f) (children root);
  mret (with_children cs' root).

(** *** Values passed to [kol.formats.mjcf] *)

(** A Python value; [PObj cls args kwargs] is the dataclass instance
    [mjcf.cls( *args, **kwargs)]. *)
Inductive pyval : Type :=
| PBool (b : bool)
| PInt (z : Z)
| PFloat (x : float)
| PStr (s : string)
| PTuple (vs : list pyval)
| PList (vs : list pyval)
| PObj (cls : string) (args : list pyval) (kwargs : list (string * pyval))
| PElement (e : element).

Definition mjcf (cls : string) (kwargs : list (string * pyval)) : pyval :=
  PObj cls [] kwargs.

Definition STOMPY_HEIGHT : float := 1.0.

Definition DEFAULT_STANDING : dict float :=
  [ ("torso roll", 2.58);
    ("left shoulder pitch", -0.534);
    ("left shoulder yaw", 2.54);
    ("left shoulder roll", -0.0314);
    ("right shoulder pitch", 2.45);
    ("right shoulder yaw", 3.77);
    ("right shoulder roll", -0.0314);
    ("left elbow pitch", 2.35);
    ("right elbow pitch", 2.65);
    ("left hand left finger", 0.0);
    ("left hand right finger", 0.0);
    ("right hand left finger", 0.0);
    ("right hand right finger", 0.0);
    ("left wrist roll", 1.79);
    ("left wrist pitch", 1.35);
    ("left wrist yaw", 1.07);
    ("right wrist roll", -2.13);
    ("right wrist pitch", 1.79);
    ("right wrist yaw", -0.251);
    ("left hip pitch", -1.6);
    ("left hip roll", 1.41);
    ("left hip yaw", -2.12);
    ("left knee pitch", 2.01);
    ("left ankle pitch", 0.238);
    ("left ankle roll", 1.85);
    ("right hip pitch", 1.76);
    ("right hip roll", -1.54);
    ("right hip yaw", 0.967);
    ("right knee pitch", 2.07);
    ("right ankle pitch", 0.377);
    ("right ankle roll", 1.92) ]%float.

Definition limits (lower upper : pyval) : dict pyval :=
  [("lower", lower); ("upper", upper)].
Definition limits_higher (lower higher : pyval) : dict pyval :=
  [("lower", lower); ("higher", higher)].

Definition DEFAULT_LIMITS : dict (dict pyval) :=
  [ ("torso roll", limits (PFloat (-4.36332)) (PFloat 4.36332));
    ("left shoulder pitch", limits (PFloat (-0.0)) (PFloat 0.2));
    ("left shoulder yaw", limits (PFloat 0.97738438) (PFloat 5.3058009));
    ("left shoulder roll", limits (PFloat (-4.71239)) (PFloat 4.71239));
    ("right shoulder pitch", limits (PFloat (-4.71239)) (PFloat 4.71239));
    ("right shoulder yaw", limits (PFloat 0.97738438) (PFloat 5.3058009));
    ("right shoulder roll", limits (PFloat (-4.71239)) (PFloat 4.71239));
    ("left wrist roll", limits (PFloat (-4.71239)) (PFloat 4.71239));
    ("left wrist pitch", limits (PFloat (-3.66519)) (PFloat (-1.39626)));
    ("left wrist yaw", limits (PInt 0) (PFloat 1.5708));
    ("right wrist roll", limits (PFloat (-4.71239)) (PFloat 4.71239));
    ("right wrist pitch", limits (PFloat (-1.5708)) (PFloat 0.523599));
    ("right wrist yaw", limits (PFloat (-1.5708)) (PInt 0));
    ("left hip pitch", limits (PFloat (-4.712389)) (PFloat 4.712389));
    ("left hip roll", limits (PFloat (-3.14159)) (PInt 0));
    ("left hip yaw", limits (PFloat (-1.0472)) (PFloat 2.0944));
    ("left knee pitch", limits (PFloat (-4.18879)) (PInt 0));
    ("left ankle pitch", limits (PFloat (-1.5708)) (PFloat 2.18166));
    ("left ankle roll", limits (PFloat (-2.26893)) (PFloat (-1.22173)));
    ("right hip pitch", limits (PFloat (-4.712389)) (PFloat 4.712389));
    ("right hip roll", limits (PInt 0) (PFloat 3.14159));
    ("right hip yaw", limits (PFloat (-1.0472)) (PFloat 2.0944));
    ("right knee pitch", limits (PFloat (-4.18879)) (PInt 0));
    ("right ankle pitch", limits (PFloat (-1.5708)) (PFloat 2.18166));
    ("right ankle roll", limits (PFloat (-2.26893)) (PFloat (-1.22173)));
    ("left elbow pitch", limits_higher (PFloat 1.4486233) (PFloat 5.4454273));
    ("right elbow pitch", limits_higher (PFloat 1.4486233) (PFloat 5.4454273));
    ("left hand left finger", limits (PFloat (-0.051)) (PFloat 0.0));
    ("left hand right finger", limits (PInt 0) (PFloat 0.051));
    ("right hand left finger", limits (PFloat (-0.051)) (PFloat 0.0));
    ("right hand right finger", limits (PInt 0) (PFloat 0.051)) ]%float.

(** *** The descriptions that [adapt_world] hands to the library *)

Definition root_body : pyval :=
  mjcf "Body"
    [ ("name", PStr "root");
      ("pos", PTuple [PInt 0; PInt 0; PFloat STOMPY_HEIGHT]);
      ("quat", PTuple [PInt 1; PInt 0; PInt 0; PInt 0]) ].

Definition root_slide (name : string) (x y z : Z) : pyval :=
  mjcf "Joint"
    [ ("name", PStr name); ("type", PStr "slide");
      ("axis", PTuple [PInt x; PInt y; PInt z]); ("limited", PBool false) ].

Definition root_ball : pyval :=
  mjcf "Joint"
    [ ("name", PStr "root_ball"); ("type", PStr "ball");
      ("limited", PBool false) ].

Definition root_joints : list pyval :=
  [ root_slide "root_x" 1 0 0; root_slide "root_y" 0 1 0;
    root_slide "root_z" 0 0 1; root_ball ].

Definition imu_site : pyval :=
  mjcf "Site"
    [ ("name", PStr "imu"); ("size", PFloat 0.01);
      ("pos", PTuple [PInt 0; PInt 0; PInt 0]) ].

Definition light_high : pyval :=
  mjcf "Light"
    [ ("directional", PBool true);
      ("diffuse", PTuple [PFloat 0.4; PFloat 0.4; PFloat 0.4]);
      ("specular", PTuple [PFloat 0.1; PFloat 0.1; PFloat 0.1]);
      ("pos", PTuple [PInt 0; PInt 0; PFloat 5.0]);
      ("dir", PTuple [PInt 0; PInt 0; PInt (-1)]);
      ("castshadow", PBool false) ].

Definition light_low : pyval :=
  mjcf "Light"
    [ ("directional", PBool true);
      ("diffuse", PTuple [PFloat 0.6; PFloat 0.6; PFloat 0.6]);
      ("specular", PTuple [PFloat 0.2; PFloat 0.2; PFloat 0.2]);
      ("pos", PTuple [PInt 0; PInt 0; PInt 4]);
      ("dir", PTuple [PInt 0; PInt 0; PInt (-1)]) ].

Definition ground : pyval :=
  mjcf "Geom"
    [ ("name", PStr "ground"); ("type", PStr "plane");
      ("size", PTuple [PInt 0; PInt 0; PInt 1]);
      ("pos", PTuple [PFloat 0.001; PInt 0; PInt 0]);
      ("quat", PTuple [PInt 1; PInt 0; PInt 0; PInt 0]);
      ("material", PStr "matplane"); ("condim", PInt 3);
      ("conaffinity", PInt 1); ("contype", PInt 0) ].

Definition motor (joint : string) : pyval :=
  mjcf "Motor"
    [ ("name", PStr joint); ("joint", PStr joint); ("gear", PInt 1);
      ("ctrlrange", PTuple [PInt (-200); PInt 200]);
      ("ctrllimited", PBool true) ].

Definition actuatorpos (joint : string) : pyval :=
  mjcf "Actuatorpos"
    [ ("name", PStr (joint +:+ "_p")); ("actuator", PStr joint);
      ("user", PStr "13") ].

Definition actuatorvel (joint : string) : pyval :=
  mjcf "Actuatorvel"
    [ ("name", PStr (joint +:+ "_v")); ("actuator", PStr joint);
      ("user", PStr "13") ].

Definition actuatorfrc (joint : string) : pyval :=
  mjcf "Actuatorfrc"
    [ ("name", PStr (joint +:+ "_f")); ("actuator", PStr joint);
      ("user", PStr "13"); ("noise", PFloat 0.001) ].

Definition actuator_section (motors : list pyval) : pyval :=
  PObj "Actuator" [PList motors] [].

Definition sensor_section (sensor_pos sensor_vel sensor_frc : list pyval)
    : pyval :=
  PObj "Sensor" [PList sensor_pos; PList sensor_vel; PList sensor_frc] [].

Definition option_section : pyval :=
  mjcf "Option"
    [ ("timestep", PFloat 0.001); ("viscosity", PFloat 1e-6);
      ("iterations", PInt 50); ("solver", PStr "PGS");
      ("gravity", PTuple [PInt 0; PInt 0; PFloat (-9.81)]);
      ("flag", mjcf "Flag" [("frictionloss", PStr "enable")]) ].

Definition default_section (visual_geom : element) : pyval :=
  mjcf "Default"
    [ ("joint",
       mjcf "Joint"
         [ ("armature", PFloat 0.01); ("damping", PFloat 0.1);
           ("limited", PBool true); ("frictionloss", PFloat 0.00) ]);
      ("motor", mjcf "Motor" [("ctrllimited", PBool true)]);
      ("equality",
       mjcf "Equality" [("solref", PTuple [PFloat 0.001; PInt 2])]);
      ("geom",
       mjcf "Geom"
         [ ("solref", PTuple [PFloat 0.001; PInt 2]);
           ("friction", PTuple [PFloat 0.9; PFloat 0.2; PFloat 0.2]);
           ("condim", PInt 3); ("contype", PInt 1);
           ("conaffinity", PInt 0) ]);
      ("visual_geom", PElement visual_geom) ].

(** The four lists that the loop over [DEFAULT_LIMITS.keys()] fills. *)
Record joint_lists : Type := {
  motors : list pyval;
  sensor_pos : list pyval;
  sensor_vel : list pyval;
  sensor_frc : list pyval;
}.

Definition add_joint (acc : joint_lists) (joint : string) : joint_lists :=
  if bool_decide (joint ∈ dict_keys DEFAULT_STANDING) then
    {| motors := motors acc ++ [motor joint];
       sensor_pos := sensor_pos acc ++ [actuatorpos joint];
       sensor_vel := sensor_vel acc ++ [actuatorvel joint];
       sensor_frc := sensor_frc acc ++ [actuatorfrc joint] |}
  else acc.

Definition joint_loop : joint_lists :=
  foldl add_joint
    {| motors := []; sensor_pos := []; sensor_vel := []; sensor_frc := [] |}
    (dict_keys DEFAULT_LIMITS).

(** [class Sim2SimRobot(mjcf.Robot)]: the fields that the two methods
    read. *)
Record Sim2SimRobot : Type := {
  tree : element;
  compiler : option pyval;
}.

Section Sim2SimRobot.
(** [x.to_xml()] of the library: a freshly built element tree (its
    identities are assigned by [new]). *)
Context (to_xml : pyval → element).
(** [self.compiler.to_xml(compiler)]: the library writes the fields of
    the description as attributes of the given element. *)
Context (to_xml_into : pyval → dict (option string) → dict (option string)).
(** [str] on a float. *)
Context (str_float : float → string).
(** [_pretty_print_xml]: a round trip through [xml.dom.minidom]. *)
Context (_pretty_print_xml : string → string).

(** The body of [for joint in joints] of [add_reference_position]. *)
Definition set_reference (joint : element) : element :=
  match get "name" joint ≫= dict_lookup DEFAULT_STANDING with
  | Some x => set "ref" (Some (str_float x)) joint
  | None => joint
  end.

Definition add_reference_position (root : element) : element :=
  for_each_below "joint" set_reference root.

(** The body of [for geom in original_geoms]; [geom] is a reference to a
    child of [body]. *)
Definition add_visual_geom (body : element) (geom : nat) : M element :=
  let body := at_child geom (set "class" (Some "visualgeom")) body in
  g ← lift (child geom body);
  new_geom ← new_element "geom" [];
  let new_geom := set "type" (get "type" g) new_geom in
  let new_geom := set "rgba" (get "rgba" g) new_geom in
  let new_geom := set "mesh" (get "mesh" g) new_geom in
  let new_geom :=
    if truthy (get "pos" g) then set "pos" (get "pos" g) new_geom
    else new_geom in
  let new_geom :=
    if truthy (get "quat" g) then set "quat" (get "quat" g) new_geom
    else new_geom in
  let new_geom := set "contype" (Some "0") new_geom in
  let new_geom := set "conaffinity" (Some "0") new_geom in
  let new_geom := set "group" (Some "1") new_geom in
  let new_geom := set "density" (Some "0") new_geom in
  index ← lift (index geom body);
  mret (insert (index + 1) new_geom body).

(** The body of [for body in root.findall(".//body")] of the visual geom
    logic. *)
Definition add_visual_geoms (body : element) : M element :=
  let original_geoms := eid <$> findall "geom" body in
  for_loop add_visual_geom original_geoms body.

(** The body of [for join in joints] under [remove_frc_range]. *)
Definition drop_frc_range (join : element) : element :=
  if has_key "actuatorfrcrange" join
  then pop "actuatorfrcrange" join else join.

(** The body of [for body in root.findall(".//body")] under
    [remove_frc_range]. *)
Definition remove_frc_ranges (body : element) : element :=
  let joints := eid <$> findall "joint" body in
  foldl (λ body join, at_child join drop_frc_range body) body joints.

(** The body of [for item in items_to_move]; [worldbody] is a reference
    to a child of [root], [new_root_body] to a child of [worldbody], and
    [item] to a child of [worldbody]. *)
Definition move_item (worldbody new_root_body : nat) (root : element)
    (item : nat) : M element :=
  w ← lift (child worldbody root);
  x ← lift (child item w);
  w ← lift (remove item w);
  let root := at_child worldbody (λ _, w) root in
  mret (at_child worldbody (at_child new_root_body (append x)) root).

(** [adapt_world], lines 216-240: the floor texture and the materials
    go into the asset section. *)
Definition add_floor_assets (root : element) : M element :=
  asset ← not_none AttributeError (find "asset" root);
  texture ←
    new_element "texture"
      (attrs [ ("name", "texplane"); ("type", "2d");
               ("builtin", "checker"); ("rgb1", ".0 .0 .0");
               ("rgb2", ".8 .8 .8"); ("width", "100");
               ("height", "108") ]);
  let root := at_child (eid asset) (append texture) root in
  material ←
    new_element "material"
      (attrs [ ("name", "matplane"); ("reflectance", "0.");
               ("texture", "texplane"); ("texrepeat", "1 1");
               ("texuniform", "true") ]);
  let root := at_child (eid asset) (append material) root in
  material ←
    new_element "material"
      (attrs [("name", "visualgeom"); ("rgba", "0.5 0.9 0.2 1")]);
  mret (at_child (eid asset) (append material) root).

(** Lines 242-244: the compiler description is written into the
    compiler element, when there is a description and an element. *)
Definition adapt_compiler (self : Sim2SimRobot) (root : element) : element :=
  match compiler self, find "compiler" root with
  | Some c, Some el =>
      at_child (eid el) (λ x, with_attrib (to_xml_into c (attrib x)) x) root
  | _, _ => root
  end.

(** Lines 253-266: the new root body with its joints and its site, not
    yet attached. *)
Definition make_root_body : M element :=
  new_root_body ← new (to_xml root_body);
  joints ← in_turn new (to_xml <$> root_joints);
  let new_root_body := extend joints new_root_body in
  site ← new (to_xml imu_site);
  mret (append site new_root_body).

(** Lines 268-301: the root body goes to the end of the worldbody, the
    lights and the floor to its front. *)
Definition add_scene (add_floor : bool) (worldbody : nat)
    (new_root_body : element) (root : element) : M element :=
  let root := at_child worldbody (append new_root_body) root in
  light ← new (to_xml light_high);
  let root := at_child worldbody (insert 0 light) root in
  light ← new (to_xml light_low);
  let root := at_child worldbody (insert 0 light) root in
  if add_floor then
    floor ← new (to_xml ground);
    mret (at_child worldbody (insert 0 floor) root)
  else mret root.

(** Lines 303-341: the actuator and sensor sections, and the two imu
    sensors in the first sensor section of the tree. *)
Definition add_sections (root : element) : M element :=
  let lists := joint_loop in
  actuator ← new (to_xml (actuator_section (motors lists)));
  let root := append actuator root in
  sensor ←
    new (to_xml (sensor_section (sensor_pos lists) (sensor_vel lists)
                   (sensor_frc lists)));
  let root := append sensor root in
  sensors ← not_none AttributeError (find "sensor" root);
  framequat ←
    new_element "framequat"
      (attrs [ ("name", "orientation"); ("objtype", "site");
               ("noise", "0.001"); ("objname", "imu") ]);
  gyro ←
    new_element "gyro"
      (attrs [ ("name", "angular-velocity"); ("site", "imu");
               ("noise", "0.005"); ("cutoff", "34.9") ]);
  mret (at_child (eid sensors) (extend [framequat; gyro]) root).

(** Lines 343-374: the option and default sections, each inserted at
    index 1 of the root. *)
Definition add_defaults (root : element) : M element :=
  option ← new (to_xml option_section);
  let root := insert 1 option root in
  visual_geom ← new_element "default" (attrs [("class", "visualgeom")]);
  sub ←
    new_element "geom"
      (attrs [ ("material", "visualgeom"); ("condim", "3");
               ("contype", "0"); ("conaffinity", "0") ]);
  let visual_geom := append sub visual_geom in
  default ← new (to_xml (default_section visual_geom));
  mret (insert 1 default root).

(** [adapt_world] up to the insertion of the default section: the new
    elements are created and attached.  It hands on the tree and the
    references [worldbody], [new_root_body] and [items_to_move] that the
    rest of [adapt_world] uses. *)
Definition build_world (self : Sim2SimRobot) (add_floor : bool)
    : M (element * nat * nat * list nat) :=
  let root := tree self in
  root ← (if add_floor then add_floor_assets root else mret root);
  let root := adapt_compiler self root in
  worldbody ← not_none TypeError (find "worldbody" root);
  let items_to_move := eid <$> children worldbody in
  let worldbody := eid worldbody in
  new_root_body ← make_root_body;
  root ← add_scene add_floor worldbody new_root_body root;
  let new_root_body := eid new_root_body in
  root ← add_sections root;
  root ← add_defaults root;
  mret (root, worldbody, new_root_body, items_to_move).

Definition adapt_world (self : Sim2SimRobot)
    (add_floor add_reference_position_flag remove_frc_range : bool)
    : M element :=
  '(root, worldbody, new_root_body, items_to_move) ←
    build_world self add_floor;
  let root :=
    if add_reference_position_flag then add_reference_position root
    else root in
  root ← for_loop (move_item worldbody new_root_body) items_to_move root;
  root ← for_each_new_below "body" add_visual_geoms root;
  let root :=
    if remove_frc_range
    then for_each_below "body" remove_frc_ranges root else root in
  mret root.

(** [ET.tostring]: attribute values are escaped and written in order; a
    value that is not a string raises [TypeError]. *)
Definition escape_char (c : ascii) : string :=
  if decide (c = "&"%char) then "&amp;"
  else if decide (c = "<"%char) then "&lt;"
  else if decide (c = ">"%char) then "&gt;"
  else if decide (c = ascii_of_nat 34) then "&quot;"
  else if decide (c = ascii_of_nat 13) then "&#13;"
  else if decide (c = ascii_of_nat 10) then "&#10;"
  else if decide (c = ascii_of_nat 9) then "&#09;"
  else String c EmptyString.

Fixpoint escape_attrib (s : string) : string :=
  match s with
  | EmptyString => EmptyString
  | String c s => escape_char c +:+ escape_attrib s
  end.

Definition quote : string := String (ascii_of_nat 34) EmptyString.

Fixpoint write_attribs (a : dict (option string)) : result string :=
  match a with
  | [] => Ok EmptyString
  | (k, Some v) :: a =>
      rest ← write_attribs a;
      Ok (" " +:+ k +:+ "=" +:+ quote +:+ escape_attrib v +:+ quote +:+ rest)
  | (_, None) :: _ => Raise TypeError
  end.

Fixpoint tostring (e : element) : result string :=
  match e with
  | Element _ tg a cs =>
      attribs ← write_attribs a;
      inner ←
        (fix go (cs : list element) : result string :=
           match cs with
           | [] => Ok EmptyString
           | c :: cs => x ← tostring c; rest ← go cs; Ok (x +:+ rest)
           end) cs;
      Ok (match cs with
          | [] => "<" +:+ tg +:+ attribs +:+ " />"
          | _ => "<" +:+ tg +:+ attribs +:+ ">" +:+ inner
                     +:+ "</" +:+ tg +:+ ">"
          end)
  end.

(** [save] returns the text that it writes to [path]. *)
Definition save (self : Sim2SimRobot) : result string :=
  rough_string ← tostring (tree self);
  Ok (_pretty_print_xml rough_string).

End Sim2SimRobot.

(** *** Vocabulary of the statements *)

(** The identities in [e], in document order. *)
Fixpoint ids (e : element) : list nat :=
  match e with
  | Element i _ _ cs => i :: mjoin (ids <$> cs)
  end.

(** The objects of a tree are pairwise distinct and were created before
    the counter reached [n]. *)
Definition well_formed (n : nat) (root : element) : Prop :=
  NoDup (ids root) ∧ Forall (λ i, i < n) (ids root).

(** What the edits through references rely on: the children of one
    element are pairwise distinct, and every identity is below [n]. *)
Fixpoint distinct_siblings (n : nat) (e : element) : Prop :=
  match e with
  | Element i _ _ cs =>
      i < n ∧ NoDup (eid <$> cs)
      ∧ foldr (λ c acc, distinct_siblings n c ∧ acc) True cs
  end.

(** [e] is [t] as created at some moment after the counter was [n]. *)
Definition created_from (n : nat) (t e : element) : Prop :=
  ∃ k, n ≤ k ∧ e = (relabel k t).1.

(** The attributes of the geom that the visual geom logic derives from
    [geom]. *)
Definition copied (k : string) (geom : element) : dict (option string) :=
  if truthy (get k geom) then [(k, get k geom)] else [].

Definition visual_copy_attrib (geom : element) : dict (option string) :=
  [ ("type", get "type" geom); ("rgba", get "rgba" geom);
    ("mesh", get "mesh" geom) ]
  ++ copied "pos" geom ++ copied "quat" geom
  ++ attrs [ ("contype", "0"); ("conaffinity", "0"); ("group", "1");
             ("density", "0") ].

(** The children of a body after the visual geom logic: every geom gets
    the class and a new sibling right after it, created at [n], [n + 1],
    ... *)
Fixpoint with_visual_geoms (n : nat) (cs : list element) : list element :=
  match cs with
  | [] => []
  | c :: cs =>
      if decide (tag c = "geom") then
        set "class" (Some "visualgeom") c
        :: Element n "geom"
             (visual_copy_attrib (set "class" (Some "visualgeom") c)) []
        :: with_visual_geoms (S n) cs
      else c :: with_visual_geoms n cs
  end.

(** What the visual geom logic leaves at a body, for the geoms created
    before the counter reached [m]: the class is set, and the next
    sibling is a new geom with the derived attributes. *)
Definition visual_geoms_at (m : nat) (body : element) : Prop :=
  ∀ before geom after,
    children body = before ++ geom :: after →
    tag geom = "geom" → eid geom < m →
    get "class" geom = Some "visualgeom"
    ∧ ∃ new_geom after',
        after = new_geom :: after' ∧ m ≤ eid new_geom
        ∧ tag new_geom = "geom" ∧ children new_geom = []
        ∧ attrib new_geom = visual_copy_attrib geom.

Definition visual_geoms_in (m : nat) (e : element) : Prop :=
  ∀ body, body ∈ e :: descendants e → tag body = "body" →
          visual_geoms_at m body.

(** An element that the three passes over the finished tree leave alone
    wherever it sits (unless it is a geom directly under a body): it has
    no body inside, and no joint that [add_reference_position] or
    [remove_frc_range] would edit. *)
Fixpoint passive (e : element) : bool :=
  match e with
  | Element _ tg a cs =>
      negb (bool_decide (tg = "body"))
      && (negb (bool_decide (tg = "joint"))
          || (bool_decide
                (default None (dict_lookup a "name")
                 ≫= dict_lookup DEFAULT_STANDING = None)
              && negb (bool_decide (is_Some (dict_lookup a "actuatorfrcrange")))))
      && forallb passive cs
  end.

(** What the statements assume of the library: the elements it builds
    for the scene, for the parts of the root body and for the two
    sections are passive, the root body is a childless [body], its parts
    are not geoms, the actuator section is an [actuator] and the sensor
    section a [sensor]. *)
Definition scene_passive (to_xml : pyval → element) : Prop :=
  Forall (λ v, passive (to_xml v) = true) [light_high; light_low; ground].

Definition root_body_plain (to_xml : pyval → element) : Prop :=
  tag (to_xml root_body) = "body" ∧ children (to_xml root_body) = []
  ∧ Forall (λ v, passive (to_xml v) = true ∧ tag (to_xml v) ≠ "geom")
      (root_joints ++ [imu_site]).

Definition sections_passive (to_xml : pyval → element) : Prop :=
  passive
    (to_xml (actuator_section (motors joint_loop))) = true
  ∧ tag (to_xml (actuator_section (motors joint_loop))) = "actuator"
  ∧ passive
      (to_xml (sensor_section (sensor_pos joint_loop) (sensor_vel joint_loop)
                 (sensor_frc joint_loop))) = true
  ∧ tag
      (to_xml (sensor_section (sensor_pos joint_loop) (sensor_vel joint_loop)
                 (sensor_frc joint_loop))) = "sensor".



(** The two optional passes at one element. *)
Definition with_references (str_float : float → string) (flag : bool)
    (e : element) : element :=
  if flag then for_each "joint" (set_reference str_float) e else e.

Definition without_frc_ranges (flag : bool) (e : element) : element :=
  if flag
  then (if decide (tag (for_each "body" remove_frc_ranges e) = "joint")
        then drop_frc_range (for_each "body" remove_frc_ranges e)
        else for_each "body" remove_frc_ranges e)
  else e.

(** The elements that [adapt_world] builds itself, as the script writes
    them: the texture and the two materials of the floor, the two sensors
    of the imu site, and the default class of the visual geoms. *)
Definition floor_assets : list element :=
  [ Element 0 "texture"
      (attrs [ ("name", "texplane"); ("type", "2d");
               ("builtin", "checker"); ("rgb1", ".0 .0 .0");
               ("rgb2", ".8 .8 .8"); ("width", "100");
               ("height", "108") ]) [];
    Element 0 "material"
      (attrs [ ("name", "matplane"); ("reflectance", "0.");
               ("texture", "texplane"); ("texrepeat", "1 1");
               ("texuniform", "true") ]) [];
    Element 0 "material"
      (attrs [("name", "visualgeom"); ("rgba", "0.5 0.9 0.2 1")]) [] ].

Definition imu_sensors : list element :=
  [ Element 0 "framequat"
      (attrs [ ("name", "orientation"); ("objtype", "site");
               ("noise", "0.001"); ("objname", "imu") ]) [];
    Element 0 "gyro"
      (attrs [ ("name", "angular-velocity"); ("site", "imu");
               ("noise", "0.005"); ("cutoff", "34.9") ]) [] ].

Definition visual_geom_default : element :=
  Element 0 "default" (attrs [("class", "visualgeom")])
    [ Element 0 "geom"
        (attrs [ ("material", "visualgeom"); ("condim", "3");
                 ("contype", "0"); ("conaffinity", "0") ]) [] ].

(** What some statements assume of the library's option and default
    sections: they are passive, the default section for every passive
    class element that it is given. *)
Definition defaults_passive (to_xml : pyval → element) : Prop :=
  passive (to_xml option_section) = true
  ∧ ∀ visual_geom, passive visual_geom = true →
                   passive (to_xml (default_section visual_geom)) = true.

(** [x'] is [x] after edits of its attributes: the same object with the
    same tag and, unless it is a compiler element, with every key outside
    [keys] bound as before or absent as before. *)
Definition same_but (keys : list string) (x x' : element) : Prop :=
  eid x' = eid x ∧ tag x' = tag x
  ∧ (tag x ≠ "compiler" →
     ∀ k, k ∉ keys → dict_lookup (attrib x') k = dict_lookup (attrib x) k).

(** The attributes that the passes of [adapt_world] set or pop, by the
    flags of the call. *)
Definition edited_keys (add_reference_position_flag remove_frc_range : bool)
    : list string :=
  (if add_reference_position_flag then ["ref"] else [])
  ++ ["class"]
  ++ (if remove_frc_range then ["actuatorfrcrange"] else []).

(** [e'] is [e] with more elements and with edits at the keys [keys]:
    the root is the root, and every element below [e] is below [e']. *)
Definition kept (keys : list string) (e e' : element) : Prop :=
  same_but keys e e'
  ∧ ∀ x, x ∈ descendants e →
         ∃ x', x' ∈ descendants e' ∧ same_but keys x x'.

(** The values of an attribute dictionary are strings, none is [None]. *)
Definition string_valued (a : dict (option string)) : bool :=
  forallb (λ kv, bool_decide (is_Some kv.2)) a.

(** Every attribute of [e] and of the elements below it has a string
    value: what [ET.tostring] needs. *)
Fixpoint writable (e : element) : bool :=
  match e with
  | Element _ _ a cs => string_valued a && forallb writable cs
  end.

(** A geom has the three attributes that the visual geom logic copies
    without a test; other elements pass. *)
Definition complete_geom (c : element) : bool :=
  negb (bool_decide (tag c = "geom"))
  || forallb (λ k, bool_decide (is_Some (get k c))) ["type"; "rgba"; "mesh"].

(** The geoms directly under an element whose tag is in [parents] are
    complete, everywhere in [e]. *)
Fixpoint geoms_complete (parents : list string) (e : element) : bool :=
  match e with
  | Element _ tg _ cs =>
      (negb (bool_decide (tg ∈ parents)) || forallb complete_geom cs)
      && forallb (geoms_complete parents) cs
  end.

(** What [save] after [adapt_world] assumes of the library: the
    elements that it builds carry string values only, and so do the
    attributes that it writes into the compiler element. *)
Definition library_writable (to_xml : pyval → element) : Prop :=
  Forall (λ v, writable (to_xml v) = true)
    ([light_high; light_low; ground; root_body] ++ root_joints
     ++ [ imu_site; actuator_section (motors joint_loop);
          sensor_section (sensor_pos joint_loop) (sensor_vel joint_loop)
            (sensor_frc joint_loop);
          option_section ])
  ∧ ∀ visual_geom,
      writable visual_geom = true →
      writable (to_xml (default_section visual_geom)) = true.

Definition compiler_writable
    (to_xml_into : pyval → dict (option string) → dict (option string))
    (self : Sim2SimRobot) : Prop :=
  ∀ c a, compiler self = Some c → string_valued a = true →
         string_valued (to_xml_into c a) = true.

(** *** A sample library and sample robots *)

Definition lower_char (c : ascii) : ascii :=
  let n := nat_of_ascii c in
  if ((65 <=? n) && (n <=? 90))%nat then ascii_of_nat (n + 32) else c.

Fixpoint lower (s : string) : string :=
  match s with
  | EmptyString => EmptyString
  | String c s => String (lower_char c) (lower s)
  end.

Fixpoint zeros (k : nat) : string :=
  match k with
  | 0 => EmptyString
  | S k => String "0" (zeros k)
  end.

Fixpoint strip_zeros (fuel : nat) (f : Z) (width : nat) : Z * nat :=
  match fuel with
  | 0 => (f, width)
  | S fuel =>
      if ((f mod 10 =? 0)%Z && (1 <? width)%nat)
      then strip_zeros fuel (f / 10)%Z (width - 1) else (f, width)
  end.

(** A float in decimal, rounded to six places: what [str] prints for the
    constants of the script that have a short decimal form. *)
Definition sample_str_float (x : float) : string :=
  match Prim2SF x with
  | S754_zero s => if s then "-0.0" else "0.0"
  | S754_infinity s => if s then "-inf" else "inf"
  | S754_nan => "nan"
  | S754_finite s m e =>
      let scaled :=
        if (0 <=? e)%Z then (Z.pos m * 2 ^ e * 1000000)%Z
        else ((Z.pos m * 2000000 + 2 ^ (- e)) / 2 ^ (1 - e))%Z in
      let '(f, width) := strip_zeros 6 (scaled mod 1000000)%Z 6 in
      let digits := pretty f in
      (if s then "-" else EmptyString)
      +:+ pretty (scaled / 1000000)%Z +:+ "."
      +:+ zeros (width - String.length digits) +:+ digits
  end.

Fixpoint sample_str (v : pyval) : option string :=
  match v with
  | PBool b => Some (if b then "true" else "false")
  | PInt z => Some (pretty z)
  | PFloat x => Some (sample_str_float x)
  | PStr s => Some s
  | PTuple vs => Some (String.concat " " (omap sample_str vs))
  | _ => None
  end.

(** A library in the style of [kol.formats.mjcf]: the tag is the class
    name in lower case, a keyword argument that is a number, a string, a
    boolean or a tuple becomes an attribute, and a listed or nested
    object becomes a child. *)
Fixpoint sample_to_xml (v : pyval) : element :=
  match v with
  | PObj cls args kwargs =>
      Element 0 (lower cls)
        (omap (λ kv, match sample_str kv.2 with
                     | Some s => Some (kv.1, Some s)
                     | None => None
                     end) kwargs)
        ((args ≫= λ a, match a with
                       | PList vs => sample_to_xml <$> vs
                       | _ => []
                       end)
         ++ omap (λ kv, match kv.2 with
                        | PObj _ _ _ => Some (sample_to_xml kv.2)
                        | PElement e => Some e
                        | _ => None
                        end) kwargs)
  | PElement e => e
  | _ => Element 0 "value" [] []
  end.

Definition sample_to_xml_into (c : pyval) (a : dict (option string))
    : dict (option string) :=
  foldl (λ a kv, dict_set a kv.1 kv.2) a (attrib (sample_to_xml c)).

Definition sample_compiler : pyval :=
  mjcf "Compiler"
    [ ("angle", PStr "radian"); ("meshdir", PStr "meshes");
      ("autolimits", PBool true) ].

(** An element as [ET.parse] reads it: identities are assigned by
    [parsed]. *)
Definition xml (tg : string) (a : list (string * string))
    (cs : list element) : element :=
  Element 0 tg (attrs a) cs.

Definition parsed (t : element) : Sim2SimRobot :=
  {| tree := (relabel 0 t).1; compiler := Some sample_compiler |}.

Definition parsed_count (t : element) : nat := (relabel 0 t).2.

(** A torso with an arm; every geom is a mesh with a colour. *)
Definition sample_mjcf : element :=
  xml "mujoco" [("model", "robot")]
    [ xml "compiler" [("angle", "radian")] [];
      xml "asset" []
        [ xml "mesh" [("name", "torso"); ("file", "torso.stl")] [];
          xml "mesh" [("name", "arm"); ("file", "arm.stl")] [] ];
      xml "worldbody" []
        [ xml "body" [("name", "torso"); ("pos", "0 0 0")]
            [ xml "geom"
                [ ("type", "mesh"); ("rgba", "1 1 1 1"); ("mesh", "torso");
                  ("pos", "0 0 0.1"); ("quat", "1 0 0 0") ] [];
              xml "joint"
                [ ("name", "torso roll"); ("type", "hinge");
                  ("actuatorfrcrange", "-10 10") ] [];
              xml "body" [("name", "arm")]
                [ xml "geom"
                    [ ("type", "mesh"); ("rgba", "1 0 0 1");
                      ("mesh", "arm") ] [] ] ] ] ].

(** A body whose geom is a primitive: it names no mesh. *)
Definition primitive_mjcf : element :=
  xml "mujoco" [("model", "ball")]
    [ xml "asset" [] [];
      xml "worldbody" []
        [ xml "body" [("name", "ball")]
            [ xml "geom"
                [("type", "sphere"); ("size", "0.1"); ("rgba", "1 0 0 1")]
                [] ] ] ].


(** A tree without an asset section, and one without a worldbody. *)
Definition no_asset_mjcf : element :=
  xml "mujoco" [("model", "bare")]
    [ xml "worldbody" [] [ xml "body" [("name", "part")] [] ] ].

Definition no_worldbody_mjcf : element :=
  xml "mujoco" [("model", "empty")] [ xml "asset" [] [] ].

(** The element at the end of a path of child positions. *)
Fixpoint at_path (path : list nat) (e : element) : option element :=
  match path with
  | [] => Some e
  | i :: path => children e !! i ≫= at_path path
  end.

Definition element_at (path : list nat) (e : element) : element :=
  default e (at_path path e).

(** [Sim2SimRobot(...).adapt_world(...)] on a parsed sample with the
    sample library, and the tree that it leaves. *)
Definition adapted (t : element) (add_floor arp rfr : bool)
    : result (element * nat) :=
  adapt_world sample_to_xml sample_to_xml_into sample_str_float (parsed t)
    add_floor arp rfr (parsed_count t).

Definition adapted_tree (t : element) (add_floor arp rfr : bool) : element :=
  match adapted t add_floor arp rfr with
  | Ok (root, _) => root
  | Raise _ => tree (parsed t)
  end.

Definition adapted_count (t : element) (add_floor arp rfr : bool) : nat :=
  match adapted t add_floor arp rfr with
  | Ok (_, n) => n
  | Raise _ => parsed_count t
  end.

End Mjcf.

(** * Properties of the reward dispatch *)

Module RewardsFacts.
Import Rewards.

Section Facts.
Context (prec emax : Z).
Context {mjxState : Type}.
Context (q_at : mjxState → Z → spec_float).
Context (subtree_com_at : mjxState → Z → Z → spec_float).
Context (jp_sum : list spec_float → spec_float).

Local Abbreviation reward_functions :=
  (reward_functions prec emax q_at subtree_com_at jp_sum).
Local Abbreviation reward_loop :=
  (reward_loop prec emax q_at subtree_com_at jp_sum).
Local Abbreviation get_reward_fn :=
  (get_reward_fn prec emax q_at subtree_com_at jp_sum).
Local Abbreviation dispatched := (dispatched prec emax q_at subtree_com_at jp_sum).
Local Abbreviation sum_of_dispatched :=
  (sum_of_dispatched prec emax q_at subtree_com_at jp_sum).
Local Abbreviation breakdown_of_dispatched :=
  (breakdown_of_dispatched prec emax q_at subtree_com_at jp_sum).
Local Abbreviation registered := (registered prec emax q_at subtree_com_at jp_sum).
Local Abbreviation keys_registered :=
  (keys_registered prec emax q_at subtree_com_at jp_sum).

Lemma reward_loop_unfold dt inc state action next_state items reward is_healthy rewards :
  reward_loop dt inc state action next_state items reward is_healthy rewards =
  rhs ← mapM (dispatched dt state action next_state) items;
  Ok (foldl (SFadd prec emax) reward rhs.*1,
      foldl (SFmul prec emax) is_healthy rhs.*2,
      if inc then stored rewards (zip (dict_keys items) rhs.*1) else rewards).
Proof.
  revert reward is_healthy rewards. unfold Rewards.dispatched.
  induction items as [|[key params] items IH]; intros reward is_healthy rewards.
  - by destruct inc.
  - cbn [reward_loop mapM fst snd].
    destruct (dict_get reward_functions key) as [f|e]; [|done].
    cbn [mbind result_bind].
    destruct (f state action next_state dt params) as [[r h]|e]; [|done].
    cbn [mbind result_bind]. rewrite IH.
    destruct (mapM _ items) as [rhs|e]; by destruct inc.
Qed.

Lemma mapM_result_length {A B} (f : A → result B) (l : list A) (k : list B) :
  mapM f l = Ok k → length k = length l.
Proof.
  revert k. induction l as [|x l IH]; intros k; cbn.
  - by intros [= <-].
  - destruct (f x) as [y|e]; [|done]. cbn.
    destruct (mapM f l) as [k'|e]; [|done]. cbn.
    intros [= <-]. cbn. by rewrite (IH k').
Qed.

Lemma mapM_result_Ok {A B} (f : A → result B) (l : list A) :
  Forall (λ x, is_Ok (f x)) l → is_Ok (mapM f l).
Proof.
  induction 1 as [|x l [y Hy] _ [k Hk]]; cbn.
  - by eexists.
  - rewrite Hy, Hk. by eexists.
Qed.

Lemma registered_iff key :
  registered key ↔
  key = "rew_forward" ∨ key = "rew_healthy" ∨ key = "rew_ctrl_cost".
Proof.
  unfold Rewards.registered, dict_keys. cbn.
  rewrite !elem_of_cons, elem_of_nil. tauto.
Qed.

Lemma dict_get_registered key :
  registered key ↔ is_Ok (dict_get reward_functions key).
Proof.
  rewrite registered_iff. unfold dict_get. cbn.
  repeat case_decide; subst; split; intros Hk;
    try (by eexists); try tauto; try (by destruct Hk).
  destruct Hk as [|[|]]; congruence.
Qed.

(** Every exception of a dispatched call is a [KeyError]. *)
Lemma dispatched_raises dt state action next_state entry e :
  dispatched dt state action next_state entry = Raise e → ∃ key, e = KeyError key.
Proof.
  destruct entry as [key params]. unfold Rewards.dispatched, dict_get. cbn.
  repeat case_decide; cbn; try (intros [= <-]; by eexists); try done.
  unfold healthy_reward_fn, field_get.
  destruct (healthy_z_lower params), (healthy_z_upper params); cbn;
    try done; intros [= <-]; by eexists.
Qed.

Lemma dispatched_returns dt state action next_state entry :
  registered entry.1 → (entry.1 = "rew_healthy" → has_bounds entry.2) →
  is_Ok (dispatched dt state action next_state entry).
Proof.
  destruct entry as [key params]. cbn [fst snd].
  rewrite registered_iff. unfold Rewards.dispatched, dict_get. cbn.
  intros [-> | [-> | ->]] Hb; repeat case_decide; try congruence; cbn;
    try (by eexists).
  destruct Hb as [[lo Hlo] [hi Hhi]]; [done|].
  unfold healthy_reward_fn. rewrite Hlo, Hhi. by eexists.
Qed.

Lemma mapM_dispatched_unregistered dt state action next_state items :
  ¬ keys_registered items →
  ∃ key, mapM (dispatched dt state action next_state) items = Raise (KeyError key).
Proof.
  unfold Rewards.keys_registered, dict_keys.
  induction items as [|[key params] items IH]; cbn [fmap list_fmap]; intros Hn.
  - destruct Hn. constructor.
  - cbn [mapM].
    destruct (dispatched dt state action next_state (key, params))
      as [rh|e] eqn:Hd.
    + cbn. destruct IH as [k Hk].
      * intros Hall. apply Hn. constructor; [|done]. cbn.
        apply dict_get_registered. unfold Rewards.dispatched in Hd.
        cbn in Hd. destruct (dict_get reward_functions key); [by eexists|done].
      * rewrite Hk. by exists k.
    + apply dispatched_raises in Hd as [k ->]. by exists k.
Qed.

Lemma dict_set_fresh {V} (d : dict V) k v :
  k ∉ dict_keys d → dict_set d k v = d ++ [(k, v)].
Proof.
  unfold dict_keys. induction d as [|[k' v'] d IH]; cbn; [done|].
  rewrite not_elem_of_cons. intros [Hne Hnin].
  case_decide; [congruence|]. by rewrite IH.
Qed.

Lemma stored_fresh (d : dict spec_float) kvs :
  NoDup (dict_keys d ++ kvs.*1) → stored d kvs = d ++ kvs.
Proof.
  unfold stored, dict_keys. revert d.
  induction kvs as [|[k v] kvs IH]; intros d; cbn.
  - intros _. by rewrite app_nil_r.
  - intros Hnd. rewrite dict_set_fresh.
    + rewrite IH; [by rewrite <- app_assoc|].
      by rewrite fmap_app, <- app_assoc.
    + apply NoDup_app in Hnd as (_ & Hdisj & _).
      intros Hin. apply (Hdisj k Hin). by left.
Qed.

(** C1: when every key of [reward_params] is registered, the first
    component returned by the function that [get_reward_fn] builds is
    exactly the sum, over the entries of [reward_params] in order, of the
    first components of the dispatched reward functions; and the function
    does return whenever every entry carries the keys its reward function
    reads. *)
Theorem get_reward_fn_sum (reward_params : RewardParams) (dt : spec_float)
    (include_reward_breakdown : bool)
    (state : mjxState) (action : list spec_float) (next_state : mjxState)
    (Hreg : keys_registered reward_params) :
  (λ out, out.1.1) <$>
    get_reward_fn reward_params dt include_reward_breakdown
      state action next_state
  = sum_of_dispatched reward_params dt state action next_state
  ∧ (params_complete reward_params →
     is_Ok (get_reward_fn reward_params dt include_reward_breakdown
              state action next_state)).
Proof.
  unfold Rewards.get_reward_fn, Rewards.sum_of_dispatched, sum_floats.
  rewrite reward_loop_unfold. split.
  - by destruct (mapM _ reward_params).
  - intros Hc.
    destruct (mapM_result_Ok (dispatched dt state action next_state)
                reward_params) as [rhs ->]; [|by eexists].
    unfold Rewards.keys_registered, dict_keys in Hreg.
    rewrite Forall_fmap in Hreg. unfold params_complete in Hc.
    rewrite Forall_forall in Hreg, Hc. apply Forall_forall. intros entry Hin.
    apply dispatched_returns; [apply (Hreg entry Hin)|apply (Hc entry Hin)].
Qed.

(** C8: when some key of [reward_params] is not registered,
    [get_reward_fn] still yields a function, and that function raises a
    [KeyError] on every [(state, action, next_state)]: no partial sum is
    returned. *)
Theorem unregistered_key_raises (reward_params : RewardParams)
    (dt : spec_float) (include_reward_breakdown : bool)
    (Hunreg : ¬ keys_registered reward_params) :
  ∃ reward_fn,
    reward_fn = get_reward_fn reward_params dt include_reward_breakdown ∧
    ∀ state action next_state,
      ∃ key, reward_fn state action next_state = Raise (KeyError key).
Proof.
  eexists; split; [done|]. intros state action next_state.
  unfold Rewards.get_reward_fn. rewrite reward_loop_unfold.
  destruct (mapM_dispatched_unregistered dt state action next_state
              reward_params Hunreg) as [key ->].
  by exists key.
Qed.

(** C10: without the breakdown flag the third component is the empty
    dictionary; with it, the third component has exactly the keys of
    [reward_params], in order, each with the first component of its
    dispatched reward function; and the flag never changes the first two
    components. *)
Theorem breakdown_frame (reward_params : RewardParams) (dt : spec_float)
    (state : mjxState) (action : list spec_float) (next_state : mjxState)
    (Hkeys : NoDup (dict_keys reward_params)) :
  (∀ out, get_reward_fn reward_params dt false state action next_state = Ok out →
          out.2 = [])
  ∧ (λ out, out.2) <$>
      get_reward_fn reward_params dt true state action next_state
    = breakdown_of_dispatched reward_params dt state action next_state
  ∧ (λ out, out.1) <$>
      get_reward_fn reward_params dt true state action next_state
    = (λ out, out.1) <$>
      get_reward_fn reward_params dt false state action next_state.
Proof.
  unfold Rewards.get_reward_fn, Rewards.breakdown_of_dispatched.
  rewrite !reward_loop_unfold.
  destruct (mapM _ reward_params) as [rhs|e] eqn:Hm; cbn.
  - split_and!; [by intros out [= <-]| |done].
    rewrite stored_fresh; [done|]. cbn.
    apply mapM_result_length in Hm.
    rewrite fst_zip; [done|]. unfold dict_keys. rewrite !length_fmap. lia.
  - by split_and!.
Qed.

(** Swapping the operands of an IEEE comparison reverses its outcome. *)
Lemma SFcompare_swap (x y : spec_float) :
  SFcompare y x = CompOpp <$> SFcompare x y.
Proof.
  destruct x as [sx|sx| |sx mx ex], y as [sy|sy| |sy my ey]; cbn;
    try done; try (by destruct sx); try (by destruct sy);
    try (by destruct sx, sy).
  destruct sx, sy; cbn; try done; f_equal;
    rewrite (Z.compare_antisym ex ey); destruct (ex ?= ey)%Z; cbn; try done.
  - f_equal. symmetry. apply (Pos.compare_cont_antisym mx my Eq).
  - symmetry. apply (Pos.compare_cont_antisym mx my Eq).
Qed.

Lemma SFcompare_not_nan (x y : spec_float) :
  is_nan x = false → is_nan y = false → is_Some (SFcompare x y).
Proof.
  destruct x as [sx|sx| |sx mx ex], y as [sy|sy| |sy my ey]; cbn; by eauto.
Qed.

(** On numbers, [x < y] fails exactly when [y <= x]. *)
Lemma SFltb_negb_SFleb (x y : spec_float) :
  is_nan x = false → is_nan y = false → negb (SFltb x y) = SFleb y x.
Proof.
  intros Hx Hy. unfold SFltb, SFleb. rewrite (SFcompare_swap x y).
  destruct (SFcompare_not_nan x y Hx Hy) as [c ->]. by destruct c.
Qed.

(** C9 (amended): with both bounds present, [healthy_reward_fn] returns
    health 1.0 exactly when neither [q[2] < healthy_z_lower] nor
    [q[2] > healthy_z_upper] holds, and 0.0 otherwise; the reward is
    [weight] times the health value; when [q[2]] and both bounds are
    numbers (not NaN) the condition is
    [healthy_z_lower <= q[2] <= healthy_z_upper], boundaries included;
    [action], [next_state] and [dt] never affect the result. *)
Theorem healthy_reward_fn_range (state : mjxState) (action : list spec_float)
    (next_state : mjxState) (dt : spec_float) (params : RewardDict)
    (min_z max_z : spec_float)
    (Hlower : healthy_z_lower params = Some min_z)
    (Hupper : healthy_z_upper params = Some max_z) :
  let z := q_at state 2 in
  let health :=
    if in_healthy_range z min_z max_z then f1 prec emax else f0 in
  healthy_reward_fn prec emax q_at state action next_state dt params
  = Ok (SFmul prec emax (weight params) health, health)
  ∧ (is_nan z = false → is_nan min_z = false → is_nan max_z = false →
     in_healthy_range z min_z max_z = between z min_z max_z)
  ∧ (∀ action' next_state' dt',
       healthy_reward_fn prec emax q_at state action' next_state' dt' params
       = healthy_reward_fn prec emax q_at state action next_state dt params).
Proof.
  intros z health. split_and!.
  - unfold healthy_reward_fn. rewrite Hlower, Hupper. cbn.
    subst health z. unfold in_healthy_range, jp_where.
    by destruct (SFltb (q_at state 2) min_z), (SFltb max_z (q_at state 2)).
  - intros Hz Hlo Hhi. unfold in_healthy_range, between.
    by rewrite !SFltb_negb_SFleb.
  - done.
Qed.

End Facts.

(** *** The dispatch on sample inputs *)

Example default_params_reward :
  get_reward_fn 24 128 sample_q_at sample_subtree_com_at sample_sum
    DEFAULT_REWARD_PARAMS sample_dt true
    sample_before sample_action sample_after
  = Ok (float_of_ratio 24 128 62 10, SFone 24 128,
        [ ("rew_forward", float_of_ratio 24 128 125 100);
          ("rew_healthy", float_of_ratio 24 128 5 1);
          ("rew_ctrl_cost", SFopp (float_of_ratio 24 128 5 100)) ]).
Proof. vm_compute. reflexivity. Qed.

Lemma default_keys_registered :
  keys_registered 24 128 sample_q_at sample_subtree_com_at sample_sum
    DEFAULT_REWARD_PARAMS.
Proof.
  unfold keys_registered, registered. cbn.
  repeat constructor.
Defined.

Lemma get_reward_fn_sum_witness :
  keys_registered 24 128 sample_q_at sample_subtree_com_at sample_sum
    DEFAULT_REWARD_PARAMS
  ∧ (λ out, out.1.1) <$>
      get_reward_fn 24 128 sample_q_at sample_subtree_com_at sample_sum
        DEFAULT_REWARD_PARAMS sample_dt true
        sample_before sample_action sample_after
    = sum_of_dispatched 24 128 sample_q_at sample_subtree_com_at sample_sum
        DEFAULT_REWARD_PARAMS sample_dt
        sample_before sample_action sample_after.
Proof.
  split; [exact default_keys_registered|].
  exact (proj1 (get_reward_fn_sum 24 128 sample_q_at sample_subtree_com_at
                  sample_sum DEFAULT_REWARD_PARAMS sample_dt true
                  sample_before sample_action sample_after
                  default_keys_registered)).
Defined.

Lemma unregistered_key_raises_witness :
  ¬ keys_registered 24 128 sample_q_at sample_subtree_com_at sample_sum
      unregistered_params
  ∧ ∃ key,
      get_reward_fn 24 128 sample_q_at sample_subtree_com_at sample_sum
        unregistered_params sample_dt false
        sample_before sample_action sample_after
      = Raise (KeyError key).
Proof.
  assert (Hn : ¬ keys_registered 24 128 sample_q_at sample_subtree_com_at
                   sample_sum unregistered_params).
  { unfold keys_registered, registered. cbn. intros H.
    apply Forall_cons_1 in H as [_ H]. apply Forall_cons_1 in H as [H _].
    repeat (apply elem_of_cons in H as [H|H]; [discriminate H|]).
    by apply elem_of_nil in H. }
  split; [exact Hn|].
  destruct (unregistered_key_raises 24 128 sample_q_at sample_subtree_com_at
              sample_sum unregistered_params sample_dt false Hn)
    as (reward_fn & -> & Hraise).
  exact (Hraise sample_before sample_action sample_after).
Defined.

Lemma breakdown_frame_witness :
  NoDup (dict_keys DEFAULT_REWARD_PARAMS)
  ∧ (λ out, out.2) <$>
      get_reward_fn 24 128 sample_q_at sample_subtree_com_at sample_sum
        DEFAULT_REWARD_PARAMS sample_dt true
        sample_before sample_action sample_after
    = breakdown_of_dispatched 24 128 sample_q_at sample_subtree_com_at
        sample_sum DEFAULT_REWARD_PARAMS sample_dt
        sample_before sample_action sample_after.
Proof.
  assert (Hk : NoDup (dict_keys DEFAULT_REWARD_PARAMS)).
  { cbn. repeat (apply NoDup_cons_2; [by vm_compute; intros H; repeat (apply elem_of_cons in H as [H|H]; [discriminate H|]); apply elem_of_nil in H|]).
    apply NoDup_nil_2. }
  split; [exact Hk|].
  exact (proj1 (proj2 (breakdown_frame 24 128 sample_q_at
                         sample_subtree_com_at sample_sum
                         DEFAULT_REWARD_PARAMS sample_dt
                         sample_before sample_action sample_after Hk))).
Defined.

Lemma healthy_reward_fn_range_witness :
  healthy_z_lower healthy_params = Some (float_of_ratio 24 128 1 1)
  ∧ healthy_z_upper healthy_params = Some (float_of_ratio 24 128 2 1)
  ∧ healthy_reward_fn 24 128 sample_q_at
      sample_before sample_action sample_after sample_dt healthy_params
    = Ok (float_of_ratio 24 128 5 1, SFone 24 128).
Proof.
  split; [reflexivity|]. split; [reflexivity|].
  exact (proj1 (healthy_reward_fn_range 24 128 sample_q_at
                  sample_before sample_action sample_after sample_dt
                  healthy_params _ _ eq_refl eq_refl)).
Defined.

(** C9 as stated fails on a NaN height: neither strict comparison fires,
    so the health value is 1.0, although
    [healthy_z_lower <= q[2] <= healthy_z_upper] is false. *)
Lemma healthy_nan_counterexample :
  sample_q_at sample_diverged 2 = S754_nan
  ∧ healthy_reward_fn 24 128 sample_q_at
      sample_diverged sample_action sample_diverged sample_dt healthy_params
    = Ok (float_of_ratio 24 128 5 1, SFone 24 128)
  ∧ between (sample_q_at sample_diverged 2)
      (float_of_ratio 24 128 1 1) (float_of_ratio 24 128 2 1) = false.
Proof. by vm_compute. Qed.

End RewardsFacts.

(** * The reward function over the object store *)

Module RewardsStoreFacts.
Import Rewards RewardsStore.

Section Facts.
Context (prec emax : Z).
Context {mjxState : Type}.
Context (q_at : mjxState → Z → spec_float).
Context (subtree_com_at : mjxState → Z → Z → spec_float).
Context (jp_sum : list spec_float → spec_float).

Local Abbreviation pure_loop :=
  (Rewards.reward_loop prec emax q_at subtree_com_at jp_sum).
Local Abbreviation pure_reward_fn :=
  (Rewards.get_reward_fn prec emax q_at subtree_com_at jp_sum).
Local Abbreviation reward_loop :=
  (reward_loop prec emax q_at subtree_com_at jp_sum).
Local Abbreviation get_reward_fn :=
  (get_reward_fn prec emax q_at subtree_com_at jp_sum).

Lemma dispatch_refines (h : heap) state action next_state dt s a s' key params :
  h !! state = Some (OState s) → h !! action = Some (OArray a) →
  h !! next_state = Some (OState s') →
  (lift (dict_get
           (reward_functions prec emax q_at subtree_com_at jp_sum) key)
   ≫= λ f, f state action next_state dt params) h
  = (Rewards.dispatched prec emax q_at subtree_com_at jp_sum
       dt s a s' (key, params), h).
Proof.
  intros Hs Ha Hs'.
  unfold Rewards.dispatched, dict_get, mbind, store_bind, lift. cbn.
  repeat case_decide; cbn; try done.
  - unfold forward_reward_fn, mbind, store_bind, get_state. by rewrite Hs, Hs'.
  - unfold healthy_reward_fn, Rewards.healthy_reward_fn, mbind, store_bind, lift.
    destruct (healthy_z_lower params); cbn; [|done].
    destruct (healthy_z_upper params); cbn; [|done].
    unfold get_state. by rewrite Hs.
  - unfold ctrl_cost_reward_fn, mbind, store_bind, get_array. by rewrite Ha.
Qed.

Lemma reward_loop_refines dt inc state action next_state s a s' items :
  ∀ (h : heap) reward is_healthy d,
    h !! state = Some (OState s) → h !! action = Some (OArray a) →
    h !! next_state = Some (OState s') →
    ∃ d',
      reward_loop dt inc state action next_state items reward is_healthy
        (length h) (h ++ [ODict d])
      = ((λ out, (out.1, length h)) <$>
           pure_loop dt inc s a s' items reward is_healthy d,
         h ++ [ODict d'])
      ∧ ∀ out, pure_loop dt inc s a s' items reward is_healthy d = Ok out →
               d' = out.2.
Proof.
  induction items as [|[key params] items IH];
    intros h reward is_healthy d Hs Ha Hs'.
  - exists d. split; [done|]. by intros out [= <-].
  - cbn [RewardsStore.reward_loop Rewards.reward_loop].
    pose proof (dispatch_refines (h ++ [ODict d]) state action next_state dt
                  s a s' key params) as Hd.
    specialize (Hd (lookup_app_l_Some _ _ _ _ Hs) (lookup_app_l_Some _ _ _ _ Ha)
                  (lookup_app_l_Some _ _ _ _ Hs')).
    unfold mbind at 1 2. unfold store_bind at 1 2.
    unfold mbind, store_bind in Hd. unfold Rewards.dispatched in Hd. cbn in Hd.
    unfold lift in *.
    destruct (dict_get (reward_functions prec emax q_at subtree_com_at jp_sum) key)
      as [f|e]; cbn in Hd |- *.
    + destruct (dict_get (Rewards.reward_functions prec emax q_at subtree_com_at jp_sum) key)
        as [f'|e']; cbn in Hd |- *.
      * rewrite Hd.
        destruct (f' s a s' dt params) as [[r hv]|e]; cbn.
        -- destruct inc.
           ++ unfold dict_setitem, mbind, store_bind, heap, loc in *.
              rewrite (list_lookup_middle h [] (ODict d) (length h) eq_refl).
              rewrite insert_app_r_alt, Nat.sub_diag by done. cbn.
              apply (IH h); done.
           ++ unfold mbind, store_bind, mret, store_ret. apply (IH h); done.
        -- exists d. by split.
      * rewrite Hd. exists d. by split.
    + destruct (dict_get (Rewards.reward_functions prec emax q_at subtree_com_at jp_sum) key)
        as [f'|e']; cbn in Hd |- *.
      * injection Hd as <-. exists d. by split.
      * injection Hd as ->. exists d. by split.
Qed.

Lemma get_reward_fn_refines (h : heap) reward_params state action next_state
    dt inc p s a s' :
  well_typed h reward_params state action next_state p s a s' →
  ∃ d',
    get_reward_fn reward_params dt inc state action next_state h
    = ((λ out, (out.1, length h)) <$> pure_reward_fn p dt inc s a s',
       h ++ [ODict d'])
    ∧ ∀ out, pure_reward_fn p dt inc s a s' = Ok out → d' = out.2.
Proof.
  intros (Hp & Hs & Ha & Hs').
  unfold RewardsStore.get_reward_fn, Rewards.get_reward_fn.
  unfold mbind, store_bind, new_dict, get_items.
  rewrite (lookup_app_l_Some _ _ _ _ Hp).
  apply reward_loop_refines; done.
Qed.

(** C6: on a store in which the references are a parameter dictionary, a
    state, an action array and a state, an application of the reward
    function changes no object of the store (it only allocates its
    breakdown dictionary), so [state], [action] and [next_state] are left
    as they were; it returns the value of the reward function on the
    referenced objects; and a second application, in the store the first
    one left, returns the same [(reward, is_healthy, breakdown)] triple. *)
Theorem reward_fn_deterministic_and_pure (h : heap)
    (reward_params state action next_state : loc)
    (dt : spec_float) (include_reward_breakdown : bool)
    (p : RewardParams) (s : mjxState) (a : list spec_float) (s' : mjxState)
    (Htyped : well_typed h reward_params state action next_state p s a s') :
  let reward_fn := get_reward_fn reward_params dt include_reward_breakdown in
  let first := reward_fn state action next_state h in
  let second := reward_fn state action next_state first.2 in
  (∃ d, first.2 = h ++ [ODict d])
  ∧ well_typed first.2 reward_params state action next_state p s a s'
  ∧ returned first
    = pure_reward_fn p dt include_reward_breakdown s a s'
  ∧ returned second = returned first.
Proof.
  assert (Hcall : ∀ h0 : heap,
    well_typed h0 reward_params state action next_state p s a s' →
    (∃ d, (get_reward_fn reward_params dt include_reward_breakdown
             state action next_state h0).2 = h0 ++ [ODict d])
    ∧ returned (get_reward_fn reward_params dt include_reward_breakdown
                  state action next_state h0)
      = pure_reward_fn p dt include_reward_breakdown s a s').
  { intros h0 Ht.
    destruct (get_reward_fn_refines h0 reward_params state action next_state
                dt include_reward_breakdown p s a s' Ht) as (d' & -> & Hd').
    split; [by exists d'|].
    unfold returned. cbn [fst snd].
    destruct (pure_reward_fn p dt include_reward_breakdown s a s')
      as [[[r ih] d]|e] eqn:Hpure; cbn; [|done].
    unfold heap, loc in *.
    rewrite (list_lookup_middle h0 [] (ODict d') (length h0) eq_refl).
    by rewrite (Hd' _ eq_refl). }
  intros reward_fn first second.
  destruct (Hcall h Htyped) as [[d Hd] Hret].
  assert (Htyped' :
    well_typed first.2 reward_params state action next_state p s a s').
  { subst first reward_fn. rewrite Hd.
    destruct Htyped as (Hp & Hs & Ha & Hs').
    by repeat split; apply lookup_app_l_Some. }
  split_and!; [by exists d|done|done|].
  destruct (Hcall first.2 Htyped') as [_ Hret'].
  subst second first reward_fn. by rewrite Hret', Hret.
Qed.

End Facts.

Lemma sample_heap_typed :
  well_typed sample_heap 0 1 2 3
    DEFAULT_REWARD_PARAMS sample_before sample_action sample_after.
Proof. by repeat split. Defined.

Lemma reward_fn_deterministic_and_pure_witness :
  well_typed sample_heap 0 1 2 3
    DEFAULT_REWARD_PARAMS sample_before sample_action sample_after
  ∧ let reward_fn :=
      get_reward_fn 24 128 sample_q_at sample_subtree_com_at sample_sum
        0 sample_dt true in
    let first := reward_fn 1 2 3 sample_heap in
    let second := reward_fn 1 2 3 first.2 in
    (∃ d, first.2 = sample_heap ++ [ODict d])
    ∧ well_typed first.2 0 1 2 3
        DEFAULT_REWARD_PARAMS sample_before sample_action sample_after
    ∧ returned first
      = Rewards.get_reward_fn 24 128 sample_q_at sample_subtree_com_at
          sample_sum DEFAULT_REWARD_PARAMS sample_dt true
          sample_before sample_action sample_after
    ∧ returned second = returned first.
Proof.
  split; [exact sample_heap_typed|].
  exact (reward_fn_deterministic_and_pure 24 128 sample_q_at
           sample_subtree_com_at sample_sum sample_heap 0 1 2 3 sample_dt true
           DEFAULT_REWARD_PARAMS sample_before sample_action sample_after
           sample_heap_typed).
Defined.

End RewardsStoreFacts.

(** * The MJCF script: what [adapt_world] leaves *)

Module MjcfFacts.
Import Mjcf.

(** ** Elements *)

Lemma element_induction (P : element → Prop) :
  (∀ i t a cs, Forall P cs → P (Element i t a cs)) → ∀ e, P e.
Proof.
  intros H. fix IH 1. intros [i t a cs]. apply H.
  induction cs as [|c cs IHcs]; constructor; [apply IH|apply IHcs].
Qed.

Lemma element_eta e : Element (eid e) (tag e) (attrib e) (children e) = e.
Proof. by destruct e. Qed.

Lemma distinct_siblings_unfold n e :
  distinct_siblings n e ↔
  eid e < n ∧ NoDup (eid <$> children e)
  ∧ Forall (distinct_siblings n) (children e).
Proof.
  destruct e as [i t a cs]. cbn [distinct_siblings eid children].
  assert (foldr (λ c acc, distinct_siblings n c ∧ acc) True cs
          ↔ Forall (distinct_siblings n) cs) as ->; [|done].
  induction cs as [|c cs IH]; cbn; [by split; [constructor|]|].
  rewrite Forall_cons. by rewrite IH.
Qed.

Lemma distinct_siblings_mono n m e :
  n ≤ m → distinct_siblings n e → distinct_siblings m e.
Proof.
  intros Hnm. induction e as [i t a cs IH] using element_induction.
  rewrite !distinct_siblings_unfold. cbn. intros (Hi & Hnd & Hcs).
  split_and!; [lia|done|].
  rewrite Forall_forall in IH, Hcs. apply Forall_forall. intros c Hc.
  by apply IH, Hcs.
Qed.

Lemma ids_unfold e : ids e = eid e :: mjoin (ids <$> children e).
Proof. by destruct e. Qed.

Lemma eid_in_ids e : eid e ∈ ids e.
Proof. rewrite ids_unfold. by left. Qed.

Lemma well_formed_distinct_siblings n e :
  well_formed n e → distinct_siblings n e.
Proof.
  unfold well_formed. induction e as [i t a cs IH] using element_induction.
  rewrite distinct_siblings_unfold. cbn [ids eid children].
  intros [Hnd Hlt]. apply NoDup_cons in Hnd as [_ Hnd].
  apply Forall_cons in Hlt as [Hi Hlt]. split_and!; [done| |].
  - clear IH Hlt. induction cs as [|c cs IHcs]; cbn; [constructor|].
    cbn in Hnd. apply NoDup_app in Hnd as (Hc & Hdisj & Hcs).
    constructor; [|by apply IHcs].
    intros Hin. apply list_elem_of_fmap in Hin as (c' & Heq & Hc').
    apply (Hdisj (eid c)); [apply eid_in_ids|].
    apply list_elem_of_join. exists (ids c'). split.
    + rewrite Heq. apply eid_in_ids.
    + apply list_elem_of_fmap. by exists c'.
  - rewrite Forall_forall in IH. apply Forall_forall. intros c Hc.
    apply IH; [done|]. split.
    + clear -Hnd Hc. induction cs as [|c' cs IHcs]; [by apply elem_of_nil in Hc|].
      cbn in Hnd. apply NoDup_app in Hnd as (Hc' & _ & Hcs).
      apply elem_of_cons in Hc as [->|Hc]; [done|by apply IHcs].
    + apply Forall_forall. intros j Hj. rewrite Forall_forall in Hlt.
      apply Hlt. apply list_elem_of_join. exists (ids c). split; [done|].
      apply list_elem_of_fmap. by exists c.
Qed.

(** ** Allocation *)

Lemma bind_Ok {A B} (m : M A) (f : A → M B) n r :
  (m ≫= f) n = Ok r ↔ ∃ a n1, m n = Ok (a, n1) ∧ f a n1 = Ok r.
Proof.
  unfold mbind, alloc_bind. destruct (m n) as [[a n1]|e]; split.
  - intros H. by exists a, n1.
  - by intros (a' & n1' & [= <- <-] & H).
  - done.
  - by intros (a' & n1' & [=] & _).
Qed.

Lemma relabel_unfold n i tg a cs :
  relabel n (Element i tg a cs)
  = (Element n tg a (relabel_all (S n) cs).1, (relabel_all (S n) cs).2).
Proof.
  cbn [relabel].
  assert (∀ m,
    (fix go (n : nat) (cs : list element) : list element * nat :=
       match cs with
       | [] => ([], n)
       | c :: cs =>
           let '(c', n1) := relabel n c in
           let '(cs', n2) := go n1 cs in
           (c' :: cs', n2)
       end) m cs = relabel_all m cs) as ->.
  { induction cs as [|c cs IH]; intros m; [done|].
    cbn [relabel_all]. destruct (relabel m c) as [c' n1]. by rewrite IH. }
  by destruct (relabel_all (S n) cs).
Qed.

Lemma relabel_eid n t : eid (relabel n t).1 = n.
Proof. destruct t. by rewrite relabel_unfold. Qed.

Lemma relabel_tag n t : tag (relabel n t).1 = tag t.
Proof. destruct t. by rewrite relabel_unfold. Qed.

Lemma relabel_attrib n t : attrib (relabel n t).1 = attrib t.
Proof. destruct t. by rewrite relabel_unfold. Qed.

Lemma relabel_children n t :
  children (relabel n t).1 = (relabel_all (S n) (children t)).1.
Proof. destruct t. by rewrite relabel_unfold. Qed.

Lemma relabel_all_cons n c cs :
  relabel_all n (c :: cs)
  = ((relabel n c).1 :: (relabel_all (relabel n c).2 cs).1,
     (relabel_all (relabel n c).2 cs).2).
Proof.
  cbn [relabel_all]. destruct (relabel n c) as [c' n1]. cbn.
  by destruct (relabel_all n1 cs).
Qed.

(** The identities of a new tree lie between the counter before and the
    counter after, and are pairwise distinct among siblings. *)
Lemma relabel_fresh t :
  ∀ n, n < (relabel n t).2
       ∧ distinct_siblings (relabel n t).2 (relabel n t).1.
Proof.
  induction t as [i tg a cs IH] using element_induction. intros n.
  rewrite relabel_unfold. cbn [fst snd].
  assert (∀ m,
    m ≤ (relabel_all m cs).2
    ∧ Forall (λ c, m ≤ eid c < (relabel_all m cs).2) (relabel_all m cs).1
    ∧ NoDup (eid <$> (relabel_all m cs).1)
    ∧ Forall (distinct_siblings (relabel_all m cs).2) (relabel_all m cs).1)
    as Hall.
  { induction cs as [|c cs IHcs]; intros m.
    - cbn. split_and!; [done|constructor|constructor|constructor].
    - apply Forall_cons in IH as [Hc Hcs]. rewrite relabel_all_cons.
      cbn [fst snd]. destruct (Hc m) as [Hlt Hds].
      destruct (IHcs Hcs (relabel m c).2) as (Hle & Hrange & Hnd & Hdss).
      split_and!.
      + lia.
      + constructor; [rewrite relabel_eid; lia|].
        eapply Forall_impl; [exact Hrange|]. cbn. intros; lia.
      + cbn. constructor; [|done]. rewrite relabel_eid.
        intros Hin. apply list_elem_of_fmap in Hin as (c' & Heq & Hc').
        rewrite Forall_forall in Hrange. specialize (Hrange c' Hc'). lia.
      + constructor; [|done].
        eapply distinct_siblings_mono; [|exact Hds]. lia. }
  destruct (Hall (S n)) as (Hle & Hrange & Hnd & Hdss).
  split; [lia|]. apply distinct_siblings_unfold. cbn.
  split_and!; [lia|done|done].
Qed.

Lemma relabel_lt n t : n < (relabel n t).2.
Proof. apply relabel_fresh. Qed.

Lemma relabel_childless n t :
  children t = [] → children (relabel n t).1 = [].
Proof. intros H. by rewrite relabel_children, H. Qed.

Lemma new_Ok t n r :
  new t n = Ok r ↔ r = ((relabel n t).1, (relabel n t).2).
Proof. unfold new. split; [by intros [= <-]|by intros ->]. Qed.

(** ** Edits through references *)

Lemma list_find_middle (k : nat) (pre : list element) c r :
  Forall (λ x, eid x ≠ k) pre → eid c = k →
  list_find (λ x, eid x = k) (pre ++ c :: r) = Some (length pre, c).
Proof.
  intros Hpre Hc. induction Hpre as [|x pre Hx _ IH]; cbn.
  - by rewrite decide_True.
  - rewrite decide_False by done. by rewrite IH.
Qed.

Lemma child_middle k i t a pre c r :
  Forall (λ x, eid x ≠ k) pre → eid c = k →
  child k (Element i t a (pre ++ c :: r)) = Ok c.
Proof. intros. unfold child. cbn. by rewrite list_find_middle. Qed.

Lemma index_middle k i t a pre c r :
  Forall (λ x, eid x ≠ k) pre → eid c = k →
  index k (Element i t a (pre ++ c :: r)) = Ok (length pre).
Proof. intros. unfold index. cbn. by rewrite list_find_middle. Qed.

Lemma fmap_unless (k : nat) (f : element → element) (l : list element) :
  Forall (λ x, eid x ≠ k) l →
  (λ x, if decide (eid x = k) then f x else x) <$> l = l.
Proof.
  induction 1 as [|x l Hx _ IH]; cbn; [done|].
  by rewrite decide_False, IH.
Qed.

Lemma at_child_middle k f i t a pre c r :
  Forall (λ x, eid x ≠ k) pre → eid c = k → Forall (λ x, eid x ≠ k) r →
  at_child k f (Element i t a (pre ++ c :: r))
  = Element i t a (pre ++ f c :: r).
Proof.
  intros Hpre Hc Hr. unfold at_child, with_children. cbn.
  rewrite fmap_app, fmap_cons, decide_True by done.
  by rewrite !fmap_unless.
Qed.

Lemma at_child_absent k f e :
  Forall (λ x, eid x ≠ k) (children e) → at_child k f e = e.
Proof.
  intros H. unfold at_child, with_children. rewrite fmap_unless by done.
  apply element_eta.
Qed.

Lemma insert_middle x i t a pre c r :
  insert (S (length pre)) x (Element i t a (pre ++ c :: r))
  = Element i t a (pre ++ c :: x :: r).
Proof.
  unfold insert, with_children. cbn. f_equal.
  rewrite (cons_middle c pre r), app_assoc.
  replace (S (length pre)) with (length (pre ++ [c]))
    by (rewrite length_app; cbn; lia).
  rewrite take_app_length, drop_app_length.
  by rewrite <- app_assoc.
Qed.

Lemma get_set k v e : get k (set k v e) = v.
Proof.
  unfold get, set, with_attrib. cbn. destruct e as [i t a cs]. cbn.
  induction a as [|[k' v'] a IH]; cbn.
  - by rewrite decide_True.
  - destruct (decide (k' = k)) as [->|Hne]; cbn.
    + by rewrite decide_True.
    + by rewrite decide_False.
Qed.

(** ** The visual geom logic at one body *)

Lemma add_visual_geom_middle i t a pre c r n :
  Forall (λ x, eid x ≠ eid c) pre → Forall (λ x, eid x ≠ eid c) r →
  add_visual_geom (Element i t a (pre ++ c :: r)) (eid c) n
  = Ok (Element i t a
          (pre ++ set "class" (Some "visualgeom") c
               :: Element n "geom"
                    (visual_copy_attrib (set "class" (Some "visualgeom") c))
                    []
               :: r),
        S n).
Proof.
  intros Hpre Hr. unfold add_visual_geom.
  rewrite at_child_middle by done.
  set (g := set "class" (Some "visualgeom") c).
  assert (Hg : eid g = eid c) by by destruct c.
  unfold mbind, alloc_bind, lift.
  rewrite child_middle, index_middle by done. cbn [new_element new relabel].
  replace (length pre + 1) with (S (length pre)) by lia.
  rewrite insert_middle. cbn [fst snd mret alloc_ret]. do 4 f_equal.
  unfold visual_copy_attrib, copied.
  destruct (truthy (get "pos" g)), (truthy (get "quat" g)); reflexivity.
Qed.

Lemma app_one {A} (l : list A) x r : l ++ x :: r = (l ++ [x]) ++ r.
Proof. by rewrite <- app_assoc. Qed.

Lemma app_two {A} (l : list A) x y r : l ++ x :: y :: r = (l ++ [x; y]) ++ r.
Proof. by rewrite <- app_assoc. Qed.

Lemma visual_loop i t a rest :
  ∀ pre n,
    NoDup (eid <$> rest) → Forall (λ x, eid x < n) rest →
    Forall (λ x, eid x ∉ eid <$> rest) pre →
    for_loop add_visual_geom (eid <$> filter (λ c, tag c = "geom") rest)
      (Element i t a (pre ++ rest)) n
    = Ok (Element i t a (pre ++ with_visual_geoms n rest),
          n + length (filter (λ c, tag c = "geom") rest)).
Proof.
  induction rest as [|c rest IH]; intros pre n Hnd Hlt Hpre.
  - cbn. by rewrite Nat.add_0_r.
  - apply NoDup_cons in Hnd as [Hc Hnd]. apply Forall_cons in Hlt as [Hcn Hlt].
    cbn [with_visual_geoms]. destruct (decide (tag c = "geom")) as [Hg|Hg].
    + rewrite filter_cons_True by done. cbn [fmap list_fmap for_loop].
      apply bind_Ok. eexists _, _. split.
      * apply add_visual_geom_middle.
        -- eapply Forall_impl; [exact Hpre|]. cbn. intros x Hx Heq.
           apply Hx. rewrite Heq. by left.
        -- apply Forall_forall. intros x Hx Heq. apply Hc.
           rewrite <- Heq. by apply list_elem_of_fmap_2.
      * rewrite app_two. rewrite IH.
        -- rewrite <- app_two. cbn. do 2 f_equal. lia.
        -- done.
        -- eapply Forall_impl; [exact Hlt|]. cbn. intros; lia.
        -- apply Forall_app. split.
           ++ eapply Forall_impl; [exact Hpre|]. cbn. intros x Hx Hin.
              apply Hx. by right.
           ++ repeat constructor.
              ** by destruct c.
              ** cbn. intros Hin. apply list_elem_of_fmap in Hin as (x & Hx & Hin).
                 rewrite Forall_forall in Hlt. specialize (Hlt x Hin). lia.
    + rewrite filter_cons_False by done.
      rewrite app_one. rewrite IH; [|done|done|].
      * by rewrite <- app_one.
      * apply Forall_app. split.
        -- eapply Forall_impl; [exact Hpre|]. cbn. intros x Hx Hin.
           apply Hx. by right.
        -- by repeat constructor.
Qed.

Lemma add_visual_geoms_spec i t a cs n :
  NoDup (eid <$> cs) → Forall (λ x, eid x < n) cs →
  add_visual_geoms (Element i t a cs) n
  = Ok (Element i t a (with_visual_geoms n cs),
        n + length (filter (λ c, tag c = "geom") cs)).
Proof.
  intros Hnd Hlt. unfold add_visual_geoms, findall. cbn [children].
  by apply (visual_loop i t a cs []).
Qed.

(** The shape of the children after the visual geom logic. *)
Lemma with_visual_geoms_elem n cs x :
  x ∈ with_visual_geoms n cs →
  (x ∈ cs ∧ tag x ≠ "geom")
  ∨ (∃ c, c ∈ cs ∧ tag c = "geom" ∧ x = set "class" (Some "visualgeom") c)
  ∨ (n ≤ eid x ∧ tag x = "geom" ∧ children x = []).
Proof.
  revert n. induction cs as [|c cs IH]; intros n; cbn.
  { by intros ?%elem_of_nil. }
  destruct (decide (tag c = "geom")) as [Hg|Hg].
  - rewrite !elem_of_cons. intros [->|[->|Hx]].
    + right; left. exists c. split_and!; [by left|done|done].
    + right; right. by cbn.
    + destruct (IH _ Hx) as [[Hin Ht]|[(c' & Hin & Ht & ->)|(Hle & Ht & Hc)]].
      * left. split; [by right|done].
      * right; left. exists c'. split_and!; [by right|done|done].
      * right; right. split_and!; [lia|done|done].
  - rewrite elem_of_cons. intros [->|Hx].
    + left. split; [by left|done].
    + destruct (IH _ Hx) as [[Hin Ht]|[(c' & Hin & Ht & ->)|(Hle & Ht & Hc)]].
      * left. split; [by right|done].
      * right; left. exists c'. split_and!; [by right|done|done].
      * by right; right.
Qed.

Lemma with_visual_geoms_at m i t a cs :
  ∀ n, m ≤ n → visual_geoms_at m (Element i t a (with_visual_geoms n cs)).
Proof.
  unfold visual_geoms_at. cbn [children].
  induction cs as [|c cs IH]; intros n Hmn before geom after Heq Hg Hlt.
  { cbn in Heq. by destruct before. }
  cbn [with_visual_geoms] in Heq.
  destruct (decide (tag c = "geom")) as [Hc|Hc].
  - destruct before as [|x before]; cbn in Heq.
    + injection Heq as <- <-. split; [apply get_set|].
      eexists _, _. split_and!; [done|cbn; lia|done|done|done].
    + injection Heq as <- Heq. destruct before as [|y before]; cbn in Heq.
      * injection Heq as <- <-. cbn in Hlt. lia.
      * injection Heq as <- Heq. apply (IH (S n)) with before; [lia|done..].
  - destruct before as [|x before]; cbn in Heq.
    + injection Heq as <- <-. done.
    + injection Heq as <- Heq. by apply (IH n) with before.
Qed.

(** ** The passes over the tree *)

Lemma for_each_new_unfold t f i tg a cs n :
  for_each_new t f (Element i tg a cs) n
  = (cs' ← in_turn (for_each_new t f) cs;
     if decide (tg = t) then f (Element i tg a cs')
     else mret (Element i tg a cs')) n.
Proof.
  cbn [for_each_new].
  assert (∀ m,
    (fix go (cs : list element) : M (list element) :=
       match cs with
       | [] => mret []
       | c :: cs =>
           c' ← for_each_new t f c; cs' ← go cs; mret (c' :: cs')
       end) cs m = in_turn (for_each_new t f) cs m) as Hgo.
  { induction cs as [|c cs IH]; intros m; [done|].
    cbn [in_turn]. unfold mbind, alloc_bind.
    destruct (for_each_new t f c m) as [[c' n1]|]; [|done]. by rewrite IH. }
  unfold mbind, alloc_bind. by rewrite Hgo.
Qed.

Lemma for_each_unfold t f i tg a cs :
  for_each t f (Element i tg a cs)
  = if decide (tg = t) then f (Element i tg a (for_each t f <$> cs))
    else Element i tg a (for_each t f <$> cs).
Proof. done. Qed.

Lemma descendants_unfold e :
  descendants e = children e ≫= λ c, c :: descendants c.
Proof. by destruct e. Qed.

Lemma elem_of_descendants x e :
  x ∈ descendants e ↔ ∃ c, c ∈ children e ∧ x ∈ c :: descendants c.
Proof.
  rewrite descendants_unfold, list_elem_of_bind. naive_solver.
Qed.

Lemma visual_geoms_in_unfold m e :
  visual_geoms_in m e ↔
  (tag e = "body" → visual_geoms_at m e)
  ∧ Forall (visual_geoms_in m) (children e).
Proof.
  unfold visual_geoms_in. split.
  - intros H. split; [intros Ht; apply H; [by left|done]|].
    apply Forall_forall. intros c Hc body Hb Ht. apply H; [|done].
    right. apply elem_of_descendants. by exists c.
  - intros [Hself Hcs] body Hb Ht.
    apply elem_of_cons in Hb as [->|Hb]; [by apply Hself|].
    apply elem_of_descendants in Hb as (c & Hc & Hb).
    rewrite Forall_forall in Hcs. by apply (Hcs c Hc).
Qed.

Lemma descendants_set k v e : descendants (set k v e) = descendants e.
Proof. by destruct e. Qed.

Lemma visual_geoms_in_set m k v c :
  tag c ≠ "body" → visual_geoms_in m c → visual_geoms_in m (set k v c).
Proof.
  intros Ht. rewrite !visual_geoms_in_unfold. intros [_ Hcs].
  split; [by destruct c|by destruct c].
Qed.

Lemma with_visual_geoms_fresh cs :
  ∀ n, NoDup (eid <$> cs) → Forall (λ x, eid x < n) cs →
       NoDup (eid <$> with_visual_geoms n cs)
       ∧ Forall (λ x, eid x < n + length (filter (λ c, tag c = "geom") cs))
           (with_visual_geoms n cs)
       ∧ ∀ j, j ∈ eid <$> with_visual_geoms n cs →
              j ∈ eid <$> cs ∨ n ≤ j.
Proof.
  induction cs as [|c cs IH]; intros n Hnd Hlt.
  { cbn. split_and!; [constructor|constructor|]. by intros j ?%elem_of_nil. }
  apply NoDup_cons in Hnd as [Hc Hnd]. apply Forall_cons in Hlt as [Hcn Hlt].
  cbn [with_visual_geoms]. destruct (decide (tag c = "geom")) as [Hg|Hg].
  - rewrite filter_cons_True by done.
    destruct (IH (S n) Hnd) as (Hnd' & Hlt' & Hin').
    { eapply Forall_impl; [exact Hlt|]. cbn. intros; lia. }
    assert (Hset : eid (set "class" (Some "visualgeom") c) = eid c)
      by by destruct c.
    split_and!.
    + cbn [fmap list_fmap]. rewrite Hset. cbn [eid].
      constructor; [|constructor; [|done]].
      * rewrite elem_of_cons. intros [Heq|Hin]; [lia|].
        destruct (Hin' _ Hin) as [Hin0|Hle]; [done|lia].
      * intros Hin. destruct (Hin' _ Hin) as [Hin0|Hle]; [|lia].
        apply list_elem_of_fmap in Hin0 as (x & Hx & Hin0).
        rewrite Forall_forall in Hlt. specialize (Hlt x Hin0). lia.
    + cbn [length]. constructor; [rewrite Hset; lia|].
      constructor; [cbn; lia|].
      eapply Forall_impl; [exact Hlt'|]. cbn. intros; lia.
    + intros j. cbn [fmap list_fmap]. rewrite Hset. cbn [eid].
      rewrite !elem_of_cons. intros [->|[->|Hin]].
      * left. by left.
      * by right.
      * destruct (Hin' _ Hin) as [Hin0|Hle]; [left; by right|right; lia].
  - rewrite filter_cons_False by done.
    destruct (IH n Hnd Hlt) as (Hnd' & Hlt' & Hin').
    split_and!.
    + cbn. constructor; [|done]. intros Hin.
      destruct (Hin' _ Hin) as [Hin0|Hle]; [done|lia].
    + constructor; [lia|done].
    + intros j. cbn. rewrite !elem_of_cons. intros [->|Hin].
      * left. by left.
      * destruct (Hin' _ Hin) as [Hin0|Hle]; [left; by right|by right].
Qed.

Lemma distinct_siblings_set n k v c :
  distinct_siblings n c → distinct_siblings n (set k v c).
Proof. rewrite !distinct_siblings_unfold. by destruct c. Qed.

(** The visual geom logic below one element: it returns, it keeps the
    element's identity, tag and attributes, and every body in the result
    has its geoms paired. *)
Lemma visual_pass m e :
  ∀ n, m ≤ n → distinct_siblings n e →
       ∃ e' n',
         for_each_new "body" add_visual_geoms e n = Ok (e', n')
         ∧ n ≤ n' ∧ eid e' = eid e ∧ tag e' = tag e ∧ attrib e' = attrib e
         ∧ distinct_siblings n' e' ∧ visual_geoms_in m e'.
Proof.
  induction e as [i t a cs IH] using element_induction.
  intros n Hmn. rewrite distinct_siblings_unfold. cbn [eid children].
  intros (Hi & Hnd & Hds).
  assert (∃ cs' n1,
    in_turn (for_each_new "body" add_visual_geoms) cs n = Ok (cs', n1)
    ∧ n ≤ n1 ∧ eid <$> cs' = eid <$> cs
    ∧ Forall (distinct_siblings n1) cs'
    ∧ Forall (visual_geoms_in m) cs') as (cs' & n1 & Hrun & Hn1 & Hids & Hds' & Hvis).
  { clear Hnd Hi. revert n Hmn Hds.
    induction cs as [|c cs IHcs]; intros n Hmn Hds.
    - exists [], n. by split_and!; [done|done|done|constructor|constructor].
    - apply Forall_cons in IH as [Hc IHall].
      apply Forall_cons in Hds as [Hdc Hds].
      destruct (Hc n Hmn Hdc) as (c' & n1 & Hrun & Hle & Hid & _ & _ & Hdc' & Hv).
      destruct (IHcs IHall n1) as (cs' & n2 & Hrun' & Hle' & Hids & Hds' & Hvs).
      { lia. }
      { eapply Forall_impl; [exact Hds|]. cbn. intros x.
        apply distinct_siblings_mono. lia. }
      exists (c' :: cs'), n2. split_and!.
      + cbn [in_turn]. apply bind_Ok. eexists _, _. split; [exact Hrun|].
        apply bind_Ok. eexists _, _. split; [exact Hrun'|done].
      + lia.
      + cbn. by rewrite Hid, Hids.
      + constructor; [|done]. eapply distinct_siblings_mono; [|exact Hdc']. lia.
      + by constructor. }
  assert (Hlt : Forall (λ x, eid x < n1) cs').
  { eapply Forall_impl; [exact Hds'|]. cbn. intros x.
    rewrite distinct_siblings_unfold. tauto. }
  rewrite for_each_new_unfold.
  destruct (decide (t = "body")) as [->|Ht].
  - destruct (with_visual_geoms_fresh cs' n1) as (Hnd' & Hlt' & Hin');
      [by rewrite Hids|done|].
    eexists _, _. split_and!.
    + apply bind_Ok. eexists _, _. split; [exact Hrun|].
      apply add_visual_geoms_spec; [|done].
      by rewrite Hids.
    + lia.
    + done.
    + done.
    + done.
    + apply distinct_siblings_unfold. cbn [eid children].
      split_and!; [lia|done|].
      apply Forall_forall. intros x Hin.
      destruct (with_visual_geoms_elem _ _ _ Hin)
        as [[Hx _]|[(c & Hc & _ & ->)|(Hle & Htx & Hcx)]].
      * rewrite Forall_forall in Hds'.
        eapply distinct_siblings_mono; [|by apply Hds']. lia.
      * apply distinct_siblings_set. rewrite Forall_forall in Hds'.
        eapply distinct_siblings_mono; [|by apply Hds']. lia.
      * apply distinct_siblings_unfold. rewrite Hcx.
        split_and!; [|constructor|constructor].
        rewrite Forall_forall in Hlt'. by apply Hlt'.
    + apply visual_geoms_in_unfold. cbn [tag children]. split.
      * intros _. apply with_visual_geoms_at. lia.
      * apply Forall_forall. intros x Hx.
        apply with_visual_geoms_elem in Hx
          as [[Hx _]|[(c & Hc & Htc & ->)|(Hle & Htx & Hcx)]].
        -- rewrite Forall_forall in Hvis. by apply Hvis.
        -- apply visual_geoms_in_set; [by rewrite Htc|].
           rewrite Forall_forall in Hvis. by apply Hvis.
        -- apply visual_geoms_in_unfold. rewrite Hcx, Htx.
           split; [intros [=]|constructor].
  - exists (Element i t a cs'), n1. split_and!.
    + apply bind_Ok. eexists _, _. by split; [exact Hrun|].
    + done.
    + done.
    + done.
    + done.
    + apply distinct_siblings_unfold. cbn [eid children].
      split_and!; [lia|by rewrite Hids|done].
    + apply visual_geoms_in_unfold. cbn [tag children]. by split.
Qed.

Section Edits.
Context (str_float : float → string).

(** *** [remove_frc_range] *)

Lemma drop_frc_range_same c :
  eid (drop_frc_range c) = eid c ∧ tag (drop_frc_range c) = tag c
  ∧ children (drop_frc_range c) = children c.
Proof. unfold drop_frc_range. by destruct (has_key _ c), c. Qed.

Lemma remove_frc_loop i t a rest :
  ∀ pre,
    NoDup (eid <$> rest) → Forall (λ x, eid x ∉ eid <$> rest) pre →
    foldl (λ body join, at_child join drop_frc_range body)
      (Element i t a (pre ++ rest))
      (eid <$> filter (λ c, tag c = "joint") rest)
    = Element i t a
        (pre ++ ((λ c, if decide (tag c = "joint") then drop_frc_range c
                       else c) <$> rest)).
Proof.
  induction rest as [|c rest IH]; intros pre Hnd Hpre; [done|].
  apply NoDup_cons in Hnd as [Hc Hnd]. cbn [fmap list_fmap].
  assert (Hpre' : ∀ x, Forall (λ y, eid y ∉ eid <$> rest) (pre ++ [x])
                       ↔ eid x ∉ eid <$> rest).
  { intros x. rewrite Forall_app, Forall_singleton. split; [tauto|].
    intros Hx. split; [|done]. eapply Forall_impl; [exact Hpre|].
    cbn. intros y Hy Hin. apply Hy. by right. }
  destruct (decide (tag c = "joint")) as [Hj|Hj].
  - rewrite filter_cons_True by done. cbn [fmap list_fmap foldl].
    rewrite at_child_middle; [| |done|].
    + rewrite app_one, IH; [by rewrite <- app_one|done|].
      apply Hpre'. by rewrite (proj1 (drop_frc_range_same c)).
    + eapply Forall_impl; [exact Hpre|]. cbn. intros x Hx Heq.
      apply Hx. rewrite Heq. by left.
    + apply Forall_forall. intros x Hx Heq. apply Hc. rewrite <- Heq.
      by apply list_elem_of_fmap_2.
  - rewrite filter_cons_False by done.
    rewrite app_one, IH; [by rewrite <- app_one|done|]. by apply Hpre'.
Qed.

Lemma remove_frc_ranges_spec i t a cs :
  NoDup (eid <$> cs) →
  remove_frc_ranges (Element i t a cs)
  = Element i t a
      ((λ c, if decide (tag c = "joint") then drop_frc_range c else c)
       <$> cs).
Proof.
  intros Hnd. unfold remove_frc_ranges, findall. cbn [children].
  by apply (remove_frc_loop i t a cs []).
Qed.

(** *** Attributes only *)

Lemma visual_copy_attrib_ext c c' :
  attrib c = attrib c' → visual_copy_attrib c = visual_copy_attrib c'.
Proof.
  intros H. unfold visual_copy_attrib, copied, get. by rewrite H.
Qed.

Lemma get_ext k c c' : attrib c = attrib c' → get k c = get k c'.
Proof. intros H. unfold get. by rewrite H. Qed.

End Edits.

(** ** References to children *)

Lemma same_child (cs : list element) x y :
  NoDup (eid <$> cs) → x ∈ cs → y ∈ cs → eid x = eid y → x = y.
Proof.
  induction cs as [|c cs IH]; cbn; [by intros _ ?%elem_of_nil|].
  rewrite NoDup_cons. intros [Hc Hnd] Hx Hy Heq.
  apply elem_of_cons in Hx as [->|Hx], Hy as [->|Hy]; [done| | |by apply IH].
  - destruct Hc. rewrite Heq. by apply list_elem_of_fmap_2.
  - destruct Hc. rewrite <- Heq. by apply list_elem_of_fmap_2.
Qed.

Lemma child_head i e :
  child i e
  = match head (filter (λ x, eid x = i) (children e)) with
    | Some c => Ok c
    | None => Raise ValueError
    end.
Proof.
  unfold child. destruct e as [j t a cs]. cbn [children].
  induction cs as [|c cs IH]; [done|].
  rewrite filter_cons. cbn [list_find].
  destruct (decide (eid c = i)) as [Hc|Hc]; [done|].
  rewrite <- IH. by destruct (list_find _ cs) as [[??]|].
Qed.

Lemma child_Ok_elem i e c : child i e = Ok c → c ∈ children e ∧ eid c = i.
Proof.
  rewrite child_head.
  destruct (head _) as [c'|] eqn:Hh; [|done]. intros [= <-].
  apply head_Some_elem_of in Hh.
  by apply list_elem_of_filter in Hh as [??].
Qed.

Lemma child_elem e c :
  NoDup (eid <$> children e) → c ∈ children e → child (eid c) e = Ok c.
Proof.
  intros Hnd Hc. apply list_elem_of_split in Hc as (pre & post & Heq).
  destruct e as [i t a cs]. cbn in *. subst cs. apply child_middle; [|done].
  rewrite fmap_app, fmap_cons in Hnd.
  apply NoDup_app in Hnd as (_ & Hdisj & _).
  apply Forall_forall. intros x Hx Heq. apply (Hdisj (eid x)).
  - by apply list_elem_of_fmap_2.
  - rewrite Heq. by left.
Qed.

Lemma find_elem t e w : find t e = Some w → w ∈ children e ∧ tag w = t.
Proof.
  unfold find, findall. intros Hh. apply head_Some_elem_of in Hh.
  by apply list_elem_of_filter in Hh as [??].
Qed.

Lemma child_find t e w :
  NoDup (eid <$> children e) → find t e = Some w → child (eid w) e = Ok w.
Proof. intros Hnd [Hw _]%find_elem. by apply child_elem. Qed.

Lemma child_fmap i (g : element → element) e :
  (∀ c, eid (g c) = eid c) →
  child i (with_children (g <$> children e) e) = g <$> child i e.
Proof.
  intros Hg. rewrite !child_head. destruct e as [j t a cs]. cbn.
  induction cs as [|c cs IH]; [done|].
  rewrite fmap_cons, !filter_cons, Hg.
  destruct (decide (eid c = i)) as [Hc|Hc]; [done|]. apply IH.
Qed.

Lemma child_at_child_same i f e :
  (∀ c, eid (f c) = eid c) → child i (at_child i f e) = f <$> child i e.
Proof.
  intros Hf. unfold at_child. rewrite child_fmap.
  - destruct (child i e) as [c|] eqn:Hc; [|done]. cbn.
    apply child_Ok_elem in Hc as [_ Hc]. by rewrite decide_True.
  - intros c. by destruct (decide _).
Qed.

Lemma child_at_child_other i j f e :
  (∀ c, eid (f c) = eid c) → i ≠ j → child i (at_child j f e) = child i e.
Proof.
  intros Hf Hij. unfold at_child. rewrite child_fmap.
  - destruct (child i e) as [c|] eqn:Hc; [|done]. cbn.
    apply child_Ok_elem in Hc as [_ Hc]. rewrite decide_False; [done|lia].
  - intros c. by destruct (decide _).
Qed.

Lemma child_append i x e c :
  child i e = Ok c → child i (append x e) = Ok c.
Proof.
  rewrite !child_head. unfold append, with_children. cbn.
  rewrite filter_app. by destruct (filter _ (children e)).
Qed.

Lemma child_append_new x e :
  Forall (λ c, eid c ≠ eid x) (children e) → child (eid x) (append x e) = Ok x.
Proof.
  intros H. destruct e as [i t a cs]. unfold append, with_children. cbn.
  apply child_middle; done.
Qed.

Lemma child_insert i j x e :
  eid x ≠ i → child i (insert j x e) = child i e.
Proof.
  intros Hx. rewrite !child_head. unfold insert, with_children. cbn.
  rewrite filter_app, filter_cons_False by done.
  by rewrite <- filter_app, take_drop.
Qed.

(** ** Distinct siblings under the edits *)

Lemma distinct_siblings_children n e c :
  distinct_siblings n e → c ∈ children e → distinct_siblings n c.
Proof.
  rewrite distinct_siblings_unfold. intros (_ & _ & H) Hc.
  rewrite Forall_forall in H. by apply H.
Qed.

Lemma distinct_siblings_lt n e : distinct_siblings n e → eid e < n.
Proof. rewrite distinct_siblings_unfold. tauto. Qed.

Lemma distinct_siblings_with_attrib n a e :
  distinct_siblings n e → distinct_siblings n (with_attrib a e).
Proof. rewrite !distinct_siblings_unfold. by destruct e. Qed.

Lemma distinct_siblings_extend k n xs e :
  distinct_siblings k e → k ≤ n → NoDup (eid <$> xs) →
  Forall (λ x, k ≤ eid x ∧ distinct_siblings n x) xs →
  distinct_siblings n (extend xs e).
Proof.
  rewrite !distinct_siblings_unfold. intros (Hi & Hnd & Hcs) Hkn Hxs Hall.
  unfold extend, with_children. cbn [eid children].
  split_and!; [lia| |].
  - rewrite fmap_app. apply NoDup_app. split_and!; [done| |done].
    intros j Hj Hj'. apply list_elem_of_fmap in Hj as (c & -> & Hc).
    apply list_elem_of_fmap in Hj' as (x & Hx & Hin).
    rewrite Forall_forall in Hcs, Hall.
    specialize (Hcs c Hc). apply distinct_siblings_lt in Hcs.
    destruct (Hall x Hin). lia.
  - apply Forall_app. split.
    + eapply Forall_impl; [exact Hcs|]. cbn. intros c.
      by apply distinct_siblings_mono.
    + eapply Forall_impl; [exact Hall|]. cbn. tauto.
Qed.

Lemma distinct_siblings_append k n x e :
  distinct_siblings k e → k ≤ n → k ≤ eid x → distinct_siblings n x →
  distinct_siblings n (append x e).
Proof.
  intros. apply (distinct_siblings_extend k n [x] e); [done|done| |].
  - repeat constructor. by intros ?%elem_of_nil.
  - by repeat constructor.
Qed.

Lemma distinct_siblings_insert k n j x e :
  distinct_siblings k e → k ≤ n → k ≤ eid x → distinct_siblings n x →
  distinct_siblings n (insert j x e).
Proof.
  intros He Hkn Hx Hdx.
  pose proof (distinct_siblings_append k n x e He Hkn Hx Hdx) as Ha.
  rewrite distinct_siblings_unfold in Ha |- *.
  unfold append, insert, with_children in *. cbn [eid children] in *.
  destruct Ha as (Hi & Hnd & Hcs). split_and!; [done| |].
  - eapply NoDup_Permutation_proper; [|exact Hnd]. apply fmap_Permutation.
    rewrite <- (take_drop j (children e)) at 3.
    rewrite <- app_assoc. apply Permutation_app_head.
    apply Permutation_cons_append.
  - apply Forall_app in Hcs as [Hcs Hx'].
    rewrite <- (take_drop j (children e)) in Hcs.
    apply Forall_app in Hcs as [Ht Hd].
    apply Forall_app. split; [done|].
    apply Forall_cons. split; [|done]. by apply Forall_singleton in Hx'.
Qed.

Lemma distinct_siblings_at_child k n j f e :
  distinct_siblings k e → k ≤ n →
  (∀ c, c ∈ children e → eid c = j →
        eid (f c) = eid c ∧ distinct_siblings n (f c)) →
  distinct_siblings n (at_child j f e).
Proof.
  rewrite !distinct_siblings_unfold. intros (Hi & Hnd & Hcs) Hkn Hf.
  unfold at_child, with_children. cbn [eid children].
  split_and!; [lia| |].
  - rewrite <- list_fmap_compose.
    erewrite (list_fmap_ext _ eid); [done|].
    intros ? c Hc. cbn. destruct (decide _); [|done].
    apply Hf; [by eapply list_elem_of_lookup_2|done].
  - apply Forall_fmap, Forall_forall. intros c Hc. cbn.
    destruct (decide _); [by apply Hf|].
    rewrite Forall_forall in Hcs.
    eapply distinct_siblings_mono; [|by apply Hcs]. done.
Qed.

Lemma new_spec t k x k' :
  new t k = Ok (x, k') →
  x = (relabel k t).1 ∧ k' = (relabel k t).2 ∧ k < k' ∧ eid x = k
  ∧ tag x = tag t ∧ attrib x = attrib t ∧ distinct_siblings k' x.
Proof.
  intros [= <- <-]. destruct (relabel_fresh t k) as [Hlt Hds].
  by rewrite relabel_eid, relabel_tag, relabel_attrib.
Qed.

Lemma new_element_spec tg a k x k' :
  new_element tg a k = Ok (x, k') → x = Element k tg a [] ∧ k' = S k.
Proof. by intros [= <- <-]. Qed.

Lemma not_none_spec {A} e (o : option A) k x k' :
  not_none e o k = Ok (x, k') → o = Some x ∧ k' = k.
Proof. unfold not_none, lift. destruct o; [by intros [= <- <-]|done]. Qed.

Lemma mret_spec {A} (x y : A) k k' :
  (mret x : M A) k = Ok (y, k') → y = x ∧ k' = k.
Proof. by intros [= <- <-]. Qed.

Lemma distinct_siblings_leaf n i tg a :
  i < n → distinct_siblings n (Element i tg a []).
Proof. intros. apply distinct_siblings_unfold. cbn. by split_and!; [|constructor|constructor]. Qed.

Lemma distinct_siblings_NoDup n e :
  distinct_siblings n e → NoDup (eid <$> children e).
Proof. rewrite distinct_siblings_unfold. tauto. Qed.

Lemma eid_append x e : eid (append x e) = eid e.
Proof. by destruct e. Qed.
Lemma eid_insert j x e : eid (insert j x e) = eid e.
Proof. by destruct e. Qed.
Lemma eid_extend xs e : eid (extend xs e) = eid e.
Proof. by destruct e. Qed.
Lemma eid_with_attrib a e : eid (with_attrib a e) = eid e.
Proof. by destruct e. Qed.
Lemma tag_append x e : tag (append x e) = tag e.
Proof. by destruct e. Qed.
Lemma tag_insert j x e : tag (insert j x e) = tag e.
Proof. by destruct e. Qed.
Lemma tag_extend xs e : tag (extend xs e) = tag e.
Proof. by destruct e. Qed.
Lemma tag_with_attrib a e : tag (with_attrib a e) = tag e.
Proof. by destruct e. Qed.

Lemma find_at_child t j f e :
  NoDup (eid <$> children e) →
  (∀ c, c ∈ children e → eid c = j → tag c ≠ t) →
  (∀ c, tag (f c) = tag c) →
  find t (at_child j f e) = find t e.
Proof.
  intros _ Hj Hf. unfold find, findall, at_child, with_children.
  cbn [children]. f_equal.
  induction (children e) as [|c cs IH]; [done|].
  rewrite fmap_cons, !filter_cons.
  rewrite IH by (intros; apply Hj; [by right|done]).
  destruct (decide (eid c = j)) as [Hc|Hc]; [|done].
  rewrite Hf. rewrite !decide_False; [done|..]; by apply Hj; [left|].
Qed.

Lemma at_child_compose j f g e :
  (∀ c, eid c = j → eid (g c) = j) →
  at_child j f (at_child j g e) = at_child j (λ c, f (g c)) e.
Proof.
  intros Hg. unfold at_child, with_children. cbn [eid tag attrib children].
  f_equal. rewrite <- list_fmap_compose. apply list_fmap_ext.
  intros ? c ?. cbn. destruct (decide (eid c = j)) as [Hc|Hc].
  - by rewrite decide_True by (by apply Hg).
  - by rewrite decide_False.
Qed.

(** A reference to a child with another tag is a reference to another
    child. *)
Lemma other_tag_other_child (cs : list element) x y :
  NoDup (eid <$> cs) → x ∈ cs → y ∈ cs → tag x ≠ tag y → eid x ≠ eid y.
Proof.
  intros Hnd Hx Hy Ht Heq. apply Ht. by rewrite (same_child cs x y).
Qed.

Section Build.
Context (to_xml : pyval → element).
Context (to_xml_into : pyval → dict (option string) → dict (option string)).

Lemma add_floor_assets_spec root k root' k' :
  distinct_siblings k root →
  add_floor_assets root k = Ok (root', k') →
  k ≤ k' ∧ distinct_siblings k' root'
  ∧ find "worldbody" root' = find "worldbody" root.
Proof.
  intros Hds H. unfold add_floor_assets in H.
  apply bind_Ok in H as (asset & k0 & [Ha ->]%not_none_spec & H).
  apply bind_Ok in H as (x1 & k1 & [-> ->]%new_element_spec & H).
  apply bind_Ok in H as (x2 & k2 & [-> ->]%new_element_spec & H).
  apply bind_Ok in H as (x3 & k3 & [-> ->]%new_element_spec & H).
  apply mret_spec in H as [-> ->].
  apply find_elem in Ha as [Hin Hta].
  rewrite !at_child_compose by (intros; by rewrite eid_append).
  pose proof (distinct_siblings_NoDup _ _ Hds) as Hnd.
  split_and!; [lia| |].
  - apply (distinct_siblings_at_child k); [done|lia|].
    intros c Hc _. rewrite !eid_append. split; [done|].
    apply (distinct_siblings_append (S (S k))); [|lia|cbn; lia|apply distinct_siblings_leaf; lia].
    apply (distinct_siblings_append (S k)); [|lia|cbn; lia|apply distinct_siblings_leaf; lia].
    apply (distinct_siblings_append k); [|lia|cbn; lia|apply distinct_siblings_leaf; lia].
    by eapply distinct_siblings_children.
  - apply find_at_child; [done| |].
    + intros c Hc Heq. rewrite (same_child (children root) c asset) by done.
      by rewrite Hta.
    + intros c. by rewrite !tag_append.
Qed.

Lemma adapt_compiler_spec self root k :
  distinct_siblings k root →
  distinct_siblings k (adapt_compiler to_xml_into self root)
  ∧ find "worldbody" (adapt_compiler to_xml_into self root)
    = find "worldbody" root.
Proof.
  intros Hds. unfold adapt_compiler.
  destruct (compiler self) as [c|]; [|done].
  destruct (find "compiler" root) as [el|] eqn:Hel; [|done].
  apply find_elem in Hel as [Hin Ht].
  pose proof (distinct_siblings_NoDup _ _ Hds) as Hnd. split.
  - apply (distinct_siblings_at_child k); [done|lia|].
    intros x Hx _. split; [apply eid_with_attrib|].
    apply distinct_siblings_with_attrib.
    by eapply distinct_siblings_children.
  - apply find_at_child; [done| |].
    + intros x Hx Heq. rewrite (same_child (children root) x el) by done.
      by rewrite Ht.
    + intros x. apply tag_with_attrib.
Qed.

Lemma created_from_mono n k t x :
  n ≤ k → created_from k t x → created_from n t x.
Proof. intros Hnk (j & Hj & ->). exists j. split; [lia|done]. Qed.

Lemma created_from_same n t x :
  created_from n t x →
  n ≤ eid x ∧ tag x = tag t ∧ attrib x = attrib t.
Proof.
  intros (j & Hj & ->).
  by rewrite relabel_eid, relabel_tag, relabel_attrib.
Qed.

Lemma in_turn_new_spec ts :
  ∀ k xs k',
    in_turn new ts k = Ok (xs, k') →
    k ≤ k' ∧ Forall2 (λ t x, created_from k t x) ts xs
    ∧ NoDup (eid <$> xs)
    ∧ Forall (λ x, k ≤ eid x ∧ distinct_siblings k' x) xs.
Proof.
  induction ts as [|t ts IH]; intros k xs k' H.
  - apply mret_spec in H as [-> ->].
    split_and!; [done|constructor|constructor|constructor].
  - cbn [in_turn] in H.
    apply bind_Ok in H as (x & k1 & Hx & H).
    apply new_spec in Hx as (Hx & Hk1 & Hlt & Hid & Htag & Hat & Hds).
    apply bind_Ok in H as (xs' & k2 & Hxs & H).
    apply mret_spec in H as [-> ->].
    destruct (IH _ _ _ Hxs) as (Hle & Hall & Hnd & Hfa).
    split_and!.
    + lia.
    + constructor; [exists k; by split|].
      eapply Forall2_impl; [exact Hall|]. cbn. intros t' x'.
      apply created_from_mono. lia.
    + cbn. constructor; [|done]. intros Hin.
      apply list_elem_of_fmap in Hin as (y & Hy & Hin).
      rewrite Forall_forall in Hfa. destruct (Hfa y Hin). lia.
    + constructor.
      * split; [lia|]. eapply distinct_siblings_mono; [|exact Hds]. lia.
      * eapply Forall_impl; [exact Hfa|]. cbn. intros y [??].
        split; [lia|done].
Qed.

Lemma make_root_body_spec k B k' :
  make_root_body to_xml k = Ok (B, k') →
  k < k' ∧ eid B = k ∧ tag B = tag (to_xml root_body)
  ∧ attrib B = attrib (to_xml root_body) ∧ distinct_siblings k' B
  ∧ ∃ parts,
      children B = children (relabel k (to_xml root_body)).1 ++ parts
      ∧ Forall2 (λ v x, created_from k (to_xml v) x)
          (root_joints ++ [imu_site]) parts.
Proof.
  intros H. unfold make_root_body in H.
  apply bind_Ok in H as (B0 & k1 & HB0 & H).
  apply new_spec in HB0 as (HB0 & Hk1 & Hlt1 & Hid & Htag & Hat & Hds0).
  apply bind_Ok in H as (js & k2 & Hjs & H).
  apply in_turn_new_spec in Hjs as (Hle2 & Hjs & Hnd & Hall).
  apply bind_Ok in H as (s & k3 & Hs & H).
  apply new_spec in Hs as (Hs & Hk3 & Hlt3 & Hids & _ & _ & Hdss).
  apply mret_spec in H as [-> ->].
  rewrite eid_append, eid_extend, tag_append, tag_extend.
  split_and!; [lia|done|done|by destruct B0| |].
  - apply (distinct_siblings_append k2); [|lia|lia|done].
    apply (distinct_siblings_extend k1); [done|done|done|].
    eapply Forall_impl; [exact Hall|]. cbn. tauto.
  - exists (js ++ [s]). split.
    + rewrite <- HB0. destruct B0. cbn. by rewrite <- app_assoc.
    + apply Forall2_app.
      * rewrite Forall2_fmap_l in Hjs.
        eapply Forall2_impl; [exact Hjs|]. cbn. intros v x.
        apply created_from_mono. lia.
      * constructor; [|constructor]. exists k2. split; [lia|done].
Qed.

Lemma insert_front x e : insert 0 x e = with_children (x :: children e) e.
Proof. unfold insert. cbn. by rewrite drop_0. Qed.

Lemma add_scene_spec af wid B root w k kc root' k' :
  distinct_siblings k root → k ≤ kc → child wid root = Ok w →
  k ≤ eid B → distinct_siblings kc B →
  add_scene to_xml af wid B root kc = Ok (root', k') →
  kc ≤ k' ∧ distinct_siblings k' root'
  ∧ (∀ i, i ≠ wid → child i root' = child i root)
  ∧ ∃ floor l4 l5,
      created_from kc (to_xml light_high) l5
      ∧ created_from kc (to_xml light_low) l4
      ∧ Forall2 (λ v x, created_from kc (to_xml v) x)
          (if af then [ground] else []) floor
      ∧ child wid root'
        = Ok (with_children (floor ++ [l4; l5] ++ children w ++ [B]) w).
Proof.
  intros Hds Hk Hw HB HdB H. unfold add_scene in H.
  apply bind_Ok in H as (l5 & k5 & H5 & H).
  apply new_spec in H5 as (H5 & Hk5 & Hlt5 & Hid5 & _ & _ & Hds5).
  apply bind_Ok in H as (l4 & k4 & H4 & H).
  apply new_spec in H4 as (H4 & Hk4 & Hlt4 & Hid4 & _ & _ & Hds4).
  rewrite !at_child_compose in H
    by (intros; by rewrite ?eid_insert, ?eid_append).
  assert (Hw' : ∀ c, c ∈ children root → distinct_siblings k c)
    by (intros; by eapply distinct_siblings_children).
  assert (Hcore : ∀ c, c ∈ children root →
    distinct_siblings k4 (insert 0 l4 (insert 0 l5 (append B c)))).
  { intros c Hc.
    apply (distinct_siblings_insert k5); [|lia|lia|done].
    apply (distinct_siblings_insert kc); [|lia|lia|done].
    apply (distinct_siblings_append k); [by apply Hw'|lia|lia|done]. }
  destruct af.
  - apply bind_Ok in H as (fl & kf & Hf & H).
    apply new_spec in Hf as (Hf & Hkf & Hltf & Hidf & _ & _ & Hdsf).
    apply mret_spec in H as [-> ->].
    rewrite !at_child_compose
      by (intros; by rewrite ?eid_insert, ?eid_append).
    split_and!; [lia| | |].
    + apply (distinct_siblings_at_child k); [done|lia|].
      intros c Hc _. rewrite !eid_insert, eid_append. split; [done|].
      apply (distinct_siblings_insert k4); [by apply Hcore|lia|lia|done].
    + intros i Hi. apply child_at_child_other; [|done].
      intros c. by rewrite !eid_insert, eid_append.
    + exists [fl], l4, l5. split_and!.
      * exists kc. by split.
      * exists k5. split; [lia|done].
      * constructor; [|constructor]. exists k4. split; [lia|done].
      * rewrite child_at_child_same, Hw
          by (intros c; by rewrite !eid_insert, eid_append).
        cbn [fmap result_fmap]. rewrite !insert_front. by destruct w.
  - apply mret_spec in H as [-> ->].
    split_and!; [lia| | |].
    + apply (distinct_siblings_at_child k); [done|lia|].
      intros c Hc _. rewrite !eid_insert, eid_append. split; [done|].
      by apply Hcore.
    + intros i Hi. apply child_at_child_other; [|done].
      intros c. by rewrite !eid_insert, eid_append.
    + exists [], l4, l5. split_and!.
      * exists kc. by split.
      * exists k5. split; [lia|done].
      * constructor.
      * rewrite child_at_child_same, Hw
          by (intros c; by rewrite !eid_insert, eid_append).
        cbn [fmap result_fmap]. rewrite !insert_front. by destruct w.
Qed.

Lemma add_defaults_spec root k root' k' :
  distinct_siblings k root →
  add_defaults to_xml root k = Ok (root', k') →
  k ≤ k' ∧ distinct_siblings k' root'
  ∧ ∀ i, i < k → child i root' = child i root.
Proof.
  intros Hds H. unfold add_defaults in H.
  apply bind_Ok in H as (o & k1 & Ho & H).
  apply new_spec in Ho as (Ho & Hk1 & Hlt1 & Hido & _ & _ & Hdso).
  apply bind_Ok in H as (v & k2 & [-> ->]%new_element_spec & H).
  apply bind_Ok in H as (g & k3 & [-> ->]%new_element_spec & H).
  apply bind_Ok in H as (d & k4 & Hd & H).
  apply new_spec in Hd as (Hd & Hk4 & Hlt4 & Hidd & _ & _ & Hdsd).
  apply mret_spec in H as [-> ->].
  split_and!; [lia| |].
  - apply (distinct_siblings_insert k1); [|lia|lia|done].
    apply (distinct_siblings_insert k); [done|lia|lia|done].
  - intros i Hi. rewrite !child_insert; [done|lia|lia].
Qed.

Lemma add_sections_spec root k root' k' :
  distinct_siblings k root →
  add_sections to_xml root k = Ok (root', k') →
  k ≤ k' ∧ distinct_siblings k' root'
  ∧ (∀ i c, child i root = Ok c → tag c ≠ "sensor" → child i root' = Ok c)
  ∧ ∃ A S S' extra,
      created_from k (to_xml (actuator_section (motors joint_loop))) A
      ∧ created_from k
          (to_xml (sensor_section (sensor_pos joint_loop)
                     (sensor_vel joint_loop) (sensor_frc joint_loop))) S
      ∧ (tag A ≠ "sensor" → child (eid A) root' = Ok A)
      ∧ child (eid S) root' = Ok S' ∧ S' = extend extra S
      ∧ Forall (λ x, passive x = true) extra
      ∧ eid A < k' ∧ eid S < k'.
Proof.
  intros Hds H. unfold add_sections in H.
  apply bind_Ok in H as (A & k1 & HA & H).
  apply new_spec in HA as (HA & Hk1 & Hlt1 & HidA & _ & _ & HdsA).
  apply bind_Ok in H as (S & k2 & HS & H).
  apply new_spec in HS as (HS & Hk2 & Hlt2 & HidS & _ & _ & HdsS).
  apply bind_Ok in H as (sensors & k3 & [Hfind ->]%not_none_spec & H).
  apply bind_Ok in H as (fq & k4 & [-> ->]%new_element_spec & H).
  apply bind_Ok in H as (gy & k5 & [-> ->]%new_element_spec & H).
  apply mret_spec in H as [-> ->].
  set (root2 := append S (append A root)) in *.
  assert (Hds2 : distinct_siblings k2 root2).
  { apply (distinct_siblings_append k1); [|lia|lia|done].
    apply (distinct_siblings_append k); [done|lia|lia|done]. }
  pose proof (distinct_siblings_NoDup _ _ Hds2) as Hnd2.
  apply find_elem in Hfind as [Hsin Hst].
  assert (Hext : ∀ c, eid (extend
      [Element k2 "framequat"
         (attrs [ ("name", "orientation"); ("objtype", "site");
                  ("noise", "0.001"); ("objname", "imu") ]) [];
       Element (Datatypes.S k2) "gyro"
         (attrs [ ("name", "angular-velocity"); ("site", "imu");
                  ("noise", "0.005"); ("cutoff", "34.9") ]) []] c) = eid c)
    by (intros; apply eid_extend).
  assert (HA2 : child (eid A) root2 = Ok A).
  { apply child_append. apply child_append_new.
    apply Forall_forall. intros c Hc.
    apply (distinct_siblings_children _ _ _ Hds), distinct_siblings_lt in Hc.
    lia. }
  assert (HS2 : child (eid S) root2 = Ok S).
  { apply child_append_new. unfold append, with_children. cbn [children].
    apply Forall_app. split.
    - apply Forall_forall. intros c Hc.
      apply (distinct_siblings_children _ _ _ Hds), distinct_siblings_lt in Hc.
      lia.
    - apply Forall_singleton. lia. }
  split_and!; [lia| | |].
  - apply (distinct_siblings_at_child k2); [done|lia|].
    intros c Hc _. split; [apply eid_extend|].
    apply (distinct_siblings_extend k2); [|lia| |].
    + by eapply distinct_siblings_children.
    + cbn. repeat constructor; [|by intros ?%elem_of_nil].
      rewrite elem_of_cons. intros [?|?%elem_of_nil]; [lia|done].
    + repeat constructor; cbn; try lia; apply distinct_siblings_leaf; lia.
  - intros i c Hc Ht.
    assert (Hc2 : child i root2 = Ok c) by by do 2 apply child_append.
    rewrite child_at_child_other; [done|done|].
    intros ->. apply Ht.
    apply child_Ok_elem in Hc2 as [Hc2 Heq].
    by rewrite (same_child (children root2) c sensors).
  - exists A, S.
    destruct (decide (eid S = eid sensors)) as [Heq|Hne].
    + eexists _, _. split_and!.
      * exists k. by split.
      * exists k1. split; [lia|done].
      * intros HtA. rewrite child_at_child_other; [done|done|].
        apply (other_tag_other_child (children root2)); try done.
        -- by apply child_Ok_elem in HA2 as [??].
        -- by rewrite Hst.
      * rewrite <- Heq. rewrite child_at_child_same, HS2 by done. done.
      * done.
      * by repeat constructor.
      * lia.
      * lia.
    + exists S, []. split_and!.
      * exists k. by split.
      * exists k1. split; [lia|done].
      * intros HtA. rewrite child_at_child_other; [done|done|].
        apply (other_tag_other_child (children root2)); try done.
        -- by apply child_Ok_elem in HA2 as [??].
        -- by rewrite Hst.
      * by rewrite child_at_child_other.
      * unfold extend, with_children. rewrite app_nil_r. by destruct S.
      * constructor.
      * lia.
      * lia.
Qed.

Lemma build_world_spec self af n0 T1 wid bid items n1 :
  distinct_siblings n0 (tree self) →
  build_world to_xml to_xml_into self af n0 = Ok ((T1, wid, bid, items), n1) →
  ∃ w B floor l4 l5 parts A S S' extra,
    find "worldbody" (tree self) = Some w ∧ wid = eid w
    ∧ items = eid <$> children w
    ∧ bid = eid B ∧ n0 ≤ bid ∧ n0 ≤ n1 ∧ distinct_siblings n1 T1
    ∧ tag B = tag (to_xml root_body) ∧ attrib B = attrib (to_xml root_body)
    ∧ children B = children (relabel bid (to_xml root_body)).1 ++ parts
    ∧ Forall2 (λ v x, created_from n0 (to_xml v) x)
        (root_joints ++ [imu_site]) parts
    ∧ created_from n0 (to_xml light_high) l5
    ∧ created_from n0 (to_xml light_low) l4
    ∧ Forall2 (λ v x, created_from n0 (to_xml v) x)
        (if af then [ground] else []) floor
    ∧ child wid T1
      = Ok (with_children (floor ++ [l4; l5] ++ children w ++ [B]) w)
    ∧ created_from n0 (to_xml (actuator_section (motors joint_loop))) A
    ∧ created_from n0
        (to_xml (sensor_section (sensor_pos joint_loop)
                   (sensor_vel joint_loop) (sensor_frc joint_loop))) S
    ∧ (tag A ≠ "sensor" → child (eid A) T1 = Ok A)
    ∧ child (eid S) T1 = Ok S' ∧ S' = extend extra S
    ∧ Forall (λ x, passive x = true) extra.
Proof.
  intros Hds H. unfold build_world in H.
  apply bind_Ok in H as (root1 & k1 & H1 & H).
  assert (n0 ≤ k1 ∧ distinct_siblings k1 root1
          ∧ find "worldbody" root1 = find "worldbody" (tree self))
    as (Hk1 & Hds1 & Hf1).
  { destruct af.
    - by apply add_floor_assets_spec in H1.
    - by apply mret_spec in H1 as [-> ->]. }
  destruct (adapt_compiler_spec self root1 k1 Hds1) as [Hds2 Hf2].
  apply bind_Ok in H as (w & k2 & [Hw ->]%not_none_spec & H).
  rewrite Hf2, Hf1 in Hw.
  assert (Hcw : child (eid w) (adapt_compiler to_xml_into self root1) = Ok w).
  { apply child_find with "worldbody"; [|by rewrite Hf2, Hf1].
    by eapply distinct_siblings_NoDup. }
  apply bind_Ok in H as (B & k3 & HB & H).
  apply make_root_body_spec in HB
    as (Hk3 & HidB & HtB & HaB & HdsB & parts & HcB & Hparts).
  apply bind_Ok in H as (root3 & k4 & H3 & H).
  eapply add_scene_spec in H3; [|exact Hds2|lia|exact Hcw|lia|exact HdsB].
  destruct H3 as (Hk4 & Hds3 & Hframe3 & floor & l4 & l5 & Hl5 & Hl4 & Hfl & Hw3).
  apply bind_Ok in H as (root4 & k5 & H4 & H).
  apply add_sections_spec in H4; [|exact Hds3].
  destruct H4 as (Hk5 & Hds4 & Hkeep4 & A & S & S' & extra
                  & HA & HS & HcA & HcS & HS' & Hextra & HAlt & HSlt).
  apply bind_Ok in H as (root5 & k6 & H5 & H).
  apply add_defaults_spec in H5; [|exact Hds4].
  destruct H5 as (Hk6 & Hds5 & Hframe5).
  apply mret_spec in H as [[= -> -> -> ->] ->].
  apply find_elem in Hw as Hw'. destruct Hw' as [Hwin Hwt].
  pose proof (distinct_siblings_lt _ _
                (distinct_siblings_children _ _ _ Hds Hwin)) as Hwlt.
  exists w, B, floor, l4, l5, parts, A, S, S', extra.
  split_and!; try done; try lia.
  - by rewrite HidB.
  - eapply Forall2_impl; [exact Hparts|]. cbn. intros v x.
    apply created_from_mono. lia.
  - eapply created_from_mono; [|exact Hl5]. lia.
  - eapply created_from_mono; [|exact Hl4]. lia.
  - eapply Forall2_impl; [exact Hfl|]. cbn. intros v x.
    apply created_from_mono. lia.
  - rewrite Hframe5 by lia. apply Hkeep4; [done|].
    unfold with_children. cbn. by rewrite Hwt.
  - eapply created_from_mono; [|exact HA]. lia.
  - eapply created_from_mono; [|exact HS]. lia.
  - intros Ht. rewrite Hframe5 by lia. by apply HcA.
  - by rewrite Hframe5 by lia.
Qed.

End Build.

(** ** Passive elements *)

Lemma passive_unfold e :
  passive e = true ↔
  tag e ≠ "body"
  ∧ (tag e = "joint" →
     get "name" e ≫= dict_lookup DEFAULT_STANDING = None
     ∧ has_key "actuatorfrcrange" e = false)
  ∧ Forall (λ c, passive c = true) (children e).
Proof.
  destruct e as [i t a cs]. cbn [passive tag children].
  rewrite !andb_true_iff, orb_true_iff, !negb_true_iff, andb_true_iff,
    !bool_decide_eq_false, bool_decide_eq_true, negb_true_iff,
    forallb_forall, Forall_forall.
  unfold get, has_key. cbn [attrib]. rewrite bool_decide_eq_false.
  setoid_rewrite list_elem_of_In.
  destruct (decide (t = "joint")); naive_solver.
Qed.

Lemma passive_relabel t : ∀ n, passive (relabel n t).1 = passive t.
Proof.
  induction t as [i tg a cs IH] using element_induction. intros n.
  rewrite relabel_unfold. cbn [fst passive]. f_equal.
  generalize (S n). induction cs as [|c cs IHcs]; intros m; [done|].
  apply Forall_cons in IH as [Hc Hcs]. rewrite relabel_all_cons. cbn.
  by rewrite Hc, IHcs.
Qed.

Lemma created_from_passive n t x :
  created_from n t x → passive t = true → passive x = true.
Proof. intros (k & _ & ->) H. by rewrite passive_relabel. Qed.


Section Passes.
Context (str_float : float → string).

Lemma set_reference_same c :
  eid (set_reference str_float c) = eid c
  ∧ tag (set_reference str_float c) = tag c
  ∧ children (set_reference str_float c) = children c.
Proof. unfold set_reference. by destruct (_ ≫= _), c. Qed.

(** An edit of attributes, applied all over a tree, keeps identities,
    tags and the distinctness of siblings. *)
Lemma for_each_same t f e :
  (∀ x, eid (f x) = eid x ∧ tag (f x) = tag x) →
  eid (for_each t f e) = eid e ∧ tag (for_each t f e) = tag e.
Proof.
  intros Hf. destruct e as [i tg a cs]. rewrite for_each_unfold.
  destruct (decide (tg = t)); [|done]. by destruct (Hf (Element i tg a (for_each t f <$> cs))).
Qed.

Lemma for_each_attrib_only t f n e :
  (∀ x, eid (f x) = eid x ∧ tag (f x) = tag x
        ∧ children (f x) = children x) →
  distinct_siblings n e → distinct_siblings n (for_each t f e).
Proof.
  intros Hf. induction e as [i tg a cs IH] using element_induction.
  rewrite for_each_unfold, distinct_siblings_unfold. cbn [eid children].
  intros (Hi & Hnd & Hcs).
  assert (Hds : distinct_siblings n (Element i tg a (for_each t f <$> cs))).
  { apply distinct_siblings_unfold. cbn [eid children]. split_and!; [done| |].
    - rewrite <- list_fmap_compose.
      erewrite (list_fmap_ext _ eid); [done|]. intros ? c ?. cbn.
      apply for_each_same. intros x. destruct (Hf x). tauto.
    - rewrite Forall_fmap. rewrite Forall_forall in IH, Hcs.
      apply Forall_forall. intros c Hc. cbn. by apply IH, Hcs. }
  destruct (decide (tg = t)); [|done].
  apply distinct_siblings_unfold in Hds. apply distinct_siblings_unfold.
  destruct (Hf (Element i tg a (for_each t f <$> cs))) as (-> & _ & ->).
  done.
Qed.

Lemma passive_set_reference e :
  passive e = true → for_each "joint" (set_reference str_float) e = e.
Proof.
  induction e as [i tg a cs IH] using element_induction.
  rewrite passive_unfold. cbn [tag children]. intros (_ & Hj & Hcs).
  rewrite for_each_unfold.
  assert (for_each "joint" (set_reference str_float) <$> cs = cs) as ->.
  { rewrite <- (list_fmap_id cs) at 2. apply Forall_fmap_ext.
    rewrite Forall_forall in IH, Hcs. apply Forall_forall.
    intros c Hc. by apply IH, Hcs. }
  destruct (decide (tg = "joint")) as [Ht|Ht]; [|done].
  unfold set_reference. by destruct (Hj Ht) as [-> _].
Qed.

Lemma passive_no_body f e :
  passive e = true → for_each "body" f e = e.
Proof.
  induction e as [i tg a cs IH] using element_induction.
  rewrite passive_unfold. cbn [tag children]. intros (Hb & _ & Hcs).
  rewrite for_each_unfold, decide_False by done. f_equal.
  rewrite <- (list_fmap_id cs) at 2. apply Forall_fmap_ext.
  rewrite Forall_forall in IH, Hcs. apply Forall_forall.
  intros c Hc. by apply IH, Hcs.
Qed.

Lemma passive_no_new_body f e :
  passive e = true → ∀ n, for_each_new "body" f e n = Ok (e, n).
Proof.
  induction e as [i tg a cs IH] using element_induction.
  rewrite passive_unfold. cbn [tag children]. intros (Hb & _ & Hcs) n.
  rewrite for_each_new_unfold. apply bind_Ok. exists cs, n. split.
  - clear Hb. induction cs as [|c cs IHcs]; [done|].
    apply Forall_cons in IH as [Hc IH]. apply Forall_cons in Hcs as [Hpc Hcs].
    cbn [in_turn]. apply bind_Ok. exists c, n. split; [by apply Hc|].
    apply bind_Ok. exists cs, n. split; [by apply IHcs|done].
  - by rewrite decide_False.
Qed.

Lemma passive_drop_frc_range e :
  passive e = true →
  (if decide (tag e = "joint") then drop_frc_range e else e) = e.
Proof.
  rewrite passive_unfold. intros (_ & Hj & _).
  destruct (decide (tag e = "joint")) as [Ht|Ht]; [|done].
  unfold drop_frc_range. by destruct (Hj Ht) as [_ ->].
Qed.

Lemma child_for_each_below i t f root :
  (∀ x, eid (f x) = eid x ∧ tag (f x) = tag x) →
  child i (for_each_below t f root) = for_each t f <$> child i root.
Proof.
  intros Hf. unfold for_each_below. apply child_fmap.
  intros c. by apply for_each_same.
Qed.

End Passes.

(** ** Moving the items *)

Lemma child_at_child_const i v e c :
  child i e = Ok c → eid v = i → child i (at_child i (λ _, v) e) = Ok v.
Proof.
  intros Hc Hv. unfold at_child. rewrite child_fmap.
  - rewrite Hc. cbn. apply child_Ok_elem in Hc as [_ Hc].
    by rewrite decide_True.
  - intros x. destruct (decide _); congruence.
Qed.

Lemma child_at_child_const_other i j v e :
  eid v = j → i ≠ j → child i (at_child j (λ _, v) e) = child i e.
Proof.
  intros Hv Hij. unfold at_child. rewrite child_fmap.
  - destruct (child i e) as [c|] eqn:Hc; [|done]. cbn.
    apply child_Ok_elem in Hc as [_ Hc]. rewrite decide_False; [done|lia].
  - intros x. destruct (decide _); congruence.
Qed.

Lemma distinct_siblings_append_distinct n x e :
  distinct_siblings n e → distinct_siblings n x →
  eid x ∉ eid <$> children e → distinct_siblings n (append x e).
Proof.
  rewrite !distinct_siblings_unfold. intros (Hi & Hnd & Hcs) Hx Hnin.
  unfold append, with_children. cbn [eid children]. split_and!; [done| |].
  - rewrite fmap_app. apply NoDup_app. split_and!; [done| |].
    + intros j Hj Hj'. cbn in Hj'. apply list_elem_of_singleton in Hj'.
      by subst.
    + cbn. apply NoDup_singleton.
  - apply Forall_app. split; [done|].
    apply Forall_singleton. by apply distinct_siblings_unfold.
Qed.

Lemma remove_middle k i t a pre c r :
  Forall (λ x, eid x ≠ k) pre → eid c = k →
  remove k (Element i t a (pre ++ c :: r)) = Ok (Element i t a (pre ++ r)).
Proof.
  intros Hpre Hc. unfold remove. rewrite index_middle by done.
  cbn [mbind result_bind]. unfold with_children. cbn [children eid tag attrib].
  by rewrite delete_middle.
Qed.

Lemma extend_nil e : extend [] e = e.
Proof. unfold extend, with_children. rewrite app_nil_r. by destruct e. Qed.

Lemma extend_append x xs e : extend xs (append x e) = extend (x :: xs) e.
Proof.
  unfold extend, append, with_children. cbn. by rewrite <- app_assoc.
Qed.

Lemma move_loop wid bid wi wt wa pre n todo :
  ∀ Bc root,
    distinct_siblings n root →
    child wid root = Ok (Element wi wt wa (pre ++ todo ++ [Bc])) →
    eid Bc = bid →
    Forall (λ y, eid y ∉ eid <$> todo) (children Bc) →
    ∃ root',
      for_loop (move_item wid bid) (eid <$> todo) root n = Ok (root', n)
      ∧ distinct_siblings n root'
      ∧ child wid root' = Ok (Element wi wt wa (pre ++ [extend todo Bc]))
      ∧ ∀ i, i ≠ wid → child i root' = child i root.
Proof.
  induction todo as [|x todo IH]; intros Bc root Hds Hw HB Hfresh.
  { exists root. split_and!; [done|done| |done]. by rewrite extend_nil. }
  change ((x :: todo) ++ [Bc]) with (x :: todo ++ [Bc]) in Hw.
  pose proof (child_Ok_elem _ _ _ Hw) as [Hwin Hwid]. cbn in Hwid. subst wi.
  pose proof (distinct_siblings_children _ _ _ Hds Hwin) as HdsW.
  apply distinct_siblings_unfold in HdsW as (HWlt & Hnd & Hcs).
  cbn [eid children] in *.
  rewrite fmap_app in Hnd.
  apply NoDup_app in Hnd as (Hndpre & Hdisj & Hnd).
  rewrite fmap_cons, fmap_app in Hnd, Hdisj.
  apply NoDup_cons in Hnd as [Hx Hnd].
  assert (Hpre : Forall (λ y, eid y ≠ eid x) pre).
  { apply Forall_forall. intros y Hy Heq. apply (Hdisj (eid y)).
    - by apply list_elem_of_fmap_2.
    - rewrite Heq. by left. }
  assert (Hpre' : Forall (λ y, eid y ≠ bid) (pre ++ todo)).
  { apply Forall_app. split; apply Forall_forall; intros y Hy Heq.
    - apply (Hdisj (eid y)); [by apply list_elem_of_fmap_2|].
      right. rewrite Heq, <- HB. apply elem_of_app. right. cbn. by left.
    - apply NoDup_app in Hnd as (_ & Hdisj' & _).
      apply (Hdisj' (eid y)); [by apply list_elem_of_fmap_2|].
      rewrite Heq, <- HB. cbn. by left. }
  set (W' := Element wid wt wa (pre ++ todo ++ [append x Bc])).
  assert (Hstep : move_item wid bid root (eid x) n
                  = Ok (at_child wid (λ _, W') root, n)).
  { unfold move_item. apply bind_Ok. eexists _, n. split.
    { unfold lift. by rewrite Hw. }
    apply bind_Ok. exists x, n. split.
    { unfold lift. by rewrite child_middle. }
    apply bind_Ok. eexists _, n. split.
    { unfold lift. by rewrite remove_middle. }
    rewrite at_child_compose by done. cbn. do 3 f_equal.
    rewrite app_assoc. rewrite at_child_middle; [|done|done|constructor].
    unfold W'. by rewrite <- app_assoc. }
  apply Forall_app in Hcs as [Hcspre Hcs].
  apply Forall_cons in Hcs as [Hdx Hcs]. apply Forall_app in Hcs as [Hcst HcsB].
  rewrite Forall_singleton in HcsB.
  apply Forall_app in Hpre' as Hpre''. destruct Hpre'' as [Hprebid Htodobid].
  assert (HdsW' : distinct_siblings n W').
  { apply distinct_siblings_unfold. unfold W'. cbn [eid children].
    split_and!; [done| |].
    - rewrite !fmap_app. change (eid <$> [append x Bc]) with (eid <$> [Bc]).
      apply NoDup_app. split_and!; [done| |done].
      intros j Hj Hj'. apply (Hdisj j Hj). by right.
    - apply Forall_app. split; [done|]. apply Forall_app. split; [done|].
      apply Forall_singleton.
      apply distinct_siblings_append_distinct; [done|done|].
      intros Hin. apply list_elem_of_fmap in Hin as (y & Hy & Hin).
      rewrite Forall_forall in Hfresh. apply (Hfresh y Hin).
      rewrite <- Hy. by left. }
  destruct (IH (append x Bc) (at_child wid (λ _, W') root))
    as (root' & Hrun & Hds' & Hw' & Hframe).
  - apply (distinct_siblings_at_child n); [done|lia|].
    intros c Hc Hcid. by split.
  - by eapply child_at_child_const.
  - by rewrite eid_append.
  - unfold append, with_children. cbn [children]. apply Forall_app. split.
    + eapply Forall_impl; [exact Hfresh|]. cbn. intros y Hy Hin.
      apply Hy. by right.
    + apply Forall_singleton. intros Hin. apply Hx, elem_of_app. by left.
  - exists root'. split_and!.
    + cbn [fmap list_fmap for_loop]. apply bind_Ok. eexists _, n. by split.
    + done.
    + by rewrite Hw', extend_append.
    + intros i Hi. rewrite Hframe by done.
      by apply child_at_child_const_other.
Qed.

(** ** The visual geom logic below the root *)

Lemma in_turn_app f xs ys n xs' n1 ys' n2 :
  in_turn f xs n = Ok (xs', n1) → in_turn f ys n1 = Ok (ys', n2) →
  in_turn f (xs ++ ys) n = Ok (xs' ++ ys', n2).
Proof.
  revert n xs'. induction xs as [|x xs IH]; intros n xs' Hxs Hys.
  - cbn [in_turn] in Hxs. apply mret_spec in Hxs as [-> ->]. done.
  - cbn [in_turn] in Hxs. apply bind_Ok in Hxs as (x' & k & Hx & Hxs).
    apply bind_Ok in Hxs as (xs1 & k' & Hxs & [-> ->]%mret_spec).
    cbn [app in_turn]. apply bind_Ok. exists x', k. split; [done|].
    apply bind_Ok. exists (xs1 ++ ys'), n2. split; [by apply IH|done].
Qed.

Lemma in_turn_passive f cs n :
  Forall (λ c, passive c = true) cs →
  in_turn (for_each_new "body" f) cs n = Ok (cs, n).
Proof.
  induction 1 as [|c cs Hc _ IH]; [done|].
  cbn [in_turn]. apply bind_Ok. exists c, n.
  split; [by apply passive_no_new_body|].
  apply bind_Ok. by exists cs, n.
Qed.

Lemma in_turn_visual m cs :
  ∀ n, m ≤ n → Forall (distinct_siblings n) cs →
       ∃ cs' n',
         in_turn (for_each_new "body" add_visual_geoms) cs n = Ok (cs', n')
         ∧ n ≤ n'
         ∧ Forall (distinct_siblings n') cs'
         ∧ Forall (visual_geoms_in m) cs'
         ∧ Forall2
             (λ c c', eid c' = eid c ∧ tag c' = tag c
                      ∧ attrib c' = attrib c
                      ∧ ∃ k k', n ≤ k ∧ k' ≤ n'
                          ∧ for_each_new "body" add_visual_geoms c k
                            = Ok (c', k'))
             cs cs'.
Proof.
  induction cs as [|c cs IH]; intros n Hmn Hds.
  { exists [], n. split_and!; by try constructor. }
  apply Forall_cons in Hds as [Hc Hds].
  destruct (visual_pass m c n Hmn Hc)
    as (c' & n1 & Hrun & Hle & Hid & Htag & Hat & Hdc' & Hv).
  destruct (IH n1) as (cs' & n2 & Hrun' & Hle' & Hds' & Hvs & Hall);
    [lia| |].
  { eapply Forall_impl; [exact Hds|]. cbn. intros x.
    apply distinct_siblings_mono. lia. }
  exists (c' :: cs'), n2. split_and!.
  - cbn [in_turn]. apply bind_Ok. eexists _, _. split; [exact Hrun|].
    apply bind_Ok. eexists _, _. split; [exact Hrun'|done].
  - lia.
  - constructor; [|done]. eapply distinct_siblings_mono; [|exact Hdc']. lia.
  - by constructor.
  - constructor.
    + split_and!; [done..|]. exists n, n1. split_and!; [lia|lia|done].
    + eapply Forall2_impl; [exact Hall|]. cbn.
      intros x x' (? & ? & ? & k & k' & ? & ? & ?). split_and!; [done..|].
      exists k, k'. split_and!; [lia|lia|done].
Qed.

Lemma child_Forall2 (R : element → element → Prop) i e e' c :
  Forall2 (λ c c', eid c' = eid c ∧ R c c') (children e) (children e') →
  child i e = Ok c → ∃ c', child i e' = Ok c' ∧ R c c'.
Proof.
  unfold child. generalize (children e) (children e').
  intros cs cs' H. induction H as [|x x' xs xs' [Hid HR] _ IH]; [done|].
  cbn [list_find]. rewrite Hid.
  destruct (decide (eid x = i)); cbn.
  - intros [= <-]. by exists x'.
  - destruct (list_find _ xs) as [[]|], (list_find _ xs') as [[]|];
      cbn in *; done.
Qed.

Lemma Forall2_same_ids (R : element → element → Prop) cs cs' :
  Forall2 (λ c c', eid c' = eid c ∧ R c c') cs cs' →
  eid <$> cs' = eid <$> cs.
Proof.
  induction 1 as [|x x' xs xs' [Hid _] _ IH]; [done|].
  cbn. by rewrite Hid, IH.
Qed.

Lemma visual_geoms_in_mono m m' e :
  m ≤ m' → visual_geoms_in m' e → visual_geoms_in m e.
Proof.
  intros Hm H body Hin Ht before geom after Heq Hg Hlt.
  destruct (H body Hin Ht before geom after Heq Hg) as [Hc Hnew]; [lia|].
  split; [done|]. destruct Hnew as (g & after' & -> & Hle & Hrest).
  exists g, after'. split_and!; [done|lia|tauto..].
Qed.

Lemma visual_below m root n :
  m ≤ n → distinct_siblings n root →
  ∃ cs' n',
    for_each_new_below "body" add_visual_geoms root n
    = Ok (with_children cs' root, n')
    ∧ n ≤ n' ∧ distinct_siblings n' (with_children cs' root)
    ∧ Forall (visual_geoms_in m) cs'
    ∧ Forall2
        (λ c c', eid c' = eid c ∧ tag c' = tag c ∧ attrib c' = attrib c
                 ∧ ∃ k k', n ≤ k ∧ k' ≤ n'
                     ∧ for_each_new "body" add_visual_geoms c k
                       = Ok (c', k'))
        (children root) cs'.
Proof.
  intros Hmn (Hi & Hnd & Hds)%distinct_siblings_unfold.
  destruct (in_turn_visual m (children root) n Hmn Hds)
    as (cs' & n' & Hrun & Hle & Hds' & Hvis & Hall).
  exists cs', n'. split_and!; [|done| |done|done].
  - unfold for_each_new_below. apply bind_Ok. by exists cs', n'.
  - apply distinct_siblings_unfold. destruct root as [i t a cs].
    cbn [with_children eid children] in *. split_and!; [lia| |done].
    by rewrite (Forall2_same_ids _ _ _ Hall).
Qed.

(** ** Dropping the force ranges keeps the geoms paired *)

Lemma remove_frc_ranges_same x :
  eid (remove_frc_ranges x) = eid x ∧ tag (remove_frc_ranges x) = tag x.
Proof.
  unfold remove_frc_ranges. generalize (eid <$> findall "joint" x).
  intros js. revert x. induction js as [|j js IH]; intros x; [done|].
  cbn [foldl]. destruct (IH (at_child j drop_frc_range x)) as [-> ->].
  by destruct x.
Qed.

Lemma visual_geoms_in_with_attrib m a c :
  tag c ≠ "body" → visual_geoms_in m c → visual_geoms_in m (with_attrib a c).
Proof.
  intros Ht. rewrite !visual_geoms_in_unfold. intros [_ Hcs].
  split; [by destruct c|by destruct c].
Qed.

Lemma visual_geoms_in_drop_frc_range m c :
  visual_geoms_in m c →
  visual_geoms_in m
    (if decide (tag c = "joint") then drop_frc_range c else c).
Proof.
  intros H. destruct (decide _) as [Ht|]; [|done]. unfold drop_frc_range.
  destruct (has_key _ c); [|done].
  apply visual_geoms_in_with_attrib; [|done]. by rewrite Ht.
Qed.

Lemma for_each_other_tag t f e :
  tag e ≠ t →
  for_each t f e
  = Element (eid e) (tag e) (attrib e) (for_each t f <$> children e).
Proof.
  destruct e as [i tg a cs]. cbn [tag]. intros Ht.
  rewrite for_each_unfold. by rewrite decide_False.
Qed.

Lemma frc_keeps_visual m n e :
  distinct_siblings n e → visual_geoms_in m e →
  visual_geoms_in m (for_each "body" remove_frc_ranges e).
Proof.
  induction e as [i t a cs IH] using element_induction.
  intros (Hi & Hnd & Hds)%distinct_siblings_unfold
         [Hat Hvis]%visual_geoms_in_unfold.
  cbn [eid tag children] in *.
  assert (HF : Forall (visual_geoms_in m)
                 (for_each "body" remove_frc_ranges <$> cs)).
  { rewrite Forall_fmap. rewrite Forall_forall in IH, Hds, Hvis.
    apply Forall_forall. intros c Hc. cbn. by apply IH; [|apply Hds|apply Hvis]. }
  rewrite for_each_unfold. destruct (decide (t = "body")) as [->|Ht].
  2:{ apply visual_geoms_in_unfold. by split. }
  rewrite remove_frc_ranges_spec.
  2:{ rewrite <- list_fmap_compose.
      erewrite (list_fmap_ext _ eid); [exact Hnd|]. intros ? c ?. cbn.
      apply for_each_same, remove_frc_ranges_same. }
  apply visual_geoms_in_unfold. cbn [tag children]. split.
  - intros _. specialize (Hat eq_refl).
    intros before geom after Heq Hg Hlt. cbn [children] in Heq.
    rewrite <- list_fmap_compose in Heq.
    apply fmap_app_inv in Heq as (b0 & r0 & -> & Hr & ->).
    symmetry in Hr. apply fmap_cons_inv in Hr as (g0 & a0 & -> & -> & ->).
    cbn in Hg, Hlt.
    assert (Hsame : ∀ x, tag x = "geom" →
              (if decide (tag (for_each "body" remove_frc_ranges x) = "joint")
               then drop_frc_range (for_each "body" remove_frc_ranges x)
               else for_each "body" remove_frc_ranges x)
              = Element (eid x) (tag x) (attrib x)
                  (for_each "body" remove_frc_ranges <$> children x)).
    { intros x Hx. rewrite for_each_other_tag by by rewrite Hx.
      cbn [tag]. rewrite decide_False; [done|by rewrite Hx]. }
    destruct (decide (tag g0 = "geom")) as [Hg0|Hg0].
    2:{ destruct (for_each_same "body" remove_frc_ranges g0
                    remove_frc_ranges_same) as [_ Htg].
        destruct (decide _) as [Hj|Hj] in Hg.
        - destruct (drop_frc_range_same
                      (for_each "body" remove_frc_ranges g0)) as (_ & Hd & _).
          congruence.
        - congruence. }
    rewrite Hsame in Hlt by done. cbn in Hlt.
    destruct (Hat b0 g0 a0 eq_refl Hg0 Hlt)
      as (Hclass & new & after' & -> & Hle & Hnt & Hnc & Hna).
    unfold compose. cbn beta. rewrite Hsame by done. split; [done|].
    exists new, ((λ c, if decide (tag c = "joint") then drop_frc_range c
                       else c)
                 ∘ for_each "body" remove_frc_ranges <$> after').
    split_and!; try done.
    cbn [fmap list_fmap compose]. f_equal.
    rewrite Hsame by done. destruct new. cbn in *. by subst.
  - rewrite Forall_fmap. rewrite Forall_forall in HF.
    apply Forall_forall. intros c Hc. cbn.
    by apply visual_geoms_in_drop_frc_range, HF.
Qed.


(** ** The whole of [adapt_world] *)

Lemma relabel_all_ge cs : ∀ m, Forall (λ c, m ≤ eid c) (relabel_all m cs).1.
Proof.
  induction cs as [|c cs IH]; intros m; [constructor|].
  rewrite relabel_all_cons. cbn [fst]. constructor.
  - by rewrite relabel_eid.
  - eapply Forall_impl; [apply IH|]. cbn. intros x.
    pose proof (relabel_lt m c). lia.
Qed.

Lemma created_from_ge n t x : created_from n t x → n ≤ eid x.
Proof. intros (k & Hk & ->). by rewrite relabel_eid. Qed.

Lemma created_from_tag n t x : created_from n t x → tag x = tag t.
Proof. intros (k & Hk & ->). by rewrite relabel_tag. Qed.

Lemma created_from_attrib n t x : created_from n t x → attrib x = attrib t.
Proof. intros (k & Hk & ->). by rewrite relabel_attrib. Qed.

Lemma for_each_children t f e :
  (∀ x, children (f x) = children x) →
  children (for_each t f e) = for_each t f <$> children e.
Proof.
  intros Hf. destruct e as [i tg a cs]. rewrite for_each_unfold.
  destruct (decide _); [by rewrite Hf|done].
Qed.

Lemma distinct_siblings_for_each_below t f n root :
  (∀ x, eid (f x) = eid x ∧ tag (f x) = tag x
        ∧ children (f x) = children x) →
  distinct_siblings n root → distinct_siblings n (for_each_below t f root).
Proof.
  intros Hf (Hi & Hnd & Hds)%distinct_siblings_unfold.
  apply distinct_siblings_unfold. destruct root as [i tg a cs].
  cbn [for_each_below with_children eid children] in *. split_and!; [done| |].
  - rewrite <- list_fmap_compose.
    erewrite (list_fmap_ext _ eid); [done|]. intros ? c ?. cbn.
    apply for_each_same. intros x. destruct (Hf x). tauto.
  - rewrite Forall_fmap. eapply Forall_impl; [exact Hds|]. cbn.
    intros x. by apply for_each_attrib_only.
Qed.

Section Run.
Context (to_xml : pyval → element).
Context (to_xml_into : pyval → dict (option string) → dict (option string)).
Context (str_float : float → string).

Lemma with_references_same flag e :
  eid (with_references str_float flag e) = eid e
  ∧ tag (with_references str_float flag e) = tag e
  ∧ children (with_references str_float flag e)
    = with_references str_float flag <$> children e.
Proof.
  destruct flag; cbn.
  - destruct (for_each_same "joint" (set_reference str_float) e) as [-> ->].
    { intros x. destruct (set_reference_same str_float x). tauto. }
    split_and!; [done..|]. apply for_each_children. intros x.
    by destruct (set_reference_same str_float x) as (_ & _ & ?).
  - by rewrite list_fmap_id.
Qed.

Lemma with_references_passive flag e :
  passive e = true → with_references str_float flag e = e.
Proof. destruct flag; [apply passive_set_reference|done]. Qed.

Lemma with_references_distinct flag n e :
  distinct_siblings n e →
  distinct_siblings n (with_references str_float flag e).
Proof.
  destruct flag; [|done]. apply for_each_attrib_only, set_reference_same.
Qed.

(** The loop over [items_to_move]: it returns, and the former children
    of the worldbody are then the last children of the new root body. *)
Lemma items_moved (arp : bool) n0 n1 T1 w B pre :
  distinct_siblings n1 T1 →
  tag w ≠ "joint" →
  Forall (λ c, eid c < n0) (children w) →
  Forall (λ y, n0 ≤ eid y) (children B) →
  child (eid w) T1 = Ok (with_children (pre ++ children w ++ [B]) w) →
  ∃ T3,
    for_loop (move_item (eid w) (eid B)) (eid <$> children w)
      (if arp then add_reference_position str_float T1 else T1) n1
    = Ok (T3, n1)
    ∧ distinct_siblings n1 T3
    ∧ child (eid w) T3
      = Ok (Element (eid w) (tag w) (attrib w)
              ((with_references str_float arp <$> pre)
               ++ [extend (with_references str_float arp <$> children w)
                     (with_references str_float arp B)]))
    ∧ (∀ i, i ≠ eid w →
            child i T3 = with_references str_float arp <$> child i T1).
Proof.
  intros Hds1 Hwt Hwold Hnew Hcw.
  set (T2 := if arp then add_reference_position str_float T1 else T1).
  assert (Hds2 : distinct_siblings n1 T2).
  { unfold T2. destruct arp; [|done].
    apply distinct_siblings_for_each_below; [|done].
    apply set_reference_same. }
  assert (Hc2 : ∀ i, child i T2
                     = with_references str_float arp <$> child i T1).
  { intros i. unfold T2. destruct arp; cbn.
    - apply child_for_each_below. intros x.
      destruct (set_reference_same str_float x). tauto.
    - by destruct (child i T1). }
  assert (Hcw2 : child (eid w) T2
    = Ok (Element (eid w) (tag w) (attrib w)
            ((with_references str_float arp <$> pre)
             ++ (with_references str_float arp <$> children w)
             ++ [with_references str_float arp B]))).
  { rewrite Hc2, Hcw. cbn. f_equal.
    destruct (with_references_same arp
                (with_children (pre ++ children w ++ [B]) w))
      as (Hi & Ht & Hc).
    destruct (with_references str_float arp (with_children _ w))
      as [i t a cs] eqn:Heq.
    cbn in Hi, Ht, Hc. subst i t cs.
    assert (a = attrib w) as ->.
    { destruct arp; unfold with_references in Heq.
      - rewrite for_each_other_tag in Heq.
        + destruct w. by injection Heq as <-.
        + by destruct w.
      - destruct w. by injection Heq as <-. }
    destruct w. cbn [with_children eid tag attrib children]. f_equal.
    by rewrite !fmap_app. }
  destruct (with_references_same arp B) as (HRi & HRt & HRc).
  destruct (move_loop (eid w) (eid B) (eid w) (tag w) (attrib w)
              (with_references str_float arp <$> pre) n1
              (with_references str_float arp <$> children w)
              (with_references str_float arp B) T2 Hds2 Hcw2 HRi)
    as (T3 & Hrun & Hds3 & Hcw3 & Hframe).
  { rewrite HRc. rewrite <- list_fmap_compose, Forall_fmap.
    rewrite Forall_forall in Hnew, Hwold.
    apply Forall_forall. intros x Hx. cbn.
    intros (c & Hc & Hin)%list_elem_of_fmap. cbn in Hc.
    destruct (with_references_same arp x) as [Hex _].
    destruct (with_references_same arp c) as [Hec _].
    specialize (Hnew x Hx). specialize (Hwold c Hin). lia. }
  assert (Hitems : eid <$> children w
                   = eid <$> (with_references str_float arp <$> children w)).
  { rewrite <- list_fmap_compose. apply list_fmap_ext. intros ? c ?. cbn.
    by destruct (with_references_same arp c) as [-> _]. }
  exists T3. split_and!; [by rewrite Hitems|done|done|].
  intros i Hi. by rewrite Hframe, Hc2.
Qed.

(** The tree after the items have moved, and what is left to do. *)
Lemma adapt_world_run self af arp rfr n0 root' n' :
  distinct_siblings n0 (tree self) →
  adapt_world to_xml to_xml_into str_float self af arp rfr n0
  = Ok (root', n') →
  ∃ T1 T3 T4 n1 w B floor l4 l5 parts A S extra,
    find "worldbody" (tree self) = Some w
    ∧ n0 ≤ eid B ∧ n0 ≤ n1
    ∧ tag B = tag (to_xml root_body) ∧ attrib B = attrib (to_xml root_body)
    ∧ children B = children (relabel (eid B) (to_xml root_body)).1 ++ parts
    ∧ Forall2 (λ v x, created_from n0 (to_xml v) x)
        (root_joints ++ [imu_site]) parts
    ∧ created_from n0 (to_xml light_high) l5
    ∧ created_from n0 (to_xml light_low) l4
    ∧ Forall2 (λ v x, created_from n0 (to_xml v) x)
        (if af then [ground] else []) floor
    ∧ created_from n0 (to_xml (actuator_section (motors joint_loop))) A
    ∧ created_from n0
        (to_xml (sensor_section (sensor_pos joint_loop)
                   (sensor_vel joint_loop) (sensor_frc joint_loop))) S
    ∧ (tag A ≠ "sensor" → child (eid A) T1 = Ok A)
    ∧ child (eid S) T1 = Ok (extend extra S)
    ∧ Forall (λ x, passive x = true) extra
    ∧ distinct_siblings n1 T3
    ∧ child (eid w) T3
      = Ok (Element (eid w) (tag w) (attrib w)
              ((with_references str_float arp <$> floor ++ [l4; l5])
               ++ [extend (with_references str_float arp <$> children w)
                     (with_references str_float arp B)]))
    ∧ (∀ i, i ≠ eid w →
            child i T3 = with_references str_float arp <$> child i T1)
    ∧ for_each_new_below "body" add_visual_geoms T3 n1 = Ok (T4, n')
    ∧ root' = (if rfr then for_each_below "body" remove_frc_ranges T4
               else T4).
Proof.
  intros Hds H. unfold adapt_world in H.
  apply bind_Ok in H as ([[[T1 wid] bid] items] & n1 & Hb & H).
  destruct (build_world_spec to_xml to_xml_into self af n0 T1 wid bid items
              n1 Hds Hb)
    as (w & B & floor & l4 & l5 & parts & A & S & S' & extra & Hw & -> & ->
        & -> & HB & Hn1 & Hds1 & HtB & HaB & HcB & Hparts & Hl5 & Hl4 & Hfl
        & Hcw & HA & HS & HcA & HcS & -> & Hextra).
  apply bind_Ok in H as (T3 & n1' & Hmove & H).
  apply bind_Ok in H as (T4 & n2 & Hvis & [-> ->]%mret_spec).
  apply find_elem in Hw as Hw'. destruct Hw' as [Hwin Hwt].
  pose proof (distinct_siblings_children _ _ _ Hds Hwin) as Hdsw.
  apply distinct_siblings_unfold in Hdsw as (Hwlt & Hwnd & Hwcs).
  destruct (items_moved arp n0 n1 T1 w B (floor ++ [l4; l5]) Hds1)
    as (T3' & Hrun & Hds3 & Hcw3 & Hframe).
  { by rewrite Hwt. }
  { eapply Forall_impl; [exact Hwcs|]. cbn. intros c.
    apply distinct_siblings_lt. }
  { rewrite HcB, Forall_app. split.
    - rewrite relabel_children.
      eapply Forall_impl; [apply relabel_all_ge|]. cbn. intros; lia.
    - apply (Forall2_Forall_r _ (λ x, n0 ≤ eid x)) in Hparts; [done|].
      apply Forall_forall. intros v _ y. apply created_from_ge. }
  { by rewrite <- app_assoc. }
  rewrite Hrun in Hmove. injection Hmove as <- <-.
  exists T1, T3', T4, n1, w, B, floor, l4, l5, parts, A, S, extra.
  by split_and!.
Qed.

(** The two passes over the finished tree, seen from a child of the
    root. *)
Lemma finish_spec (rfr : bool) n1 T3 T4 n' :
  distinct_siblings n1 T3 →
  for_each_new_below "body" add_visual_geoms T3 n1 = Ok (T4, n') →
  n1 ≤ n'
  ∧ Forall (visual_geoms_in n1)
      (children (if rfr then for_each_below "body" remove_frc_ranges T4
                 else T4))
  ∧ ∀ i c, child i T3 = Ok c →
           ∃ c' k k',
             n1 ≤ k ∧ k' ≤ n'
             ∧ for_each_new "body" add_visual_geoms c k = Ok (c', k')
             ∧ child i (if rfr
                        then for_each_below "body" remove_frc_ranges T4
                        else T4)
               = Ok (if rfr then for_each "body" remove_frc_ranges c'
                     else c').
Proof.
  intros Hds Hrun.
  destruct (visual_below n1 T3 n1 (le_n _) Hds)
    as (cs' & n'' & Hrun' & Hle & Hds' & Hvis & Hall).
  rewrite Hrun in Hrun'. injection Hrun' as -> ->.
  split_and!; [done| |].
  - destruct rfr.
    + destruct T3 as [i t a cs].
      cbn [for_each_below with_children children].
      rewrite Forall_fmap.
      apply distinct_siblings_unfold in Hds' as (_ & _ & Hds').
      cbn [children] in Hds'. rewrite Forall_forall in Hds', Hvis.
      apply Forall_forall. intros c Hc. cbn.
      eapply frc_keeps_visual; [by apply Hds'|by apply Hvis].
    + by destruct T3.
  - intros i c Hc.
    destruct (child_Forall2
                (λ c c', tag c' = tag c ∧ attrib c' = attrib c
                   ∧ ∃ k k', n1 ≤ k ∧ k' ≤ n''
                       ∧ for_each_new "body" add_visual_geoms c k
                         = Ok (c', k'))
                i T3 (with_children cs' T3) c)
      as (c' & Hc' & _ & _ & k & k' & Hk & Hk' & Hrun'); [|done|].
    { by destruct T3. }
    exists c', k, k'. split_and!; [done..|].
    destruct rfr; [|done].
    rewrite child_for_each_below by apply remove_frc_ranges_same.
    by rewrite Hc'.
Qed.

(** *** [adapt_world] returns *)

Lemma find_append t c e :
  find t (append c e)
  = match find t e with
    | Some x => Some x
    | None => if decide (tag c = t) then Some c else None
    end.
Proof.
  unfold find, findall, append. destruct e as [i tg a cs].
  cbn [with_children children]. rewrite filter_app.
  destruct (filter _ cs); [|done]. cbn [app].
  rewrite filter_cons, filter_nil. by destruct (decide _).
Qed.

Lemma add_floor_assets_returns root n :
  find "asset" root ≠ None → ∃ r, add_floor_assets root n = Ok r.
Proof.
  intros H. unfold add_floor_assets.
  destruct (find "asset" root) as [asset|]; [|done]. by eexists.
Qed.

Lemma add_sections_returns root n :
  tag (to_xml (sensor_section (sensor_pos joint_loop) (sensor_vel joint_loop)
                 (sensor_frc joint_loop))) = "sensor" →
  ∃ r, add_sections to_xml root n = Ok r.
Proof.
  intros Ht.
  set (tA := to_xml (actuator_section (motors joint_loop))).
  set (tS := to_xml (sensor_section (sensor_pos joint_loop)
                       (sensor_vel joint_loop) (sensor_frc joint_loop))).
  assert (is_Some (find "sensor"
                     (append (relabel (relabel n tA).2 tS).1
                        (append (relabel n tA).1 root))))
    as [sensors Hs].
  { rewrite !find_append.
    destruct (find "sensor" root); [by eexists|].
    destruct (decide _); [by eexists|].
    rewrite decide_True; [by eexists|]. by rewrite relabel_tag. }
  eexists. unfold add_sections.
  apply bind_Ok. exists (relabel n tA).1, (relabel n tA).2. split; [done|].
  apply bind_Ok.
  exists (relabel (relabel n tA).2 tS).1, (relabel (relabel n tA).2 tS).2.
  split; [done|]. by rewrite Hs.
Qed.

Lemma in_turn_new_returns ts : ∀ k, ∃ r, in_turn new ts k = Ok r.
Proof.
  induction ts as [|t ts IH]; intros k; [by eexists|].
  destruct (IH (relabel k t).2) as [[xs k'] H].
  eexists. cbn [in_turn]. apply bind_Ok. eexists _, _. split; [done|].
  apply bind_Ok. eexists _, _. split; [exact H|done].
Qed.

Lemma make_root_body_returns k : ∃ r, make_root_body to_xml k = Ok r.
Proof.
  unfold make_root_body.
  destruct (in_turn_new_returns (to_xml <$> root_joints)
              (relabel k (to_xml root_body)).2) as [[joints k'] H].
  eexists. apply bind_Ok. eexists _, _. split; [done|].
  apply bind_Ok. eexists _, _. split; [exact H|].
  apply bind_Ok. eexists _, _. split; done.
Qed.

Lemma add_scene_returns (af : bool) wid B root k :
  ∃ r, add_scene to_xml af wid B root k = Ok r.
Proof.
  unfold add_scene. destruct af; eexists.
  - apply bind_Ok. eexists _, _. split; [done|].
    apply bind_Ok. eexists _, _. split; [done|].
    apply bind_Ok. eexists _, _. split; done.
  - apply bind_Ok. eexists _, _. split; [done|].
    apply bind_Ok. eexists _, _. split; done.
Qed.

Lemma add_defaults_returns root k : ∃ r, add_defaults to_xml root k = Ok r.
Proof.
  unfold add_defaults. eexists.
  apply bind_Ok. eexists _, _. split; [done|].
  apply bind_Ok. eexists _, _. split; [done|].
  apply bind_Ok. eexists _, _. split; [done|].
  apply bind_Ok. eexists _, _. split; done.
Qed.

Lemma build_world_returns self (af : bool) n0 :
  distinct_siblings n0 (tree self) →
  find "worldbody" (tree self) ≠ None →
  (af = true → find "asset" (tree self) ≠ None) →
  tag (to_xml (sensor_section (sensor_pos joint_loop) (sensor_vel joint_loop)
                 (sensor_frc joint_loop))) = "sensor" →
  ∃ r, build_world to_xml to_xml_into self af n0 = Ok r.
Proof.
  intros Hds Hw Hasset Hsensor. unfold build_world.
  assert (∃ root1 k1,
    (if af then add_floor_assets (tree self) else mret (tree self)) n0
    = Ok (root1, k1)) as (root1 & k1 & H1).
  { destruct af.
    - destruct (add_floor_assets_returns (tree self) n0) as [[r k] Hr];
        [by apply Hasset|]. by exists r, k.
    - by eexists _, _. }
  assert (n0 ≤ k1 ∧ distinct_siblings k1 root1
          ∧ find "worldbody" root1 = find "worldbody" (tree self))
    as (_ & Hds1 & Hf1).
  { destruct af.
    - by apply add_floor_assets_spec in H1.
    - by apply mret_spec in H1 as [-> ->]. }
  destruct (adapt_compiler_spec to_xml_into self root1 k1 Hds1) as [_ Hf2].
  destruct (find "worldbody" (tree self)) as [w|] eqn:Hfw; [|done].
  destruct (make_root_body_returns k1) as [[B k2] HB].
  destruct (add_scene_returns af (eid w) B
              (adapt_compiler to_xml_into self root1) k2) as [[r3 k3] H3].
  destruct (add_sections_returns r3 k3 Hsensor) as [[r4 k4] H4].
  destruct (add_defaults_returns r4 k4) as [[r5 k5] H5].
  eexists. apply bind_Ok. eexists _, _. split; [exact H1|].
  apply bind_Ok. exists w, k1. split.
  { by rewrite Hf2, Hf1. }
  apply bind_Ok. eexists _, _. split; [exact HB|].
  apply bind_Ok. eexists _, _. split; [exact H3|].
  apply bind_Ok. eexists _, _. split; [exact H4|].
  apply bind_Ok. eexists _, _. split; [exact H5|done].
Qed.

(** With a worldbody in the tree, an asset section when the floor is
    wanted, and a library whose sensor section is a [sensor],
    [adapt_world] returns. *)
Lemma adapt_world_returns self (af arp rfr : bool) n0 :
  distinct_siblings n0 (tree self) →
  find "worldbody" (tree self) ≠ None →
  (af = true → find "asset" (tree self) ≠ None) →
  tag (to_xml (sensor_section (sensor_pos joint_loop) (sensor_vel joint_loop)
                 (sensor_frc joint_loop))) = "sensor" →
  ∃ root' n',
    adapt_world to_xml to_xml_into str_float self af arp rfr n0
    = Ok (root', n').
Proof.
  intros Hds Hw Hasset Hsensor.
  destruct (build_world_returns self af n0 Hds Hw Hasset Hsensor)
    as [[[[[T1 wid] bid] items] n1] Hb].
  destruct (build_world_spec to_xml to_xml_into self af n0 T1 wid bid items
              n1 Hds Hb)
    as (w & B & floor & l4 & l5 & parts & A & S & S' & extra & Hfw & -> & ->
        & -> & HB & Hn1 & Hds1 & HtB & HaB & HcB & Hparts & Hl5 & Hl4 & Hfl
        & Hcw & _).
  apply find_elem in Hfw as [Hwin Hwt].
  pose proof (distinct_siblings_children _ _ _ Hds Hwin) as Hdsw.
  apply distinct_siblings_unfold in Hdsw as (Hwlt & Hwnd & Hwcs).
  destruct (items_moved arp n0 n1 T1 w B (floor ++ [l4; l5]) Hds1)
    as (T3 & Hrun & Hds3 & _).
  { by rewrite Hwt. }
  { eapply Forall_impl; [exact Hwcs|]. cbn. intros c.
    apply distinct_siblings_lt. }
  { rewrite HcB, Forall_app. split.
    - rewrite relabel_children.
      eapply Forall_impl; [apply relabel_all_ge|]. cbn. intros; lia.
    - apply (Forall2_Forall_r _ (λ x, n0 ≤ eid x)) in Hparts; [done|].
      apply Forall_forall. intros v _ y. apply created_from_ge. }
  { by rewrite <- app_assoc. }
  destruct (visual_below n1 T3 n1 (le_n _) Hds3)
    as (cs' & n' & Hvis & _).
  eexists _, n'. unfold adapt_world.
  apply bind_Ok. eexists _, _. split; [exact Hb|].
  apply bind_Ok. eexists _, _. split; [exact Hrun|].
  apply bind_Ok. eexists _, _. split; [exact Hvis|]. done.
Qed.

End Run.

(** ** The worldbody and the new root body at the end *)

Lemma in_turn_app_inv f xs ys n r n2 :
  in_turn f (xs ++ ys) n = Ok (r, n2) →
  ∃ xs' n1 ys',
    in_turn f xs n = Ok (xs', n1) ∧ in_turn f ys n1 = Ok (ys', n2)
    ∧ r = xs' ++ ys'.
Proof.
  revert n r. induction xs as [|x xs IH]; intros n r H.
  - by exists [], n, r.
  - cbn [app in_turn] in H. apply bind_Ok in H as (x' & k & Hx & H).
    apply bind_Ok in H as (r' & k' & H & [-> ->]%mret_spec).
    destruct (IH _ _ H) as (xs' & n1 & ys' & Hxs & Hys & ->).
    exists (x' :: xs'), n1, ys'. split_and!; [|done|done].
    cbn [in_turn]. apply bind_Ok. exists x', k. split; [done|].
    apply bind_Ok. by exists xs', n1.
Qed.






Lemma without_frc_ranges_passive flag e :
  passive e = true → without_frc_ranges flag e = e.
Proof.
  intros H. destruct flag; [|done]. cbn.
  rewrite passive_no_body by done. by apply passive_drop_frc_range.
Qed.


(** ** What the call leaves in the tree *)






Section AdaptWorld.
Context (to_xml : pyval → element).
Context (to_xml_into : pyval → dict (option string) → dict (option string)).
Context (str_float : float → string).


(** The visual geom logic reaches every body below the root, and what
    it leaves there survives the removal of the force ranges. *)
Lemma adapt_world_visual self (af arp rfr : bool) n0 root' n' :
  distinct_siblings n0 (tree self) →
  adapt_world to_xml to_xml_into str_float self af arp rfr n0
  = Ok (root', n') →
  ∀ body, body ∈ descendants root' → tag body = "body" →
          visual_geoms_at n0 body.
Proof.
  intros Hds Hrun.
  destruct (adapt_world_run _ _ _ _ _ _ _ _ _ _ Hds Hrun)
    as (T1 & T3 & T4 & n1 & w & B & floor & l4 & l5 & parts & A & S & extra
        & _ & _ & Hn1 & _ & _ & _ & _ & _ & _ & _ & _ & _ & _ & _ & _
        & Hds3 & _ & _ & Hvis & ->).
  destruct (finish_spec rfr n1 T3 T4 n' Hds3 Hvis) as (_ & Hall & _).
  intros body (c & Hc & Hin)%elem_of_descendants Ht.
  rewrite Forall_forall in Hall.
  by apply (visual_geoms_in_mono n0 n1 c Hn1 (Hall c Hc)).
Qed.



Lemma with_references_all_passive flag cs :
  Forall (λ c, passive c = true) cs →
  with_references str_float flag <$> cs = cs.
Proof.
  intros H. rewrite <- (list_fmap_id cs) at 2. apply Forall_fmap_ext_1.
  eapply Forall_impl; [exact H|]. cbn. intros c.
  apply with_references_passive.
Qed.





End AdaptWorld.

(** ** Serialization *)

Lemma tostring_unfold i tg a cs :
  tostring (Element i tg a cs)
  = (attribs ← write_attribs a;
     inner ← foldr (λ c rest, x ← tostring c; rest ← rest; Ok (x +:+ rest))
               (Ok EmptyString) cs;
     Ok (match cs with
         | [] => "<" +:+ tg +:+ attribs +:+ " />"
         | _ => "<" +:+ tg +:+ attribs +:+ ">" +:+ inner
                    +:+ "</" +:+ tg +:+ ">"
         end)).
Proof.
  cbn [tostring].
  assert (∀ l,
    (fix go (cs : list element) : result string :=
       match cs with
       | [] => Ok EmptyString
       | c :: cs => x ← tostring c; rest ← go cs; Ok (x +:+ rest)
       end) l
    = foldr (λ c rest, x ← tostring c; rest ← rest; Ok (x +:+ rest))
        (Ok EmptyString) l) as Hgo.
  { induction l as [|c l IH]; [done|]. cbn [foldr]. by rewrite IH. }
  by rewrite Hgo.
Qed.

Lemma write_attribs_total a :
  is_Ok (write_attribs a) ∨ write_attribs a = Raise TypeError.
Proof.
  induction a as [|[k [v|]] a IH]; cbn; [left; by eexists| |by right].
  destruct IH as [[s ->]| ->]; [|by right]. left. by eexists.
Qed.

Lemma write_attribs_None k a :
  (k, None) ∈ a → write_attribs a = Raise TypeError.
Proof.
  induction a as [|[k' [v|]] a IH]; intros H; cbn.
  - by apply elem_of_nil in H.
  - apply elem_of_cons in H as [[=]|H]. by rewrite IH.
  - done.
Qed.

Lemma tostring_total e :
  is_Ok (tostring e) ∨ tostring e = Raise TypeError.
Proof.
  induction e as [i tg a cs IH] using element_induction.
  rewrite tostring_unfold.
  destruct (write_attribs_total a) as [[attribs ->]| ->]; [|by right].
  cbn [mbind result_bind].
  assert (is_Ok (foldr (λ c rest, x ← tostring c; rest ← rest;
                                  Ok (x +:+ rest)) (Ok EmptyString) cs)
          ∨ foldr (λ c rest, x ← tostring c; rest ← rest; Ok (x +:+ rest))
              (Ok EmptyString) cs = Raise TypeError) as [[inner ->]| ->].
  { induction cs as [|c cs IHcs]; [left; by eexists|].
    apply Forall_cons in IH as [Hc IH]. cbn [foldr].
    destruct Hc as [[s ->]| ->]; [|by right]. cbn [mbind result_bind].
    destruct (IHcs IH) as [[s' ->]| ->]; [|by right].
    left. by eexists. }
  - left. by eexists.
  - by right.
Qed.

(** An attribute without a string value anywhere in the tree makes
    [tostring] raise. *)
Lemma tostring_None e x k :
  x ∈ e :: descendants e → (k, None) ∈ attrib x →
  tostring e = Raise TypeError.
Proof.
  revert x. induction e as [i tg a cs IH] using element_induction.
  intros x Hx Hk. rewrite tostring_unfold.
  apply elem_of_cons in Hx as [->|Hx].
  { cbn [attrib] in Hk. by rewrite (write_attribs_None k a). }
  destruct (write_attribs_total a) as [[attribs ->]| ->]; [|done].
  cbn [mbind result_bind].
  apply elem_of_descendants in Hx as (c & Hc & Hx). cbn [children] in Hc.
  assert (foldr (λ c rest, x ← tostring c; rest ← rest; Ok (x +:+ rest))
            (Ok EmptyString) cs = Raise TypeError) as ->; [|done].
  induction cs as [|c' cs IHcs]; [by apply elem_of_nil in Hc|].
  apply Forall_cons in IH as [Hc' IH]. cbn [foldr].
  apply elem_of_cons in Hc as [<-|Hc].
  - by rewrite (Hc' x Hx Hk).
  - destruct (tostring_total c') as [[s ->]| ->]; [|done].
    cbn [mbind result_bind]. by rewrite (IHcs IH Hc).
Qed.

Lemma descendants_child e x c :
  x ∈ e :: descendants e → c ∈ children x → c ∈ descendants e.
Proof.
  revert x c. induction e as [i tg a cs IH] using element_induction.
  intros x c [->|Hx]%elem_of_cons Hc.
  - apply elem_of_descendants. exists c. split; [done|by left].
  - apply elem_of_descendants in Hx as (y & Hy & Hx).
    apply elem_of_descendants. exists y. split; [done|]. right.
    rewrite Forall_forall in IH. by eapply IH.
Qed.

(** ** [save] after [adapt_world] *)

Lemma at_path_descendants path e x :
  path ≠ [] → at_path path e = Some x → x ∈ descendants e.
Proof.
  revert e. induction path as [|i path IH]; intros e Hne H; [done|].
  cbn [at_path] in H. destruct (children e !! i) as [c|] eqn:Hc; [|done].
  cbn in H. apply elem_of_descendants. exists c.
  split; [by eapply list_elem_of_lookup_2|].
  destruct path as [|j path]; [injection H as <-; by left|].
  right. by apply IH.
Qed.

Section Save.
Context (to_xml : pyval → element).
Context (to_xml_into : pyval → dict (option string) → dict (option string)).
Context (str_float : float → string).
Context (_pretty_print_xml : string → string).

(** C2 fails: when a body of the tree that [adapt_world] leaves has a
    geom from before the call without [type], [rgba] or [mesh], the new
    geom next to it has an attribute that is [None], and [save] raises
    [TypeError]. *)
Theorem save_raises_on_missing_attribute self (af arp rfr : bool) n0 root' n'
    body geom key :
  well_formed n0 (tree self) →
  adapt_world to_xml to_xml_into str_float self af arp rfr n0
  = Ok (root', n') →
  body ∈ descendants root' → tag body = "body" →
  geom ∈ children body → tag geom = "geom" → eid geom < n0 →
  key ∈ ["type"; "rgba"; "mesh"] → get key geom = None →
  save _pretty_print_xml {| tree := root'; compiler := compiler self |}
  = Raise TypeError.
Proof.
  intros Hds%well_formed_distinct_siblings Hrun Hbody Ht Hgeom Hg Hlt Hkey
         Hnone.
  apply list_elem_of_split in Hgeom as (before & after & Hcs).
  destruct (adapt_world_visual _ _ _ self af arp rfr n0 root' n' Hds Hrun
              body Hbody Ht before geom after Hcs Hg Hlt)
    as (_ & new_geom & after' & -> & _ & _ & _ & Ha).
  unfold save. cbn [tree].
  rewrite (tostring_None root' new_geom key); [done| |].
  - right. apply (descendants_child root' body); [by right|].
    rewrite Hcs. apply elem_of_app. right. right. by left.
  - rewrite Ha. unfold visual_copy_attrib.
    apply elem_of_app. left. rewrite <- Hnone.
    repeat (apply elem_of_cons in Hkey as [->|Hkey]);
      [by left|right; by left|right; right; by left|].
    by apply elem_of_nil in Hkey.
Qed.

End Save.

(** ** The sample robots *)





Lemma save_raises_on_missing_attribute_witness :
  save (λ s, s)
    {| tree := adapted_tree primitive_mjcf true false false;
       compiler := compiler (parsed primitive_mjcf) |}
  = Raise TypeError.
Proof.
  apply (save_raises_on_missing_attribute sample_to_xml sample_to_xml_into
           sample_str_float (λ s, s) (parsed primitive_mjcf)
           true false false (parsed_count primitive_mjcf)
           (adapted_tree primitive_mjcf true false false)
           (adapted_count primitive_mjcf true false false)
           (element_at [3; 3; 5]
              (adapted_tree primitive_mjcf true false false))
           (element_at [3; 3; 5; 0]
              (adapted_tree primitive_mjcf true false false))
           "mesh").
  - split; apply (bool_decide_unpack _); by vm_compute.
  - by vm_compute.
  - apply (at_path_descendants [3; 3; 5]); [done|by vm_compute].
  - by vm_compute.
  - apply (list_elem_of_lookup_2 _ 0). by vm_compute.
  - by vm_compute.
  - vm_compute. lia.
  - right. right. by left.
  - by vm_compute.
Defined.


End MjcfFacts.

(** * More on the reward dispatch *)

Module RewardsMore.
Import Rewards RewardsFacts.

Section More.
Context (prec emax : Z).
Context {mjxState : Type}.
Context (q_at : mjxState → Z → spec_float).
Context (subtree_com_at : mjxState → Z → Z → spec_float).
Context (jp_sum : list spec_float → spec_float).

Local Abbreviation get_reward_fn :=
  (get_reward_fn prec emax q_at subtree_com_at jp_sum).
Local Abbreviation dispatched :=
  (dispatched prec emax q_at subtree_com_at jp_sum).
Local Abbreviation keys_registered :=
  (keys_registered prec emax q_at subtree_com_at jp_sum).
Local Abbreviation registered :=
  (registered prec emax q_at subtree_com_at jp_sum).

Lemma mapM_result_app {A B} (f : A → result B) (pre : list A) x post ys e :
  mapM f pre = Ok ys → f x = Raise e → mapM f (pre ++ x :: post) = Raise e.
Proof.
  revert ys. induction pre as [|p pre IH]; intros ys; cbn.
  - intros _ ->. done.
  - destruct (f p); [|done]. cbn.
    destruct (mapM f pre) as [ys'|]; [|done]. cbn.
    intros _ Hx. by rewrite (IH ys').
Qed.

Lemma mapM_result_inv {A B} (f : A → result B) (l : list A) :
  is_Ok (mapM f l) → Forall (λ x, is_Ok (f x)) l.
Proof.
  induction l as [|x l IH]; cbn; [constructor|].
  destruct (f x) as [y|e] eqn:Hx; [|by intros [? [=]]]. cbn.
  destruct (mapM f l) as [k|e]; [|by intros [? [=]]].
  intros _. constructor; [by eexists|]. apply IH. by eexists.
Qed.

(** What a dispatched call returns as its health value. *)
Lemma dispatched_health dt state action next_state entry :
  registered entry.1 → (entry.1 = "rew_healthy" → has_bounds entry.2) →
  ∃ r,
    dispatched dt state action next_state entry
    = Ok (r, if entry_healthy (q_at state 2) entry then f1 prec emax else f0).
Proof.
  destruct entry as [key params]. cbn [fst snd].
  rewrite registered_iff. unfold Rewards.dispatched, dict_get, entry_healthy.
  cbn [fst snd].
  intros [-> | [-> | ->]] Hb; cbn; repeat case_decide; try congruence; cbn;
    try (by eexists).
  destruct Hb as [[lo Hlo] [hi Hhi]]; [done|].
  unfold healthy_reward_fn. rewrite Hlo, Hhi. cbn. eexists. f_equal. f_equal.
  unfold in_healthy_range, jp_where.
  by destruct (SFltb (q_at state 2) lo), (SFltb hi (q_at state 2)).
Qed.

Lemma health_product (Hfmt : jax_float prec emax) (bs : list bool) :
  ∀ b : bool,
    foldl (SFmul prec emax) (if b then f1 prec emax else f0)
      ((λ b : bool, if b then f1 prec emax else f0) <$> bs)
    = if b && forallb id bs then f1 prec emax else f0.
Proof.
  assert (SFmul prec emax (f1 prec emax) (f1 prec emax) = f1 prec emax
          ∧ SFmul prec emax (f1 prec emax) f0 = f0
          ∧ SFmul prec emax f0 (f1 prec emax) = f0
          ∧ SFmul prec emax f0 f0 = f0) as (H11 & H10 & H01 & H00).
  { unfold jax_float in Hfmt.
    repeat (apply elem_of_cons in Hfmt as [[= -> ->]|Hfmt];
            [by vm_compute|]).
    by apply elem_of_nil in Hfmt. }
  induction bs as [|c bs IH]; intros b; cbn [fmap list_fmap foldl forallb].
  - by rewrite andb_true_r.
  - destruct b, c; cbn [id andb]; rewrite ?H11, ?H10, ?H01, ?H00.
    + apply (IH true).
    + apply (IH false).
    + apply (IH false).
    + apply (IH false).
Qed.

(** X1: in the float formats of JAX, with every key registered and
    every [rew_healthy] entry carrying its bounds, the health value that
    [reward_fn] returns is exactly 1.0 when no [rew_healthy] entry finds
    the height [q[2]] below its lower or above its upper bound, and
    exactly 0.0 otherwise: the product of the health values never leaves
    these two values. *)
Theorem reward_fn_health (reward_params : RewardParams) (dt : spec_float)
    (include_reward_breakdown : bool)
    (state : mjxState) (action : list spec_float) (next_state : mjxState)
    (Hfmt : jax_float prec emax)
    (Hreg : keys_registered reward_params)
    (Hcomplete : params_complete reward_params) :
  ∃ reward breakdown,
    get_reward_fn reward_params dt include_reward_breakdown
      state action next_state
    = Ok (reward,
          if all_healthy (q_at state 2) reward_params then f1 prec emax
          else f0,
          breakdown).
Proof.
  unfold Rewards.get_reward_fn. rewrite reward_loop_unfold.
  assert (∃ rhs,
    mapM (dispatched dt state action next_state) reward_params = Ok rhs
    ∧ rhs.*2 = (λ b : bool, if b then f1 prec emax else f0)
               <$> (entry_healthy (q_at state 2) <$> reward_params))
    as (rhs & -> & Hh).
  { unfold Rewards.keys_registered, dict_keys in Hreg.
    rewrite Forall_fmap in Hreg. unfold params_complete in Hcomplete.
    clear -Hreg Hcomplete.
    induction reward_params as [|entry items IH]; [by exists []|].
    apply Forall_cons in Hreg as [Hr Hreg].
    apply Forall_cons in Hcomplete as [Hc Hcomplete].
    destruct (dispatched_health dt state action next_state entry Hr Hc)
      as [r Hd].
    destruct (IH Hreg Hcomplete) as (rhs & Hm & Hh).
    eexists (_ :: rhs). split.
    - cbn [mapM]. by rewrite Hd, Hm.
    - cbn [fmap list_fmap snd]. by rewrite <- Hh. }
  cbn. eexists _, _. do 2 f_equal. rewrite Hh.
  rewrite (health_product Hfmt _ true). cbn [andb]. unfold all_healthy.
  assert (forallb id (entry_healthy (q_at state 2) <$> reward_params)
          = forallb (entry_healthy (q_at state 2)) reward_params) as ->;
    [|done].
  clear. induction reward_params as [|e l IH]; [done|].
  cbn. by rewrite IH.
Qed.

(** X2: with every key registered, a [rew_healthy] entry without
    [healthy_z_lower] makes [reward_fn] raise [KeyError] for that key,
    whether or not the upper bound is there; with the lower bound and
    without [healthy_z_upper] it raises [KeyError] for the upper one. *)
Theorem missing_bound_raises (reward_params : RewardParams) (dt : spec_float)
    (include_reward_breakdown : bool)
    (state : mjxState) (action : list spec_float) (next_state : mjxState)
    (params : RewardDict)
    (Hreg : keys_registered reward_params)
    (Hkeys : NoDup (dict_keys reward_params))
    (Hentry : ("rew_healthy", params) ∈ reward_params)
    (Hmissing : ¬ has_bounds params) :
  get_reward_fn reward_params dt include_reward_breakdown
    state action next_state
  = Raise (KeyError (match healthy_z_lower params with
                     | Some _ => "healthy_z_upper"
                     | None => "healthy_z_lower"
                     end)).
Proof.
  unfold Rewards.get_reward_fn. rewrite reward_loop_unfold.
  apply list_elem_of_split in Hentry as (pre & post & ->).
  unfold Rewards.keys_registered, dict_keys in Hreg, Hkeys.
  rewrite fmap_app, fmap_cons in Hreg, Hkeys. cbn [fst] in Hreg, Hkeys.
  apply Forall_app in Hreg as [Hpre _].
  apply NoDup_app in Hkeys as (_ & Hdisj & _).
  destruct (mapM_result_Ok (dispatched dt state action next_state) pre)
    as [ys Hys].
  { rewrite Forall_fmap in Hpre. rewrite Forall_forall in Hpre.
    apply Forall_forall. intros entry Hin. apply dispatched_returns.
    - by apply Hpre.
    - intros Hk. destruct (Hdisj entry.1).
      + by apply list_elem_of_fmap_2.
      + rewrite Hk. by left. }
  rewrite (mapM_result_app _ pre _ post ys
             (KeyError (match healthy_z_lower params with
                        | Some _ => "healthy_z_upper"
                        | None => "healthy_z_lower"
                        end)) Hys); [done|].
  unfold Rewards.dispatched, dict_get. cbn.
  repeat case_decide; try congruence. cbn.
  unfold healthy_reward_fn, field_get, has_bounds in *.
  destruct (healthy_z_lower params), (healthy_z_upper params); cbn; try done.
  destruct Hmissing. by split.
Qed.

(** X3: [reward_fn] returns a triple exactly when every key of
    [reward_params] is registered and every [rew_healthy] entry has both
    bounds; no state, action or time step makes it raise or succeed
    otherwise. *)
Theorem reward_fn_returns_iff (reward_params : RewardParams)
    (dt : spec_float) (include_reward_breakdown : bool)
    (state : mjxState) (action : list spec_float) (next_state : mjxState) :
  is_Ok (get_reward_fn reward_params dt include_reward_breakdown
           state action next_state)
  ↔ keys_registered reward_params ∧ params_complete reward_params.
Proof.
  unfold Rewards.get_reward_fn. rewrite reward_loop_unfold. split.
  - intros H.
    assert (is_Ok (mapM (dispatched dt state action next_state)
                     reward_params)) as Hm.
    { destruct (mapM _ reward_params); [by eexists|by destruct H as [? [=]]]. }
    apply mapM_result_inv in Hm. rewrite Forall_forall in Hm.
    unfold Rewards.keys_registered, params_complete, dict_keys.
    rewrite Forall_fmap. split; apply Forall_forall; intros [key p] Hin;
      specialize (Hm _ Hin); unfold Rewards.dispatched in Hm;
      cbn [fst snd] in *.
    + apply dict_get_registered.
      cbn [fst]. destruct (dict_get _ key); [by eexists|by destruct Hm as [? [=]]].
    + intros ->. unfold dict_get in Hm. cbn in Hm.
      repeat case_decide; try congruence. cbn in Hm.
      unfold healthy_reward_fn, field_get, has_bounds in *.
      destruct (healthy_z_lower p), (healthy_z_upper p); cbn in Hm;
        try (by destruct Hm as [? [=]]); by split.
  - intros [Hreg Hc].
    destruct (mapM_result_Ok (dispatched dt state action next_state)
                reward_params) as [rhs ->]; [|by eexists].
    unfold Rewards.keys_registered, dict_keys in Hreg.
    rewrite Forall_fmap in Hreg. unfold params_complete in Hc.
    rewrite Forall_forall in Hreg, Hc. apply Forall_forall. intros entry Hin.
    apply dispatched_returns; [apply (Hreg entry Hin)|apply (Hc entry Hin)].
Qed.


End More.

Lemma default_params_complete : params_complete DEFAULT_REWARD_PARAMS.
Proof.
  unfold params_complete, DEFAULT_REWARD_PARAMS.
  repeat constructor; cbn; try discriminate; by eexists.
Defined.

Lemma reward_fn_health_witness :
  ∃ reward breakdown,
    get_reward_fn 24 128 sample_q_at sample_subtree_com_at sample_sum
      DEFAULT_REWARD_PARAMS sample_dt true
      sample_fallen sample_action sample_fallen
    = Ok (reward, S754_zero false, breakdown).
Proof.
  apply (reward_fn_health 24 128 sample_q_at sample_subtree_com_at sample_sum
           DEFAULT_REWARD_PARAMS sample_dt true
           sample_fallen sample_action sample_fallen).
  - unfold jax_float. right. right. by left.
  - exact default_keys_registered.
  - exact default_params_complete.
Defined.

Lemma missing_bound_raises_witness :
  get_reward_fn 24 128 sample_q_at sample_subtree_com_at sample_sum
    no_lower_params sample_dt false
    sample_before sample_action sample_after
  = Raise (KeyError "healthy_z_lower").
Proof.
  apply (missing_bound_raises 24 128 sample_q_at sample_subtree_com_at
           sample_sum no_lower_params sample_dt false
           sample_before sample_action sample_after
           {| weight := float_of_ratio 24 128 5 1;
              healthy_z_lower := None; healthy_z_upper := None |}).
  - unfold keys_registered, registered. cbn. repeat constructor.
  - apply (bool_decide_unpack _). by vm_compute.
  - right. by left.
  - intros [[? [=]] _].
Defined.


End RewardsMore.

(** * More on the MJCF adaptation *)

Module MjcfMore.
Import Mjcf MjcfFacts.

(** ** Dictionaries *)

Lemma dict_lookup_set {V} (d : dict V) k v :
  dict_lookup (dict_set d k v) k = Some v.
Proof.
  induction d as [|[k' v'] d IH]; cbn.
  - by rewrite decide_True.
  - destruct (decide (k' = k)) as [->|Hne]; cbn.
    + by rewrite decide_True.
    + by rewrite decide_False.
Qed.

Lemma dict_lookup_set_ne {V} (d : dict V) k k' v :
  k' ≠ k → dict_lookup (dict_set d k v) k' = dict_lookup d k'.
Proof.
  intros Hne. induction d as [|[k0 v0] d IH]; cbn.
  - by rewrite decide_False.
  - destruct (decide (k0 = k)) as [->|Hk]; cbn.
    + by rewrite !decide_False by done.
    + destruct (decide (k0 = k')); [done|apply IH].
Qed.

Lemma dict_set_set {V} (d : dict V) k v :
  dict_set (dict_set d k v) k v = dict_set d k v.
Proof.
  induction d as [|[k' v'] d IH]; cbn.
  - by rewrite decide_True.
  - destruct (decide (k' = k)) as [->|Hne]; cbn.
    + by rewrite decide_True.
    + by rewrite decide_False, IH.
Qed.

(** ** A pass that edits attributes only, seen from the elements *)

Lemma descendants_fmap (g : element → element) e :
  (∀ x, children (g x) = g <$> children x) →
  descendants (g e) = g <$> descendants e.
Proof.
  intros Hg. induction e as [i t a cs IH] using element_induction.
  rewrite (descendants_unfold (g _)), Hg. cbn [children].
  rewrite (descendants_unfold (Element i t a cs)). cbn [children].
  induction cs as [|c cs IHcs]; [done|].
  apply Forall_cons in IH as [Hc IH]. cbn. rewrite fmap_app. cbn.
  by rewrite Hc, (IHcs IH).
Qed.

Section Reference.
Context (str_float : float → string).

Lemma set_reference_attrib c :
  attrib (set_reference str_float c)
  = match get "name" c ≫= dict_lookup DEFAULT_STANDING with
    | Some x => dict_set (attrib c) "ref" (Some (str_float x))
    | None => attrib c
    end.
Proof. unfold set_reference. by destruct (_ ≫= _), c. Qed.

Lemma for_each_set_reference c :
  eid (for_each "joint" (set_reference str_float) c) = eid c
  ∧ tag (for_each "joint" (set_reference str_float) c) = tag c
  ∧ children (for_each "joint" (set_reference str_float) c)
    = for_each "joint" (set_reference str_float) <$> children c
  ∧ attrib (for_each "joint" (set_reference str_float) c)
    = if decide (tag c = "joint") then attrib (set_reference str_float c)
      else attrib c.
Proof.
  destruct (for_each_same "joint" (set_reference str_float) c) as [Hi Ht].
  { intros x. destruct (set_reference_same str_float x). tauto. }
  split_and!; [done|done| |].
  - apply for_each_children. intros x.
    by destruct (set_reference_same str_float x) as (_ & _ & ?).
  - destruct c as [i t a cs]. rewrite for_each_unfold. cbn [tag].
    destruct (decide _); [|done]. by rewrite !set_reference_attrib.
Qed.

Lemma descendants_add_reference_position root :
  descendants (add_reference_position str_float root)
  = for_each "joint" (set_reference str_float) <$> descendants root.
Proof.
  unfold add_reference_position, for_each_below.
  rewrite !descendants_unfold. destruct root as [i t a cs].
  cbn [children with_children].
  induction cs as [|c cs IH]; [done|]. cbn. rewrite fmap_app. cbn.
  rewrite IH. f_equal. f_equal.
  apply descendants_fmap. intros x. apply for_each_set_reference.
Qed.

(** X5: after [add_reference_position], every joint below the root
    whose name is a key of [DEFAULT_STANDING] has, at its place in the
    tree, the attribute [ref] set to [str] of the table's value. *)
Theorem reference_positions_set root i joint name x :
  descendants root !! i = Some joint →
  tag joint = "joint" → get "name" joint = Some name →
  dict_lookup DEFAULT_STANDING name = Some x →
  ∃ joint',
    descendants (add_reference_position str_float root) !! i = Some joint'
    ∧ eid joint' = eid joint
    ∧ get "ref" joint' = Some (str_float x).
Proof.
  intros Hi Ht Hname Hx. rewrite descendants_add_reference_position.
  rewrite list_lookup_fmap, Hi. eexists. split; [done|].
  destruct (for_each_set_reference joint) as (-> & _ & _ & Ha).
  split; [done|]. unfold get. rewrite Ha, decide_True by done.
  rewrite set_reference_attrib, Hname. cbn [mbind option_bind]. rewrite Hx.
  by rewrite dict_lookup_set.
Qed.

(** X6: [add_reference_position] changes nothing but [ref]
    attributes: the root is untouched, and below it the elements keep
    their order, their identities, their tags, the number of their
    children and every attribute other than [ref]; an element that is no
    joint, or whose name is no key of [DEFAULT_STANDING], keeps all its
    attributes. *)
Theorem reference_positions_frame root :
  eid (add_reference_position str_float root) = eid root
  ∧ tag (add_reference_position str_float root) = tag root
  ∧ attrib (add_reference_position str_float root) = attrib root
  ∧ Forall2
      (λ c c',
         eid c' = eid c ∧ tag c' = tag c
         ∧ length (children c') = length (children c)
         ∧ (∀ k, k ≠ "ref" → get k c' = get k c)
         ∧ (tag c ≠ "joint"
            ∨ get "name" c ≫= dict_lookup DEFAULT_STANDING = None →
            attrib c' = attrib c))
      (descendants root)
      (descendants (add_reference_position str_float root)).
Proof.
  split_and!; [by destruct root..|].
  rewrite descendants_add_reference_position. apply Forall2_fmap_r.
  apply Forall_Forall2_diag, Forall_forall. intros c _.
  unfold compose. cbn beta.
  destruct (for_each_set_reference c) as (-> & -> & -> & Ha).
  split_and!; [done|done|by rewrite length_fmap| |].
  - intros k Hk. unfold get. rewrite Ha. destruct (decide _); [|done].
    rewrite set_reference_attrib. destruct (_ ≫= _); [|done].
    by rewrite dict_lookup_set_ne.
  - intros [Ht|Hn]; rewrite Ha.
    + by rewrite decide_False.
    + destruct (decide _); [|done]. by rewrite set_reference_attrib, Hn.
Qed.

Lemma set_reference_twice c :
  set_reference str_float (set_reference str_float c)
  = set_reference str_float c.
Proof.
  unfold set_reference at 2 3.
  destruct (get "name" c ≫= dict_lookup DEFAULT_STANDING) as [x|] eqn:Hx.
  - unfold set_reference.
    assert (get "name" (set "ref" (Some (str_float x)) c) = get "name" c)
      as ->.
    { unfold get, set. destruct c. cbn. by rewrite dict_lookup_set_ne. }
    rewrite Hx. unfold set. destruct c. cbn. by rewrite dict_set_set.
  - unfold set_reference. by rewrite Hx.
Qed.

Lemma for_each_set_reference_twice e :
  for_each "joint" (set_reference str_float)
    (for_each "joint" (set_reference str_float) e)
  = for_each "joint" (set_reference str_float) e.
Proof.
  induction e as [i t a cs IH] using element_induction.
  assert (for_each "joint" (set_reference str_float)
            <$> (for_each "joint" (set_reference str_float) <$> cs)
          = for_each "joint" (set_reference str_float) <$> cs) as Hcs.
  { rewrite <- list_fmap_compose. apply Forall_fmap_ext_1.
    eapply Forall_impl; [exact IH|]. by cbn. }
  rewrite (for_each_unfold _ _ i t a cs).
  destruct (decide (t = "joint")) as [->|Ht].
  - destruct (set_reference_same str_float
                (Element i "joint" a
                   (for_each "joint" (set_reference str_float) <$> cs)))
      as (Hi & Htg & Hc).
    destruct (set_reference str_float (Element i "joint" a _))
      as [i' t' a' cs'] eqn:Heq.
    cbn in Hi, Htg, Hc. subst i' t' cs'.
    rewrite for_each_unfold, decide_True, Hcs by done.
    by rewrite <- Heq, set_reference_twice.
  - by rewrite for_each_unfold, decide_False, Hcs.
Qed.

(** X7: [add_reference_position] is idempotent: a second call leaves
    the tree as the first one left it. *)
Theorem add_reference_position_idempotent root :
  add_reference_position str_float (add_reference_position str_float root)
  = add_reference_position str_float root.
Proof.
  unfold add_reference_position, for_each_below, with_children.
  destruct root as [i t a cs]. cbn [children eid tag attrib]. f_equal.
  rewrite <- list_fmap_compose. apply list_fmap_ext. intros ? c ?. cbn.
  apply for_each_set_reference_twice.
Qed.

End Reference.

Lemma bind_Raise {A B} (m : M A) (f : A → M B) n e :
  m n = Raise e → (m ≫= f) n = Raise e.
Proof. unfold mbind, alloc_bind. by intros ->. Qed.

Lemma bind_Ok_Raise {A B} (m : M A) (f : A → M B) n a n1 e :
  m n = Ok (a, n1) → f a n1 = Raise e → (m ≫= f) n = Raise e.
Proof. unfold mbind, alloc_bind. by intros ->. Qed.

Lemma has_key_drop_frc_range c :
  has_key "actuatorfrcrange" (drop_frc_range c) = false.
Proof.
  unfold drop_frc_range. destruct (has_key _ c) eqn:H; [|done].
  unfold has_key, pop, with_attrib. destruct c as [i t a cs].
  cbn [attrib]. clear H.
  apply bool_decide_eq_false. intros [v Hv].
  induction a as [|[k w] a IH]; [done|].
  unfold dict in *. rewrite filter_cons in Hv. destruct (decide _) as [Hk|Hk].
  - cbn [dict_lookup fst] in Hv. cbn [fst] in Hk.
    rewrite decide_False in Hv by done. by apply IH.
  - by apply IH.
Qed.

Section Returns.
Context (to_xml : pyval → element).
Context (to_xml_into : pyval → dict (option string) → dict (option string)).
Context (str_float : float → string).

(** X8: [adapt_world] returns for every tree with a worldbody, and
    with an asset section when the floor is asked for, whatever the
    other flags are, when the library's sensor section is a [sensor]
    element. *)
Theorem adapt_world_returns_when self (af arp rfr : bool) n0 :
  well_formed n0 (tree self) →
  find "worldbody" (tree self) ≠ None →
  (af = true → find "asset" (tree self) ≠ None) →
  tag (to_xml (sensor_section (sensor_pos joint_loop) (sensor_vel joint_loop)
                 (sensor_frc joint_loop))) = "sensor" →
  ∃ root' n',
    adapt_world to_xml to_xml_into str_float self af arp rfr n0
    = Ok (root', n').
Proof.
  intros Hwf%well_formed_distinct_siblings. by apply adapt_world_returns.
Qed.

(** X9: with [add_floor] and no asset section in the tree,
    [adapt_world] raises [AttributeError]; with that excluded and no
    worldbody in the tree, it raises [TypeError]. *)
Theorem adapt_world_raises self (af arp rfr : bool) n0 :
  well_formed n0 (tree self) →
  (af = true → find "asset" (tree self) = None →
   adapt_world to_xml to_xml_into str_float self af arp rfr n0
   = Raise AttributeError)
  ∧ ((af = true → find "asset" (tree self) ≠ None) →
     find "worldbody" (tree self) = None →
     adapt_world to_xml to_xml_into str_float self af arp rfr n0
     = Raise TypeError).
Proof.
  intros Hds%well_formed_distinct_siblings. split.
  - intros -> Hasset. unfold adapt_world. apply bind_Raise.
    unfold build_world. apply bind_Raise. unfold add_floor_assets.
    apply bind_Raise. by rewrite Hasset.
  - intros Hasset Hw. unfold adapt_world. apply bind_Raise.
    unfold build_world.
    assert (∃ root1 k1,
      (if af then add_floor_assets (tree self) else mret (tree self)) n0
      = Ok (root1, k1)) as (root1 & k1 & H1).
    { destruct af.
      - destruct (add_floor_assets_returns (tree self) n0) as [[r k] Hr];
          [by apply Hasset|]. by exists r, k.
      - by eexists _, _. }
    assert (n0 ≤ k1 ∧ distinct_siblings k1 root1
            ∧ find "worldbody" root1 = find "worldbody" (tree self))
      as (_ & Hds1 & Hf1).
    { destruct af.
      - by apply add_floor_assets_spec in H1.
      - by apply mret_spec in H1 as [-> ->]. }
    destruct (adapt_compiler_spec to_xml_into self root1 k1 Hds1) as [_ Hf2].
    eapply bind_Ok_Raise; [exact H1|]. apply bind_Raise.
    by rewrite Hf2, Hf1, Hw.
Qed.

(** Below a tree that the removal of the force ranges has passed, no
    joint directly under a body has one. *)
Lemma frc_clean n e :
  distinct_siblings n e →
  ∀ body,
    body ∈ for_each "body" remove_frc_ranges e
           :: descendants (for_each "body" remove_frc_ranges e) →
    tag body = "body" →
    Forall (λ j, tag j = "joint" → has_key "actuatorfrcrange" j = false)
      (children body).
Proof.
  induction e as [i t a cs IH] using element_induction.
  intros (Hi & Hnd & Hds)%distinct_siblings_unfold body Hbody Htag.
  cbn [eid children] in *.
  assert (Hsub : ∀ c, c ∈ cs →
            body ∈ for_each "body" remove_frc_ranges c
                   :: descendants (for_each "body" remove_frc_ranges c) →
            Forall (λ j, tag j = "joint"
                         → has_key "actuatorfrcrange" j = false)
              (children body)).
  { intros c Hc Hin. rewrite Forall_forall in IH, Hds.
    by apply (IH c Hc (Hds c Hc)). }
  rewrite for_each_unfold in Hbody.
  destruct (decide (t = "body")) as [->|Ht].
  - rewrite remove_frc_ranges_spec in Hbody.
    2:{ rewrite <- list_fmap_compose.
        erewrite (list_fmap_ext _ eid); [exact Hnd|]. intros ? c ?. cbn.
        apply for_each_same, remove_frc_ranges_same. }
    apply elem_of_cons in Hbody as [->|Hbody].
    + cbn [children]. rewrite <- list_fmap_compose, Forall_fmap.
      apply Forall_forall. intros c _. cbn.
      destruct (decide _) as [Hj|Hj]; [|done].
      intros _. apply has_key_drop_frc_range.
    + apply elem_of_descendants in Hbody as (c' & Hc' & Hin).
      cbn [children] in Hc'. rewrite <- list_fmap_compose in Hc'.
      apply list_elem_of_fmap in Hc' as (c & -> & Hc). cbn in Hin.
      apply (Hsub c Hc). destruct (decide _) as [Hj|Hj]; [|done].
      destruct (drop_frc_range_same
                  (for_each "body" remove_frc_ranges c)) as (_ & Hdt & Hdc).
      apply elem_of_cons in Hin as [->|Hin]; [congruence|].
      right. by rewrite descendants_unfold, Hdc, <- descendants_unfold in Hin.
  - apply elem_of_cons in Hbody as [->|Hbody]; [done|].
    apply elem_of_descendants in Hbody as (c' & Hc' & Hin).
    cbn [children] in Hc'.
    apply list_elem_of_fmap in Hc' as (c & -> & Hc). by apply (Hsub c Hc).
Qed.

(** X10: after [adapt_world] with [remove_frc_range], no joint that
    is a child of a body below the root has an [actuatorfrcrange]
    attribute. *)
Theorem frc_ranges_removed self (af arp : bool) n0 root' n' :
  well_formed n0 (tree self) →
  adapt_world to_xml to_xml_into str_float self af arp true n0
  = Ok (root', n') →
  ∀ body join,
    body ∈ descendants root' → tag body = "body" →
    join ∈ children body → tag join = "joint" →
    has_key "actuatorfrcrange" join = false.
Proof.
  intros Hds%well_formed_distinct_siblings Hrun body join Hbody Ht Hj Htj.
  destruct (adapt_world_run _ _ _ _ _ _ _ _ _ _ Hds Hrun)
    as (T1 & T3 & T4 & n1 & w & B & floor & l4 & l5 & parts & A & S & extra
        & _ & _ & Hn1 & _ & _ & _ & _ & _ & _ & _ & _ & _ & _ & _ & _
        & Hds3 & _ & _ & Hvis & ->).
  destruct (visual_below n1 T3 n1 (le_n _) Hds3)
    as (cs' & n'' & Hvis' & _ & Hds4 & _).
  rewrite Hvis in Hvis'. injection Hvis' as -> ->.
  apply elem_of_descendants in Hbody as (c' & Hc' & Hin).
  apply distinct_siblings_unfold in Hds4 as (_ & _ & Hds4).
  destruct T3 as [i t a cs].
  cbn [for_each_below with_children children] in Hc', Hds4.
  apply list_elem_of_fmap in Hc' as (c & -> & Hc).
  rewrite Forall_forall in Hds4.
  pose proof (frc_clean n'' c (Hds4 c Hc) body Hin Ht) as Hall.
  rewrite Forall_forall in Hall. by apply Hall.
Qed.

End Returns.

(** ** Nothing is lost *)

Lemma descendants_trans e y x :
  y ∈ descendants e → x ∈ descendants y → x ∈ descendants e.
Proof.
  revert x. induction y as [i t a cs IH] using element_induction.
  intros x Hy (c & Hc & Hx)%elem_of_descendants. cbn [children] in Hc.
  assert (c ∈ descendants e) as Hce.
  { apply (descendants_child e (Element i t a cs)); [by right|done]. }
  apply elem_of_cons in Hx as [->|Hx]; [done|].
  rewrite Forall_forall in IH. by apply (IH c Hc).
Qed.

Lemma same_but_shape keys x x' :
  eid x' = eid x → tag x' = tag x → attrib x' = attrib x →
  same_but keys x x'.
Proof. intros Hi Ht Ha. split_and!; [done|done|]. intros _ k _. by rewrite Ha. Qed.

Lemma same_but_refl keys x : same_but keys x x.
Proof. by apply same_but_shape. Qed.

Lemma same_but_trans keys x1 x2 x3 :
  same_but keys x1 x2 → same_but keys x2 x3 → same_but keys x1 x3.
Proof.
  intros (Hi & Ht & Ha) (Hi' & Ht' & Ha').
  split_and!; [congruence|congruence|]. intros Hc k Hk.
  rewrite Ha' by (by rewrite Ht || done). by apply Ha.
Qed.

Lemma same_but_with_children keys cs x : same_but keys x (with_children cs x).
Proof. by apply same_but_shape; destruct x. Qed.

Lemma same_but_set keys k v x : k ∈ keys → same_but keys x (set k v x).
Proof.
  intros Hk. split_and!; [by destruct x..|]. intros _ k' Hk'.
  unfold set. cbn [with_attrib attrib]. apply dict_lookup_set_ne.
  by intros ->.
Qed.

Lemma dict_lookup_pop {V} (d : dict V) k k' :
  k' ≠ k → dict_lookup (filter (λ kv, kv.1 ≠ k) d) k' = dict_lookup d k'.
Proof.
  intros Hne. unfold dict in *. induction d as [|[k0 v0] d IH]; [done|].
  rewrite filter_cons. cbn [fst dict_lookup].
  destruct (decide (k0 ≠ k)) as [Hk|Hk].
  - cbn [dict_lookup]. by rewrite IH.
  - apply dec_stable in Hk as ->. by rewrite decide_False by done.
Qed.

Lemma same_but_pop keys k x : k ∈ keys → same_but keys x (pop k x).
Proof.
  intros Hk. split_and!; [by destruct x..|]. intros _ k' Hk'.
  unfold pop. cbn [with_attrib attrib]. apply dict_lookup_pop.
  by intros ->.
Qed.

Lemma same_but_mono keys keys' x x' :
  keys ⊆ keys' → same_but keys x x' → same_but keys' x x'.
Proof.
  intros Hk (Hi & Ht & Ha). split_and!; [done|done|].
  intros Hc k Hn. apply Ha; [done|]. intros Hin. by apply Hn, Hk.
Qed.

Lemma kept_refl keys e : kept keys e e.
Proof.
  split; [apply same_but_refl|]. intros x Hx. exists x.
  split; [done|apply same_but_refl].
Qed.

Lemma kept_trans keys e1 e2 e3 :
  kept keys e1 e2 → kept keys e2 e3 → kept keys e1 e3.
Proof.
  intros [Hr12 H12] [Hr23 H23]. split; [by eapply same_but_trans|].
  intros x Hx. destruct (H12 x Hx) as (x2 & Hx2 & H2).
  destruct (H23 x2 Hx2) as (x3 & Hx3 & H3).
  exists x3. split; [done|]. by eapply same_but_trans.
Qed.

Lemma kept_mono keys keys' e e' :
  keys ⊆ keys' → kept keys e e' → kept keys' e e'.
Proof.
  intros Hk [Hr H]. split; [by eapply same_but_mono|].
  intros x Hx. destruct (H x Hx) as (x' & Hx' & Hs).
  exists x'. split; [done|by eapply same_but_mono].
Qed.

Lemma kept_below keys e e' :
  same_but keys e e' →
  (∀ c, c ∈ children e → ∃ c', c' ∈ descendants e' ∧ kept keys c c') →
  kept keys e e'.
Proof.
  intros He Hcs. split; [done|]. intros x Hx.
  apply elem_of_descendants in Hx as (c & Hc & Hx).
  destruct (Hcs c Hc) as (c' & Hc' & Hr & Hk).
  apply elem_of_cons in Hx as [->|Hx].
  - by exists c'.
  - destruct (Hk x Hx) as (x' & Hx' & Hxx).
    exists x'. split; [|done]. by apply (descendants_trans e' c').
Qed.

Lemma kept_children keys e e' :
  same_but keys e e' →
  (∀ c, c ∈ children e → ∃ c', c' ∈ children e' ∧ kept keys c c') →
  kept keys e e'.
Proof.
  intros He Hcs. apply kept_below; [done|].
  intros c Hc. destruct (Hcs c Hc) as (c' & Hc' & Hk). exists c'.
  split; [|done]. apply elem_of_descendants. exists c'. split; [done|by left].
Qed.

Lemma kept_fmap keys (g : element → element) e :
  (∀ c, c ∈ children e → kept keys c (g c)) →
  kept keys e (with_children (g <$> children e) e).
Proof.
  intros Hg. apply kept_children; [apply same_but_with_children|].
  intros c Hc. exists (g c). split; [|by apply Hg].
  destruct e. cbn in *. by apply list_elem_of_fmap_2.
Qed.

Lemma kept_more keys cs e :
  (∀ c, c ∈ children e → c ∈ cs) → kept keys e (with_children cs e).
Proof.
  intros H. apply kept_children; [apply same_but_with_children|].
  intros c Hc. exists c. split; [|apply kept_refl].
  destruct e. cbn in *. by apply H.
Qed.

Lemma kept_at_child keys j f e :
  (∀ c, c ∈ children e → eid c = j → kept keys c (f c)) →
  kept keys e (at_child j f e).
Proof.
  intros Hf. apply kept_fmap. intros c Hc.
  destruct (decide _); [by apply Hf|apply kept_refl].
Qed.

Lemma kept_append keys c e : kept keys e (append c e).
Proof. apply kept_more. intros x Hx. apply elem_of_app. by left. Qed.

Lemma kept_extend keys cs e : kept keys e (extend cs e).
Proof. apply kept_more. intros x Hx. apply elem_of_app. by left. Qed.

Lemma kept_insert keys i c e : kept keys e (insert i c e).
Proof.
  apply kept_more. intros x Hx.
  rewrite <- (take_drop i (children e)) in Hx.
  apply elem_of_app in Hx as [Hx|Hx]; apply elem_of_app; [by left|].
  right. by right.
Qed.

Lemma kept_edit keys e e' :
  same_but keys e e' → children e' = children e → kept keys e e'.
Proof.
  intros He Hcs. apply kept_children; [done|].
  intros c Hc. exists c. split; [by rewrite Hcs|apply kept_refl].
Qed.

Lemma kept_set keys k v e : k ∈ keys → kept keys e (set k v e).
Proof.
  intros Hk. apply kept_edit; [by apply same_but_set|by destruct e].
Qed.

Lemma kept_pop keys k e : k ∈ keys → kept keys e (pop k e).
Proof.
  intros Hk. apply kept_edit; [by apply same_but_pop|by destruct e].
Qed.

Lemma kept_for_each keys t f e :
  (∀ x, kept keys x (f x)) → kept keys e (for_each t f e).
Proof.
  intros Hf. induction e as [i tg a cs IH] using element_induction.
  rewrite for_each_unfold.
  assert (kept keys (Element i tg a cs)
            (Element i tg a (for_each t f <$> cs))) as Hk.
  { apply kept_children; [by apply same_but_shape|]. cbn [children].
    intros c Hc.
    exists (for_each t f c). split; [by apply list_elem_of_fmap_2|].
    rewrite Forall_forall in IH. by apply IH. }
  destruct (decide _); [|done]. eapply kept_trans; [exact Hk|apply Hf].
Qed.

Lemma kept_in_turn keys f cs :
  Forall (λ c, ∀ k c' k', f c k = Ok (c', k') → kept keys c c') cs →
  ∀ k cs' k', in_turn f cs k = Ok (cs', k') →
              ∀ c, c ∈ cs → ∃ c', c' ∈ cs' ∧ kept keys c c'.
Proof.
  induction 1 as [|x xs Hx _ IH]; intros k cs' k' H c Hc.
  { by apply elem_of_nil in Hc. }
  cbn [in_turn] in H. apply bind_Ok in H as (x' & k1 & Hfx & H).
  apply bind_Ok in H as (xs' & k2 & Hxs & [-> ->]%mret_spec).
  apply elem_of_cons in Hc as [->|Hc].
  - exists x'. split; [by left|by eapply Hx].
  - destruct (IH _ _ _ Hxs c Hc) as (c' & Hc' & Hk).
    exists c'. split; [by right|done].
Qed.

Lemma kept_for_each_new keys t f e :
  (∀ x k x' k', f x k = Ok (x', k') → kept keys x x') →
  ∀ k e' k', for_each_new t f e k = Ok (e', k') → kept keys e e'.
Proof.
  intros Hf. induction e as [i tg a cs IH] using element_induction.
  intros k e' k' H. rewrite for_each_new_unfold in H.
  apply bind_Ok in H as (cs' & k1 & Hcs & H).
  assert (kept keys (Element i tg a cs) (Element i tg a cs')) as Hk.
  { apply kept_children; [by apply same_but_shape|]. cbn [children].
    by apply (kept_in_turn keys _ cs IH k cs' k1). }
  destruct (decide _).
  - eapply kept_trans; [exact Hk|by eapply Hf].
  - by apply mret_spec in H as [-> ->].
Qed.

Lemma kept_for_loop keys {A} (step : element → A → M element) xs :
  (∀ acc x k acc' k', step acc x k = Ok (acc', k') → kept keys acc acc') →
  ∀ acc k acc' k', for_loop step xs acc k = Ok (acc', k') →
                   kept keys acc acc'.
Proof.
  intros Hstep. induction xs as [|x xs IH]; intros acc k acc' k' H.
  - apply mret_spec in H as [-> ->]. apply kept_refl.
  - cbn [for_loop] in H. apply bind_Ok in H as (acc1 & k1 & H1 & H).
    eapply kept_trans; [by eapply Hstep|by eapply IH].
Qed.

Lemma kept_add_visual_geoms body k body' k' :
  add_visual_geoms body k = Ok (body', k') → kept ["class"] body body'.
Proof.
  unfold add_visual_geoms. apply kept_for_loop. clear.
  intros body g k body' k' H. unfold add_visual_geom in H.
  apply bind_Ok in H as (c & k1 & _ & H).
  apply bind_Ok in H as (new_geom & k2 & _ & H).
  apply bind_Ok in H as (i & k3 & _ & [-> ->]%mret_spec).
  eapply kept_trans; [|apply kept_insert].
  apply kept_at_child. intros x _ _. apply kept_set. by left.
Qed.

Lemma kept_remove_frc_ranges body :
  kept ["actuatorfrcrange"] body (remove_frc_ranges body).
Proof.
  unfold remove_frc_ranges. generalize (eid <$> findall "joint" body).
  intros js. revert body. induction js as [|j js IH]; intros body.
  - apply kept_refl.
  - cbn [foldl]. eapply kept_trans; [|apply IH].
    apply kept_at_child. intros x _ _. unfold drop_frc_range.
    destruct (has_key _ x); [|apply kept_refl].
    apply kept_pop. by left.
Qed.

Section Kept.
Context (to_xml : pyval → element).
Context (to_xml_into : pyval → dict (option string) → dict (option string)).
Context (str_float : float → string).

Lemma kept_with_references (flag : bool) c :
  kept (if flag then ["ref"] else []) c (with_references str_float flag c).
Proof.
  destruct flag; [|apply kept_refl]. apply kept_for_each. intros x.
  unfold set_reference. destruct (_ ≫= _); [|apply kept_refl].
  apply kept_set. by left.
Qed.

Lemma kept_add_floor_assets root k root' k' :
  add_floor_assets root k = Ok (root', k') → kept [] root root'.
Proof.
  unfold add_floor_assets. intros H.
  apply bind_Ok in H as (asset & k1 & _ & H).
  apply bind_Ok in H as (texture & k2 & _ & H).
  apply bind_Ok in H as (material & k3 & _ & H).
  apply bind_Ok in H as (material' & k4 & _ & [-> ->]%mret_spec).
  eapply kept_trans; [|apply kept_at_child; intros; apply kept_append].
  eapply kept_trans; [|apply kept_at_child; intros; apply kept_append].
  apply kept_at_child; intros; apply kept_append.
Qed.

Lemma kept_adapt_compiler self root k :
  distinct_siblings k root →
  kept [] root (adapt_compiler to_xml_into self root).
Proof.
  intros Hds. unfold adapt_compiler.
  destruct (compiler self), (find "compiler" root) as [el|] eqn:Hel;
    try apply kept_refl.
  apply find_elem in Hel as [Hin Ht].
  apply kept_at_child. intros c Hc Hid. apply kept_edit; [|by destruct c].
  rewrite (same_child (children root) c el);
    [|by eapply distinct_siblings_NoDup|done|done|done].
  split_and!; [by destruct el..|]. by rewrite Ht.
Qed.

Lemma kept_add_scene (af : bool) wid B root k root' k' :
  add_scene to_xml af wid B root k = Ok (root', k') → kept [] root root'.
Proof.
  unfold add_scene. intros H.
  apply bind_Ok in H as (l5 & k1 & _ & H).
  apply bind_Ok in H as (l4 & k2 & _ & H).
  assert (kept [] root
            (at_child wid (insert 0 l4)
               (at_child wid (insert 0 l5)
                  (at_child wid (append B) root)))) as Hk.
  { eapply kept_trans; [|apply kept_at_child; intros; apply kept_insert].
    eapply kept_trans; [|apply kept_at_child; intros; apply kept_insert].
    apply kept_at_child; intros; apply kept_append. }
  destruct af.
  - apply bind_Ok in H as (floor & k3 & _ & [-> ->]%mret_spec).
    eapply kept_trans; [exact Hk|].
    apply kept_at_child; intros; apply kept_insert.
  - by apply mret_spec in H as [-> ->].
Qed.

Lemma kept_add_sections root k root' k' :
  add_sections to_xml root k = Ok (root', k') → kept [] root root'.
Proof.
  unfold add_sections. intros H.
  apply bind_Ok in H as (A & k1 & _ & H).
  apply bind_Ok in H as (S & k2 & _ & H).
  apply bind_Ok in H as (sensors & k3 & _ & H).
  apply bind_Ok in H as (fq & k4 & _ & H).
  apply bind_Ok in H as (gy & k5 & _ & [-> ->]%mret_spec).
  eapply kept_trans; [|apply kept_at_child; intros; apply kept_extend].
  eapply kept_trans; [|apply kept_append]. apply kept_append.
Qed.

Lemma kept_add_defaults root k root' k' :
  add_defaults to_xml root k = Ok (root', k') → kept [] root root'.
Proof.
  unfold add_defaults. intros H.
  apply bind_Ok in H as (O & k1 & _ & H).
  apply bind_Ok in H as (vg & k2 & _ & H).
  apply bind_Ok in H as (sub & k3 & _ & H).
  apply bind_Ok in H as (D & k4 & _ & [-> ->]%mret_spec).
  eapply kept_trans; [|apply kept_insert]. apply kept_insert.
Qed.

Lemma kept_build_world self (af : bool) n0 T1 wid bid items n1 :
  distinct_siblings n0 (tree self) →
  build_world to_xml to_xml_into self af n0 = Ok ((T1, wid, bid, items), n1) →
  kept [] (tree self) T1.
Proof.
  unfold build_world. intros Hds H.
  apply bind_Ok in H as (root1 & k1 & H1 & H).
  apply bind_Ok in H as (w & k2 & _ & H).
  apply bind_Ok in H as (B & k3 & _ & H).
  apply bind_Ok in H as (root3 & k4 & H3 & H).
  apply bind_Ok in H as (root4 & k5 & H4 & H).
  apply bind_Ok in H as (root5 & k6 & H5 & H).
  apply mret_spec in H as [[= -> -> -> ->] ->].
  eapply kept_trans; [|by eapply kept_add_defaults].
  eapply kept_trans; [|by eapply kept_add_sections].
  eapply kept_trans; [|by eapply kept_add_scene].
  assert (distinct_siblings k1 root1 ∧ kept [] (tree self) root1)
    as [Hds1 Hk1].
  { destruct af.
    - split; [|by eapply kept_add_floor_assets].
      by apply add_floor_assets_spec in H1 as (_ & ? & _).
    - apply mret_spec in H1 as [-> ->]. split; [done|apply kept_refl]. }
  eapply kept_trans; [exact Hk1|by eapply kept_adapt_compiler].
Qed.

Lemma move_loop_root wid bid items :
  ∀ root k root' k',
    for_loop (move_item wid bid) items root k = Ok (root', k') →
    eid root' = eid root ∧ tag root' = tag root ∧ attrib root' = attrib root.
Proof.
  induction items as [|x items IH]; intros root k root' k' H.
  - by apply mret_spec in H as [-> ->].
  - cbn [for_loop] in H. apply bind_Ok in H as (r1 & k1 & H1 & H).
    destruct (IH _ _ _ _ H) as (-> & -> & ->). unfold move_item in H1.
    apply bind_Ok in H1 as (w & ? & _ & H1).
    apply bind_Ok in H1 as (c & ? & _ & H1).
    apply bind_Ok in H1 as (w' & ? & _ & [-> ->]%mret_spec).
    by destruct root.
Qed.

Lemma child_with_references (arp : bool) i T1 :
  child i (if arp then add_reference_position str_float T1 else T1)
  = with_references str_float arp <$> child i T1.
Proof.
  destruct arp.
  - apply child_for_each_below. intros x.
    destruct (set_reference_same str_float x). tauto.
  - by destruct (child i T1).
Qed.

(** The tree [T1] that [build_world] leaves, the tree [T2] after
    [add_reference_position], and the passes from there. *)
Lemma adapt_world_kept self (af arp rfr : bool) n0 root' n' :
  distinct_siblings n0 (tree self) →
  adapt_world to_xml to_xml_into str_float self af arp rfr n0
  = Ok (root', n') →
  ∃ T1,
    kept [] (tree self) T1
    ∧ kept ("class" :: if rfr then ["actuatorfrcrange"] else [])
        (if arp then add_reference_position str_float T1 else T1) root'.
Proof.
  intros Hds H. unfold adapt_world in H.
  apply bind_Ok in H as ([[[T1 wid] bid] items] & n1 & Hb & H).
  destruct (build_world_spec to_xml to_xml_into self af n0 T1 wid bid items
              n1 Hds Hb)
    as (w & B & floor & l4 & l5 & parts & A & S & S' & extra & Hw & -> & ->
        & -> & HB & Hn1 & Hds1 & HtB & HaB & HcB & Hparts & Hl5 & Hl4 & Hfl
        & Hcw & _).
  apply bind_Ok in H as (T3 & n1' & Hmove & H).
  apply bind_Ok in H as (T4 & n2 & Hvis & [-> ->]%mret_spec).
  apply find_elem in Hw as Hw'. destruct Hw' as [Hwin Hwt].
  pose proof (distinct_siblings_children _ _ _ Hds Hwin) as Hdsw.
  apply distinct_siblings_unfold in Hdsw as (Hwlt & Hwnd & Hwcs).
  destruct (items_moved str_float arp n0 n1 T1 w B (floor ++ [l4; l5]) Hds1)
    as (T3' & Hrun & Hds3 & Hcw3 & Hframe).
  { by rewrite Hwt. }
  { eapply Forall_impl; [exact Hwcs|]. cbn. intros c.
    apply distinct_siblings_lt. }
  { rewrite HcB, Forall_app. split.
    - rewrite relabel_children.
      eapply Forall_impl; [apply relabel_all_ge|]. cbn. intros; lia.
    - apply (Forall2_Forall_r _ (λ x, n0 ≤ eid x)) in Hparts; [done|].
      apply Forall_forall. intros v _ y. apply created_from_ge. }
  { by rewrite <- app_assoc. }
  rewrite Hrun in Hmove. injection Hmove as <- <-.
  exists T1. split; [by eapply kept_build_world|].
  set (T2 := if arp then add_reference_position str_float T1 else T1) in *.
  assert (Hds2 : distinct_siblings n1 T2).
  { unfold T2. destruct arp; [|done].
    apply distinct_siblings_for_each_below; [|done].
    apply set_reference_same. }
  apply (kept_trans _ _ T3').
  - apply (kept_mono []); [by intros ? ?%elem_of_nil|].
    destruct (move_loop_root _ _ _ _ _ _ _ Hrun) as (Hi & Ht & Ha).
    apply kept_children; [by apply same_but_shape|].
    intros c Hc.
    pose proof (distinct_siblings_NoDup _ _ Hds2) as Hnd2.
    pose proof (child_elem T2 c Hnd2 Hc) as Hcc.
    unfold T2 in Hcc. rewrite child_with_references in Hcc.
    destruct (decide (eid c = eid w)) as [Hcw'|Hne].
    + remember (with_children (floor ++ [l4; l5] ++ children w ++ [B]) w)
        as w1 eqn:Hw1.
      rewrite Hcw', Hcw in Hcc. injection Hcc as <-.
      apply child_Ok_elem in Hcw3 as [Hin3 _].
      eexists. split; [exact Hin3|].
      destruct (with_references_same str_float arp w1) as (HiR & HtR & HcR).
      assert (attrib (with_references str_float arp w1) = attrib w) as HaR.
      { destruct arp; [|by rewrite Hw1; destruct w]. unfold with_references.
        rewrite for_each_other_tag; [by rewrite Hw1; destruct w|].
        rewrite Hw1. destruct w; cbn in *; by rewrite Hwt. }
      apply kept_below.
      { apply same_but_shape; cbn [eid tag attrib];
          [rewrite HiR|rewrite HtR|done]; by rewrite Hw1; destruct w. }
      rewrite HcR. intros x (y & -> & Hy)%list_elem_of_fmap.
      rewrite Hw1 in Hy. destruct w as [wi wt wa wcs].
      cbn [with_children children eid tag attrib] in Hy |- *.
      assert (y ∈ floor ++ [l4; l5] ∨ y ∈ wcs ∨ y = B) as [Hy'|[Hy'|Hy']].
      { change (y ∈ floor ++ [l4; l5] ++ wcs ++ [B]) in Hy.
        rewrite !elem_of_app in Hy. rewrite elem_of_app.
        rewrite list_elem_of_singleton in Hy. tauto. }
      all: clear Hy; rename Hy' into Hy.
      * exists (with_references str_float arp y).
        split; [|apply kept_refl].
        apply elem_of_descendants. eexists. split; [|by left]. cbn.
        apply elem_of_app. left. by apply list_elem_of_fmap_2.
      * exists (with_references str_float arp y).
        split; [|apply kept_refl].
        apply elem_of_descendants. eexists. split.
        { cbn. apply elem_of_app. right. by left. }
        right. apply elem_of_descendants. eexists. split; [|by left].
        unfold extend, with_children. cbn. apply elem_of_app. right.
        by apply list_elem_of_fmap_2.
      * subst y. eexists. split; [|apply kept_extend].
        apply elem_of_descendants. eexists. split; [|by left]. cbn.
        apply elem_of_app. right. by left.
    + exists c. split; [|apply kept_refl].
      assert (child (eid c) T3' = Ok c) as Hc3 by by rewrite Hframe.
      by apply child_Ok_elem in Hc3 as [? _].
  - apply bind_Ok in Hvis as (cs' & k & Hcs & [-> ->]%mret_spec).
    apply (kept_trans _ _ (with_children cs' T3')).
    + apply (kept_mono ["class"]).
      { intros ? ->%list_elem_of_singleton. by left. }
      apply kept_children; [apply same_but_with_children|].
      intros c Hc. destruct T3' as [i t a cs]. cbn [children with_children].
      eapply (kept_in_turn _ _ cs); [|exact Hcs|exact Hc].
      apply Forall_forall. intros x _ k1 x' k1'.
      apply kept_for_each_new. apply kept_add_visual_geoms.
    + destruct rfr; [|apply kept_refl].
      apply (kept_mono ["actuatorfrcrange"]).
      { intros ? ->%list_elem_of_singleton. right. by left. }
      apply kept_fmap. intros c _. apply kept_for_each.
      apply kept_remove_frc_ranges.
Qed.

(** X11: [adapt_world] loses nothing and edits no other attributes
    than the script names: the root stays the root, and every element
    below it before the call is below it after the call, as the same
    object with the same tag and, unless it is a compiler element, with
    every attribute bound or absent as before, apart from [class], from
    [ref] under [add_reference_position] and from [actuatorfrcrange]
    under [remove_frc_range]. *)
Theorem adapt_world_keeps_elements self (af arp rfr : bool) n0 root' n' :
  well_formed n0 (tree self) →
  adapt_world to_xml to_xml_into str_float self af arp rfr n0
  = Ok (root', n') →
  same_but (edited_keys arp rfr) (tree self) root'
  ∧ ∀ x, x ∈ descendants (tree self) →
         ∃ x', x' ∈ descendants root' ∧ same_but (edited_keys arp rfr) x x'.
Proof.
  intros Hds%well_formed_distinct_siblings H.
  change (kept (edited_keys arp rfr) (tree self) root').
  destruct (adapt_world_kept _ _ _ _ _ _ _ Hds H) as (T1 & H1 & H2).
  apply (kept_trans _ _ T1).
  { eapply kept_mono; [|exact H1]. by intros ? ?%elem_of_nil. }
  apply (kept_trans _ _
           (if arp then add_reference_position str_float T1 else T1)).
  - apply (kept_mono (if arp then ["ref"] else [])).
    { unfold edited_keys. intros k Hk. apply elem_of_app. by left. }
    destruct arp; [|apply kept_refl].
    apply kept_fmap. intros c _.
    apply (kept_with_references true).
  - eapply kept_mono; [|exact H2]. unfold edited_keys. intros k Hk.
    apply elem_of_app. right. by destruct rfr.
Qed.

(** X12: with [add_reference_position], every joint below the root
    before the call whose name is a key of [DEFAULT_STANDING] is below
    the root after [adapt_world] with [ref] set to [str] of the table's
    value, whatever the other flags are. *)
Theorem adapt_world_sets_references self (af rfr : bool) n0 root' n'
    joint name v :
  well_formed n0 (tree self) →
  adapt_world to_xml to_xml_into str_float self af true rfr n0
  = Ok (root', n') →
  joint ∈ descendants (tree self) → tag joint = "joint" →
  get "name" joint = Some name → dict_lookup DEFAULT_STANDING name = Some v →
  ∃ joint',
    joint' ∈ descendants root' ∧ eid joint' = eid joint
    ∧ get "ref" joint' = Some (str_float v).
Proof.
  intros Hds%well_formed_distinct_siblings H Hj Ht Hname Hv.
  destruct (adapt_world_kept _ _ _ _ _ _ _ Hds H) as (T1 & [_ H1] & [_ H2]).
  destruct (H1 joint Hj) as (j1 & Hj1 & Hi1 & Ht1 & Ha1).
  assert (get "name" j1 = Some name) as Hname1.
  { unfold get in *. rewrite Ha1; [done|by rewrite Ht|by intros ?%elem_of_nil]. }
  rewrite Ht in Ht1.
  pose proof (list_elem_of_fmap_2 (for_each "joint" (set_reference str_float))
                _ _ Hj1) as Hj2.
  rewrite <- descendants_add_reference_position in Hj2.
  destruct (H2 _ Hj2) as (j3 & Hj3 & Hi3 & Ht3 & Ha3).
  destruct (for_each_set_reference str_float j1) as (Hi2 & Ht2 & _ & Ha2).
  exists j3. split_and!; [done|congruence|].
  unfold get. rewrite Ha3.
  - rewrite Ha2, decide_True by done.
    rewrite set_reference_attrib, Hname1. cbn [mbind option_bind].
    rewrite Hv. by rewrite dict_lookup_set.
  - by rewrite Ht2, Ht1.
  - destruct rfr; rewrite !elem_of_cons, elem_of_nil; naive_solver.
Qed.

End Kept.

(** ** What [adapt_world] adds to the sections of the root *)

Lemma created_from_leaf n k tg a :
  n ≤ k → created_from n (Element 0 tg a []) (Element k tg a []).
Proof. intros Hk. exists k. by split. Qed.

Lemma add_floor_assets_children root k root' k' :
  distinct_siblings k root →
  add_floor_assets root k = Ok (root', k') →
  ∃ asset new,
    find "asset" root = Some asset
    ∧ Forall2 (created_from k) floor_assets new
    ∧ child (eid asset) root' = Ok (extend new asset).
Proof.
  intros Hds H. unfold add_floor_assets in H.
  apply bind_Ok in H as (asset & k0 & [Ha ->]%not_none_spec & H).
  apply bind_Ok in H as (x1 & k1 & [-> ->]%new_element_spec & H).
  apply bind_Ok in H as (x2 & k2 & [-> ->]%new_element_spec & H).
  apply bind_Ok in H as (x3 & k3 & [-> ->]%new_element_spec & H).
  apply mret_spec in H as [-> ->].
  rewrite !at_child_compose by (intros; by rewrite eid_append).
  pose proof (distinct_siblings_NoDup _ _ Hds) as Hnd.
  exists asset,
    (zip_with (λ i t, Element i (tag t) (attrib t) []) [k; S k; S (S k)]
       floor_assets).
  split_and!; [done| |].
  - unfold floor_assets. cbn [zip_with tag attrib].
    repeat (constructor; [apply created_from_leaf; lia|]). constructor.
  - rewrite child_at_child_same by (intros; by rewrite !eid_append).
    rewrite (child_find "asset") by done. cbn. f_equal.
    unfold extend, append, with_children. destruct asset. cbn.
    by rewrite <- !app_assoc.
Qed.

Section Additions.
Context (to_xml : pyval → element).
Context (to_xml_into : pyval → dict (option string) → dict (option string)).
Context (str_float : float → string).

Lemma adapt_compiler_child self root k i c :
  distinct_siblings k root → child i root = Ok c → tag c ≠ "compiler" →
  child i (adapt_compiler to_xml_into self root) = Ok c.
Proof.
  intros Hds Hc Ht. unfold adapt_compiler.
  destruct (compiler self) as [v|]; [|done].
  destruct (find "compiler" root) as [el|] eqn:Hel; [|done].
  rewrite child_at_child_other; [done|by intros []|].
  apply find_elem in Hel as [Hel Htel].
  apply child_Ok_elem in Hc as [Hc <-].
  apply (other_tag_other_child (children root));
    [by eapply distinct_siblings_NoDup|done|done|by rewrite Htel].
Qed.

Lemma add_sections_imu root k root' k' :
  distinct_siblings k root →
  add_sections to_xml root k = Ok (root', k') →
  children root' ≠ []
  ∧ ∃ sensors new,
      tag sensors = "sensor"
      ∧ Forall2 (created_from k) imu_sensors new
      ∧ child (eid sensors) root' = Ok (extend new sensors)
      ∧ eid sensors < k'.
Proof.
  intros Hds H. unfold add_sections in H.
  apply bind_Ok in H as (A & k1 & HA & H).
  apply new_spec in HA as (HA & Hk1 & Hlt1 & HidA & _ & _ & HdsA).
  apply bind_Ok in H as (S & k2 & HS & H).
  apply new_spec in HS as (HS & Hk2 & Hlt2 & HidS & _ & _ & HdsS).
  apply bind_Ok in H as (sensors & k3 & [Hfind ->]%not_none_spec & H).
  apply bind_Ok in H as (fq & k4 & [-> ->]%new_element_spec & H).
  apply bind_Ok in H as (gy & k5 & [-> ->]%new_element_spec & H).
  apply mret_spec in H as [-> ->].
  set (root2 := append S (append A root)) in *.
  assert (Hds2 : distinct_siblings k2 root2).
  { apply (distinct_siblings_append k1); [|lia|lia|done].
    apply (distinct_siblings_append k); [done|lia|lia|done]. }
  pose proof (distinct_siblings_NoDup _ _ Hds2) as Hnd2.
  pose proof (child_find _ _ _ Hnd2 Hfind) as Hchild.
  apply find_elem in Hfind as [Hsin Hst]. split.
  - unfold at_child, with_children. cbn [children].
    intros Hnil%fmap_nil_inv. rewrite Hnil in Hsin.
    by apply elem_of_nil in Hsin.
  - exists sensors,
      (zip_with (λ i t, Element i (tag t) (attrib t) []) [k2; Datatypes.S k2]
         imu_sensors).
    split_and!; [done| | |].
    + unfold imu_sensors. cbn [zip_with tag attrib].
      repeat (constructor; [apply created_from_leaf; lia|]). constructor.
    + rewrite child_at_child_same by (intros; apply eid_extend).
      by rewrite Hchild.
    + apply (distinct_siblings_children _ _ _ Hds2),
        distinct_siblings_lt in Hsin. lia.
Qed.

Lemma add_defaults_children root k root' k' c0 rest :
  children root = c0 :: rest →
  add_defaults to_xml root k = Ok (root', k') →
  ∃ D O visual_geom,
    children root' = c0 :: D :: O :: rest
    ∧ created_from k (to_xml option_section) O
    ∧ created_from k visual_geom_default visual_geom
    ∧ created_from k (to_xml (default_section visual_geom)) D.
Proof.
  intros Hcs H. unfold add_defaults in H.
  apply bind_Ok in H as (o & k1 & Ho & H).
  apply new_spec in Ho as (Ho & Hk1 & Hlt1 & Hido & _ & _ & Hdso).
  apply bind_Ok in H as (v & k2 & [-> ->]%new_element_spec & H).
  apply bind_Ok in H as (g & k3 & [-> ->]%new_element_spec & H).
  apply bind_Ok in H as (d & k4 & Hd & H).
  apply new_spec in Hd as (Hd & Hk4 & Hlt4 & Hidd & _ & _ & Hdsd).
  apply mret_spec in H as [-> ->].
  eexists d, o, _. split_and!.
  - unfold insert, with_children. cbn [children]. by rewrite Hcs.
  - exists k. by split.
  - exists k1. split; [lia|]. reflexivity.
  - exists (S (S k1)). split; [lia|]. exact Hd.
Qed.

(** The root after [build_world]: the additions to its sections. *)
Lemma build_world_additions self (af : bool) n0 T1 wid bid items n1 :
  distinct_siblings n0 (tree self) →
  build_world to_xml to_xml_into self af n0 = Ok ((T1, wid, bid, items), n1) →
  (af = true →
   ∃ asset new,
     find "asset" (tree self) = Some asset
     ∧ Forall2 (created_from n0) floor_assets new
     ∧ eid asset ≠ wid
     ∧ child (eid asset) T1 = Ok (extend new asset))
  ∧ (∃ sensors new,
       tag sensors = "sensor"
       ∧ Forall2 (created_from n0) imu_sensors new
       ∧ eid sensors ≠ wid
       ∧ child (eid sensors) T1 = Ok (extend new sensors))
  ∧ ∃ c0 rest D O visual_geom,
      children T1 = c0 :: D :: O :: rest
      ∧ created_from n0 (to_xml option_section) O
      ∧ created_from n0 visual_geom_default visual_geom
      ∧ created_from n0 (to_xml (default_section visual_geom)) D.
Proof.
  intros Hds H. unfold build_world in H.
  apply bind_Ok in H as (root1 & k1 & H1 & H).
  assert (n0 ≤ k1 ∧ distinct_siblings k1 root1
          ∧ find "worldbody" root1 = find "worldbody" (tree self))
    as (Hk1 & Hds1 & Hf1).
  { destruct af.
    - by apply add_floor_assets_spec in H1.
    - by apply mret_spec in H1 as [-> ->]. }
  destruct (adapt_compiler_spec to_xml_into self root1 k1 Hds1) as [Hds2 Hf2].
  apply bind_Ok in H as (w & k2 & [Hw ->]%not_none_spec & H).
  pose proof (distinct_siblings_NoDup _ _ Hds2) as Hnd2.
  pose proof (child_find _ _ _ Hnd2 Hw) as Hcw.
  apply find_elem in Hw as Hw'. destruct Hw' as [Hwin Hwt].
  apply bind_Ok in H as (B & k3 & HB & H).
  apply make_root_body_spec in HB
    as (Hk3 & HidB & HtB & HaB & HdsB & parts & HcB & Hparts).
  apply bind_Ok in H as (root3 & k4 & H3 & H).
  eapply add_scene_spec in H3; [|exact Hds2|lia|exact Hcw|lia|exact HdsB].
  destruct H3 as (Hk4 & Hds3 & Hframe3 & H3).
  apply bind_Ok in H as (root4 & k5 & H4 & H).
  pose proof H4 as H4'. apply add_sections_spec in H4'; [|exact Hds3].
  destruct H4' as (Hk5 & Hds4 & Hkeep4 & _).
  apply add_sections_imu in H4 as (Hne4 & sensors & imu & Hts & Himu & Hcs
                                   & Hslt); [|exact Hds3].
  apply bind_Ok in H as (root5 & k6 & H5 & H).
  pose proof H5 as H5'. apply add_defaults_spec in H5'; [|exact Hds4].
  destruct H5' as (Hk6 & Hds5 & Hframe5).
  apply mret_spec in H as [[= -> -> -> ->] ->].
  destruct H3 as (floor & l4 & l5 & _ & _ & _ & Hcw3).
  pose proof (distinct_siblings_NoDup _ _ Hds4) as Hnd4.
  assert (Hcw4 : child (eid w) root4
                 = Ok (with_children
                         (floor ++ [l4; l5] ++ children w ++ [B]) w)).
  { apply Hkeep4; [done|]. destruct w. cbn in *. by rewrite Hwt. }
  apply child_Ok_elem in Hcw4 as [Hw4 _].
  split_and!.
  - intros ->.
    apply add_floor_assets_children in H1
      as (asset & new & Hasset & Hnew & Hca); [|done].
    apply find_elem in Hasset as Ha'. destruct Ha' as [Hain Hat].
    assert (eid asset ≠ eid w) as Hne.
    { assert (find "worldbody" (tree self) = Some w) as Hfw
        by by rewrite <- Hf1, <- Hf2.
      apply find_elem in Hfw as [Hwin0 _].
      apply (other_tag_other_child (children (tree self)));
        [by eapply distinct_siblings_NoDup|done|done|by rewrite Hat, Hwt]. }
    exists asset, new. split_and!; [done|done|done|].
    rewrite Hframe5.
    2:{ apply (distinct_siblings_children _ _ _ Hds),
          distinct_siblings_lt in Hain. lia. }
    apply Hkeep4; [|destruct asset; cbn in *; by rewrite Hat].
    rewrite Hframe3 by done.
    apply (adapt_compiler_child self root1 k1); [done|done|].
    destruct asset; cbn in *; by rewrite Hat.
  - exists sensors, imu. split_and!; [done| | |].
    + eapply Forall2_impl; [exact Himu|]. intros t x.
      apply created_from_mono. lia.
    + apply child_Ok_elem in Hcs as [Hsin _].
      rewrite <- (eid_extend imu sensors).
      assert (eid (with_children (floor ++ [l4; l5] ++ children w ++ [B]) w)
              = eid w) as <- by by destruct w.
      apply (other_tag_other_child (children root4)); [done|done|done|].
      destruct sensors, w. cbn in *. by rewrite Hts, Hwt.
    + by rewrite Hframe5.
  - destruct (children root4) as [|c0 rest] eqn:Hcs4; [done|].
    destruct (add_defaults_children _ _ _ _ c0 rest Hcs4 H5)
      as (D & O & vg & Hc5 & HO & Hvg & HD).
    exists c0, rest, D, O, vg. split_and!; [done|..];
      (eapply created_from_mono; [|eassumption]; lia).
Qed.

(** *** The passes at a child of the root *)

Lemma add_visual_geoms_same body k body' k' :
  add_visual_geoms body k = Ok (body', k') →
  eid body' = eid body ∧ tag body' = tag body.
Proof.
  unfold add_visual_geoms. generalize (eid <$> findall "geom" body).
  intros gs. revert body k. induction gs as [|g gs IH]; intros body k H.
  - by apply mret_spec in H as [-> ->].
  - cbn [for_loop] in H. apply bind_Ok in H as (b1 & k1 & H1 & H).
    destruct (IH _ _ H) as [-> ->]. unfold add_visual_geom in H1.
    apply bind_Ok in H1 as (c & ? & _ & H1).
    apply bind_Ok in H1 as (new_geom & ? & _ & H1).
    apply bind_Ok in H1 as (i & ? & _ & [-> ->]%mret_spec).
    by destruct body.
Qed.

Lemma for_each_new_same e k e' k' :
  for_each_new "body" add_visual_geoms e k = Ok (e', k') →
  eid e' = eid e ∧ tag e' = tag e.
Proof.
  destruct e as [i tg a cs]. rewrite for_each_new_unfold.
  intros (cs' & k1 & _ & H)%bind_Ok. destruct (decide _).
  - by apply add_visual_geoms_same in H.
  - by apply mret_spec in H as [-> ->].
Qed.

Lemma in_turn_same_ids cs :
  ∀ k cs' k',
    in_turn (for_each_new "body" add_visual_geoms) cs k = Ok (cs', k') →
    eid <$> cs' = eid <$> cs.
Proof.
  induction cs as [|c cs IH]; intros k cs' k' H.
  - by apply mret_spec in H as [-> ->].
  - cbn [in_turn] in H. apply bind_Ok in H as (c' & k1 & Hc & H).
    apply bind_Ok in H as (cs1 & k2 & Hcs & [-> ->]%mret_spec).
    apply for_each_new_same in Hc as [Hi _]. cbn.
    by rewrite Hi, (IH _ _ _ Hcs).
Qed.

Lemma at_child_same_ids j f e :
  (∀ c, eid c = j → eid (f c) = j) →
  eid <$> children (at_child j f e) = eid <$> children e.
Proof.
  intros Hf. unfold at_child. destruct e as [i t a cs]. cbn [children with_children].
  rewrite <- list_fmap_compose. apply list_fmap_ext. intros ? c ?. cbn.
  destruct (decide _) as [Hc|]; [|done]. by rewrite Hf.
Qed.

Lemma move_loop_same_ids wid bid items :
  ∀ root k root' k',
    for_loop (move_item wid bid) items root k = Ok (root', k') →
    eid <$> children root' = eid <$> children root.
Proof.
  induction items as [|x items IH]; intros root k root' k' H.
  - by apply mret_spec in H as [-> ->].
  - cbn [for_loop] in H. apply bind_Ok in H as (r1 & k1 & H1 & H).
    rewrite (IH _ _ _ _ H). unfold move_item in H1.
    apply bind_Ok in H1 as (w & ? & Hw & H1).
    apply bind_Ok in H1 as (c & ? & _ & H1).
    apply bind_Ok in H1 as (w' & ? & Hw' & [-> ->]%mret_spec).
    unfold lift in Hw. destruct (child wid root) as [w0|] eqn:Hcw; [|done].
    injection Hw as -> ->. apply child_Ok_elem in Hcw as [_ Hwid].
    unfold lift, remove in Hw'. destruct (index x w); [|done].
    cbn in Hw'. injection Hw' as <- <-.
    rewrite !at_child_same_ids; [done|..].
    + intros c0 _. by destruct w.
    + intros c0 Hc0. by destruct c0.
Qed.

Lemma adapt_world_passes self (af arp rfr : bool) n0 root' n' :
  distinct_siblings n0 (tree self) →
  adapt_world to_xml to_xml_into str_float self af arp rfr n0
  = Ok (root', n') →
  ∃ T1 wid bid items n1,
    build_world to_xml to_xml_into self af n0 = Ok ((T1, wid, bid, items), n1)
    ∧ n0 ≤ n1 ∧ wid < n0
    ∧ eid <$> children root' = eid <$> children T1
    ∧ NoDup (eid <$> children root')
    ∧ ∀ i c, i ≠ wid → child i T1 = Ok c →
        ∃ c' k k',
          for_each_new "body" add_visual_geoms
            (with_references str_float arp c) k = Ok (c', k')
          ∧ child i root'
            = Ok (if rfr then for_each "body" remove_frc_ranges c' else c').
Proof.
  intros Hds H. unfold adapt_world in H.
  apply bind_Ok in H as ([[[T1 wid] bid] items] & n1 & Hb & H).
  destruct (build_world_spec to_xml to_xml_into self af n0 T1 wid bid items
              n1 Hds Hb)
    as (w & B & floor & l4 & l5 & parts & A & S & S' & extra & Hw & -> & ->
        & -> & HB & Hn1 & Hds1 & HtB & HaB & HcB & Hparts & Hl5 & Hl4 & Hfl
        & Hcw & _).
  apply bind_Ok in H as (T3 & n1' & Hmove & H).
  apply bind_Ok in H as (T4 & n2 & Hvis & [-> ->]%mret_spec).
  apply find_elem in Hw as Hw'. destruct Hw' as [Hwin Hwt].
  pose proof (distinct_siblings_children _ _ _ Hds Hwin) as Hdsw.
  apply distinct_siblings_unfold in Hdsw as (Hwlt & Hwnd & Hwcs).
  destruct (items_moved str_float arp n0 n1 T1 w B (floor ++ [l4; l5]) Hds1)
    as (T3' & Hrun & Hds3 & Hcw3 & Hframe).
  { by rewrite Hwt. }
  { eapply Forall_impl; [exact Hwcs|]. cbn. intros c.
    apply distinct_siblings_lt. }
  { rewrite HcB, Forall_app. split.
    - rewrite relabel_children.
      eapply Forall_impl; [apply relabel_all_ge|]. cbn. intros; lia.
    - apply (Forall2_Forall_r _ (λ x, n0 ≤ eid x)) in Hparts; [done|].
      apply Forall_forall. intros v _ y. apply created_from_ge. }
  { by rewrite <- app_assoc. }
  rewrite Hrun in Hmove. injection Hmove as <- <-.
  destruct (finish_spec rfr n1 T3' T4 n2 Hds3 Hvis) as (_ & _ & Hfin).
  assert (eid <$> children (if rfr
                            then for_each_below "body" remove_frc_ranges T4
                            else T4)
          = eid <$> children T1) as Hids.
  { apply move_loop_same_ids in Hrun.
    apply bind_Ok in Hvis as (cs' & k & Hcs & [-> ->]%mret_spec).
    apply in_turn_same_ids in Hcs.
    transitivity (eid <$> cs').
    - destruct rfr; [|by destruct T3'].
      destruct T3'. cbn [for_each_below with_children children].
      rewrite <- list_fmap_compose. apply list_fmap_ext. intros ? c ?.
      cbn. apply for_each_same, remove_frc_ranges_same.
    - rewrite Hcs, Hrun. destruct arp; [|done].
      unfold add_reference_position, for_each_below. destruct T1.
      cbn [with_children children]. rewrite <- list_fmap_compose.
      apply list_fmap_ext. intros ? c ?. cbn.
      apply for_each_same. intros x.
      destruct (set_reference_same str_float x). tauto. }
  exists T1, (eid w), (eid B), (eid <$> children w), n1.
  split_and!; [done|done|done|done| |].
  - rewrite Hids. by eapply distinct_siblings_NoDup.
  - intros i c Hi Hc.
    assert (child i T3' = Ok (with_references str_float arp c)) as Hc3
      by by rewrite Hframe, Hc.
    destruct (Hfin _ _ Hc3) as (c' & k & k' & _ & _ & Hrun' & Hc').
    by exists c', k, k'.
Qed.

(** An element that is neither a body nor a joint, with passive last
    children: the passes leave these where they are. *)
Lemma suffix_passes (arp rfr : bool) i tg a old suf k c' k' :
  tg ≠ "body" → tg ≠ "joint" → Forall (λ x, passive x = true) suf →
  for_each_new "body" add_visual_geoms
    (with_references str_float arp (Element i tg a (old ++ suf))) k
  = Ok (c', k') →
  ∃ old',
    (if rfr then for_each "body" remove_frc_ranges c' else c')
    = Element i tg a (old' ++ suf)
    ∧ eid <$> old' = eid <$> old.
Proof.
  intros Hb Hj Hsuf H.
  assert (with_references str_float arp (Element i tg a (old ++ suf))
          = Element i tg a
              ((with_references str_float arp <$> old) ++ suf)) as Heq.
  { destruct arp; unfold with_references.
    - rewrite for_each_other_tag by done. cbn [eid tag attrib children].
      rewrite fmap_app. f_equal. f_equal.
      apply (with_references_all_passive str_float true _ Hsuf).
    - by rewrite list_fmap_id. }
  rewrite Heq in H. rewrite for_each_new_unfold in H.
  apply bind_Ok in H as (cs' & k1 & Hcs & H).
  rewrite decide_False in H by done. apply mret_spec in H as [-> ->].
  apply in_turn_app_inv in Hcs as (old1 & n1 & suf1 & Ho & Hs & ->).
  rewrite in_turn_passive in Hs by done. injection Hs as <- <-.
  apply in_turn_same_ids in Ho.
  assert (eid <$> old1 = eid <$> old) as Hids.
  { rewrite Ho, <- list_fmap_compose. apply list_fmap_ext. intros ? c ?.
    cbn. by destruct (with_references_same str_float arp c). }
  destruct rfr.
  - exists (for_each "body" remove_frc_ranges <$> old1). split.
    + rewrite for_each_unfold, decide_False, fmap_app by done. f_equal.
      f_equal. rewrite <- (list_fmap_id suf) at 2. apply Forall_fmap_ext_1.
      eapply Forall_impl; [exact Hsuf|]. cbn. intros c.
      apply passive_no_body.
    + rewrite <- Hids, <- list_fmap_compose. apply list_fmap_ext.
      intros ? c ?. cbn. apply for_each_same, remove_frc_ranges_same.
  - by exists old1.
Qed.

Lemma created_all_passive' n ts xs :
  Forall (λ t, passive t = true) ts → Forall2 (created_from n) ts xs →
  Forall (λ x, passive x = true) xs.
Proof.
  intros Hts H. induction H as [|t x ts xs Hx _ IH]; [constructor|].
  apply Forall_cons in Hts as [Ht Hts]. constructor; [|by apply IH].
  by eapply created_from_passive.
Qed.

(** X13: with [add_floor], the asset section of the tree ends, after
    the call, with the texture [texplane] and the materials [matplane]
    and [visualgeom], in this order and as the script writes them; before
    them are its former children, in their order. *)
Theorem floor_assets_added self (arp rfr : bool) n0 root' n' :
  well_formed n0 (tree self) →
  adapt_world to_xml to_xml_into str_float self true arp rfr n0
  = Ok (root', n') →
  ∃ asset asset' old new,
    find "asset" (tree self) = Some asset
    ∧ child (eid asset) root' = Ok asset'
    ∧ children asset' = old ++ new
    ∧ eid <$> old = eid <$> children asset
    ∧ Forall2 (created_from n0) floor_assets new.
Proof.
  intros Hds%well_formed_distinct_siblings Hrun.
  destruct (adapt_world_passes _ _ _ _ _ _ _ Hds Hrun)
    as (T1 & wid & bid & items & n1 & Hb & Hn1 & Hwid & _ & _ & Hpass).
  destruct (build_world_additions _ _ _ _ _ _ _ _ Hds Hb) as (Hasset & _).
  destruct (Hasset eq_refl) as (asset & new & Hfind & Hnew & Hne & Hc).
  destruct (Hpass _ _ Hne Hc) as (c' & k & k' & HF & Hc').
  apply find_elem in Hfind as Hf'. destruct Hf' as [_ Ht].
  destruct asset as [i tg a cs]. cbn [tag] in Ht. subst tg.
  unfold extend, with_children in HF. cbn [eid tag attrib children] in HF.
  apply (suffix_passes arp rfr) in HF as (old' & Heq & Hids); [|done|done|].
  - eexists _, _, old', new. split_and!; [done|exact Hc'| |done|done].
    by rewrite Heq.
  - apply (created_all_passive' n0 floor_assets); [|done].
    repeat constructor.
Qed.

(** X14: after the call, a sensor section of the root ends with the
    two sensors of the imu site, the [framequat] named [orientation] and
    the [gyro] named [angular-velocity], as the script writes them. *)
Theorem imu_sensors_added self (af arp rfr : bool) n0 root' n' :
  well_formed n0 (tree self) →
  adapt_world to_xml to_xml_into str_float self af arp rfr n0
  = Ok (root', n') →
  ∃ sensors old new,
    sensors ∈ children root' ∧ tag sensors = "sensor"
    ∧ children sensors = old ++ new
    ∧ Forall2 (created_from n0) imu_sensors new.
Proof.
  intros Hds%well_formed_distinct_siblings Hrun.
  destruct (adapt_world_passes _ _ _ _ _ _ _ Hds Hrun)
    as (T1 & wid & bid & items & n1 & Hb & Hn1 & Hwid & _ & _ & Hpass).
  destruct (build_world_additions _ _ _ _ _ _ _ _ Hds Hb)
    as (_ & (sensors & new & Ht & Hnew & Hne & Hc) & _).
  destruct (Hpass _ _ Hne Hc) as (c' & k & k' & HF & Hc').
  destruct sensors as [i tg a cs]. cbn [tag] in Ht. subst tg.
  unfold extend, with_children in HF. cbn [eid tag attrib children] in HF.
  apply (suffix_passes arp rfr) in HF as (old' & Heq & Hids); [|done|done|].
  - apply child_Ok_elem in Hc' as [Hin _].
    eexists _, old', new. split_and!; [exact Hin| | |done]; by rewrite Heq.
  - apply (created_all_passive' n0 imu_sensors); [|done].
    repeat constructor.
Qed.

(** X15: after the call, the second child of the root is the default
    section and the third the option section, as the library builds them
    from the descriptions of the script, the default section with the
    [visualgeom] class of the script inside. *)
Theorem option_and_default_inserted self (af arp rfr : bool) n0 root' n' :
  defaults_passive to_xml →
  well_formed n0 (tree self) →
  adapt_world to_xml to_xml_into str_float self af arp rfr n0
  = Ok (root', n') →
  ∃ D O visual_geom,
    children root' !! 1 = Some D ∧ children root' !! 2 = Some O
    ∧ created_from n0 visual_geom_default visual_geom
    ∧ created_from n0 (to_xml (default_section visual_geom)) D
    ∧ created_from n0 (to_xml option_section) O.
Proof.
  intros [HpO HpD] Hds%well_formed_distinct_siblings Hrun.
  destruct (adapt_world_passes _ _ _ _ _ _ _ Hds Hrun)
    as (T1 & wid & bid & items & n1 & Hb & Hn1 & Hwid & Hids & Hnd & Hpass).
  destruct (build_world_additions _ _ _ _ _ _ _ _ Hds Hb)
    as (_ & _ & c0 & rest & D & O & vg & Hcs & HO & Hvg & HD).
  assert (HT1 : NoDup (eid <$> children T1)) by by rewrite <- Hids.
  assert (∀ j x, children T1 !! j = Some x → n0 ≤ eid x →
                 passive x = true → children root' !! j = Some x) as Hat.
  { intros j x Hj Hx Hp.
    assert (child (eid x) T1 = Ok x) as Hc.
    { apply child_elem; [done|]. by eapply list_elem_of_lookup_2. }
    destruct (Hpass (eid x) x) as (c' & k & k' & HF & Hc'); [lia|done|].
    rewrite with_references_passive in HF by done.
    rewrite passive_no_new_body in HF by done. injection HF as <- <-.
    assert (eid <$> children root' !! j = Some (eid x)) as Hj'.
    { by rewrite <- list_lookup_fmap, Hids, list_lookup_fmap, Hj. }
    destruct (children root' !! j) as [y|] eqn:Hy; [|done].
    injection Hj' as Hj'. f_equal.
    assert (child (eid y) root' = Ok y) as Hcy.
    { apply child_elem; [done|]. by eapply list_elem_of_lookup_2. }
    rewrite Hj', Hc' in Hcy. injection Hcy as <-.
    destruct rfr; [|done]. by rewrite passive_no_body. }
  assert (passive vg = true) as Hpvg.
  { by apply (created_from_passive _ _ _ Hvg). }
  exists D, O, vg. split_and!; [| |done..].
  - apply Hat; [by rewrite Hcs|by eapply created_from_ge|].
    apply (created_from_passive _ _ _ HD). by apply HpD.
  - apply Hat; [by rewrite Hcs|by eapply created_from_ge|].
    by apply (created_from_passive _ _ _ HO).
Qed.

End Additions.

(** ** What [save] writes *)

Lemma write_attribs_Ok a :
  is_Ok (write_attribs a) ↔ string_valued a = true.
Proof.
  induction a as [|[k [v|]] a IH]; cbn.
  - split; [done|by eexists].
  - rewrite <- IH. split.
    + intros [s Hs]. destruct (write_attribs a); [by eexists|done].
    + intros [s ->]. by eexists.
  - split; [by intros [? [=]]|done].
Qed.

Lemma writable_unfold e :
  writable e = true ↔
  string_valued (attrib e) = true
  ∧ Forall (λ c, writable c = true) (children e).
Proof.
  destruct e as [i tg a cs]. cbn [writable attrib children].
  rewrite andb_true_iff, forallb_forall, Forall_forall.
  split; intros [? H]; (split; [done|]); intros x Hx; apply H.
  - by apply list_elem_of_In.
  - by apply list_elem_of_In.
Qed.

Lemma tostring_Ok e : is_Ok (tostring e) ↔ writable e = true.
Proof.
  induction e as [i tg a cs IH] using element_induction.
  rewrite tostring_unfold, writable_unfold. cbn [attrib children].
  rewrite <- write_attribs_Ok.
  assert (is_Ok (foldr (λ c rest, x ← tostring c; rest ← rest;
                                  Ok (x +:+ rest)) (Ok EmptyString) cs)
          ↔ Forall (λ c, writable c = true) cs) as <-.
  { induction cs as [|c cs IHcs].
    - split; [by constructor|by eexists].
    - apply Forall_cons in IH as [Hc IH]. cbn [foldr].
      rewrite Forall_cons, <- (IHcs IH), <- Hc. split.
      + intros [s Hs]. destruct (tostring c); [|done].
        cbn [mbind result_bind] in Hs.
        destruct (foldr _ _ cs); [|done]. split; by eexists.
      + intros [[s ->] [s' ->]]. by eexists. }
  split.
  - intros [s Hs]. destruct (write_attribs a); [|done].
    cbn [mbind result_bind] in Hs. destruct (foldr _ _ cs); [|done].
    split; by eexists.
  - intros [[s ->] [s' ->]]. by eexists.
Qed.

Section SaveText.
Context (_pretty_print_xml : string → string).

(** X16: [save] returns the text exactly when every attribute of every
    element of the tree has a string value; when one has not, it raises
    [TypeError]. *)
Theorem save_returns_or_raises self :
  if writable (tree self) then is_Ok (save _pretty_print_xml self)
  else save _pretty_print_xml self = Raise TypeError.
Proof.
  unfold save. destruct (writable (tree self)) eqn:Hw.
  - apply tostring_Ok in Hw as [s ->]. by eexists.
  - destruct (tostring_total (tree self)) as [Hs| ->]; [|done].
    apply tostring_Ok in Hs. congruence.
Qed.

End SaveText.

(** ** String values through [adapt_world] *)

Lemma writable_Element i tg a cs :
  string_valued a = true → Forall (λ c, writable c = true) cs →
  writable (Element i tg a cs) = true.
Proof. intros. by apply writable_unfold. Qed.

Lemma writable_with_children cs e :
  writable e = true → Forall (λ c, writable c = true) cs →
  writable (with_children cs e) = true.
Proof. intros [? _]%writable_unfold ?. by apply writable_unfold. Qed.

Lemma writable_children e :
  writable e = true → Forall (λ c, writable c = true) (children e).
Proof. by intros [_ ?]%writable_unfold. Qed.

Lemma writable_with_attrib a e :
  writable e = true → string_valued a = true →
  writable (with_attrib a e) = true.
Proof. intros [_ ?]%writable_unfold ?. by apply writable_unfold. Qed.

Lemma writable_append x e :
  writable e = true → writable x = true → writable (append x e) = true.
Proof.
  intros He Hx. apply writable_with_children; [done|].
  apply Forall_app. split; [by apply writable_children|by constructor].
Qed.

Lemma writable_extend xs e :
  writable e = true → Forall (λ c, writable c = true) xs →
  writable (extend xs e) = true.
Proof.
  intros He Hx. apply writable_with_children; [done|].
  apply Forall_app. split; [by apply writable_children|done].
Qed.

Lemma writable_insert j x e :
  writable e = true → writable x = true → writable (insert j x e) = true.
Proof.
  intros He Hx. apply writable_with_children; [done|].
  apply writable_children in He. apply Forall_app. split.
  - by apply Forall_take.
  - constructor; [done|by apply Forall_drop].
Qed.

Lemma writable_at_child j f e :
  (∀ c, writable c = true → writable (f c) = true) →
  writable e = true → writable (at_child j f e) = true.
Proof.
  intros Hf He. apply writable_with_children; [done|].
  apply writable_children in He. apply Forall_fmap.
  eapply Forall_impl; [exact He|]. cbn. intros c Hc.
  destruct (decide _); [by apply Hf|done].
Qed.

Lemma string_valued_set a k v :
  string_valued a = true → string_valued (dict_set a k (Some v)) = true.
Proof.
  induction a as [|[k' v'] a IH]; [done|]. intros H. cbn [dict_set].
  unfold string_valued in *. cbn [forallb] in *.
  apply andb_true_iff in H as [Hv Ha].
  destruct (decide _); cbn [forallb]; apply andb_true_iff; split; auto.
Qed.

Lemma writable_set k v e :
  writable e = true → writable (set k (Some v) e) = true.
Proof.
  intros [Ha Hcs]%writable_unfold. apply writable_unfold. split; [|done].
  by apply string_valued_set.
Qed.

Lemma writable_pop k e : writable e = true → writable (pop k e) = true.
Proof.
  intros [Ha Hcs]%writable_unfold. apply writable_unfold. split; [|done].
  cbn [pop with_attrib attrib]. unfold string_valued in *.
  rewrite forallb_forall in *. intros kv Hkv. apply Ha.
  apply list_elem_of_In. apply list_elem_of_In in Hkv.
  by apply list_elem_of_filter in Hkv as [_ ?].
Qed.

Lemma writable_relabel t : ∀ n, writable (relabel n t).1 = writable t.
Proof.
  induction t as [i tg a cs IH] using element_induction. intros n.
  rewrite relabel_unfold. cbn [fst writable]. f_equal.
  generalize (S n). induction cs as [|c cs IHcs]; intros m; [done|].
  apply Forall_cons in IH as [Hc IH]. rewrite relabel_all_cons.
  cbn [fst forallb]. by rewrite Hc, IHcs.
Qed.

Lemma created_from_writable n t x :
  created_from n t x → writable t = true → writable x = true.
Proof. intros (k & _ & ->) ?. by rewrite writable_relabel. Qed.

Lemma writable_for_each t f e :
  (∀ x, writable x = true → writable (f x) = true) →
  writable e = true → writable (for_each t f e) = true.
Proof.
  intros Hf. induction e as [i tg a cs IH] using element_induction.
  intros [Ha Hcs]%writable_unfold. cbn [attrib children] in *.
  rewrite for_each_unfold.
  assert (writable (Element i tg a (for_each t f <$> cs)) = true) as H.
  { apply writable_Element; [done|]. apply Forall_fmap.
    rewrite Forall_forall in *. intros c Hc. cbn. apply IH; auto. }
  destruct (decide _); [by apply Hf|done].
Qed.

(** ** Complete geoms through [adapt_world] *)

Lemma geoms_complete_unfold ps e :
  geoms_complete ps e = true ↔
  (tag e ∈ ps → Forall (λ c, complete_geom c = true) (children e))
  ∧ Forall (λ c, geoms_complete ps c = true) (children e).
Proof.
  destruct e as [i tg a cs]. cbn [geoms_complete tag children].
  rewrite andb_true_iff, orb_true_iff, negb_true_iff,
    bool_decide_eq_false, !forallb_forall, !Forall_forall.
  setoid_rewrite <- list_elem_of_In.
  destruct (decide (tg ∈ ps)); naive_solver.
Qed.

Lemma geoms_complete_mono ps ps' e :
  ps' ⊆ ps → geoms_complete ps e = true → geoms_complete ps' e = true.
Proof.
  intros Hps. induction e as [i tg a cs IH] using element_induction.
  rewrite !geoms_complete_unfold. cbn [tag children].
  intros [Hg Hcs]. split; [auto|].
  rewrite Forall_forall in *. auto.
Qed.

Lemma passive_geoms e :
  passive e = true → geoms_complete ["body"] e = true.
Proof.
  induction e as [i tg a cs IH] using element_induction.
  intros (Ht & _ & Hcs)%passive_unfold. cbn [tag children] in *.
  apply geoms_complete_unfold. cbn [tag children]. split.
  - by intros ->%list_elem_of_singleton.
  - rewrite Forall_forall in *. auto.
Qed.

Lemma not_geom_complete c : tag c ≠ "geom" → complete_geom c = true.
Proof. intros H. unfold complete_geom. by rewrite bool_decide_eq_false_2. Qed.

Lemma complete_geom_ext c c' :
  tag c' = tag c → attrib c' = attrib c → complete_geom c' = complete_geom c.
Proof. unfold complete_geom, get. by intros -> ->. Qed.

Lemma complete_geom_set k v c :
  complete_geom c = true → complete_geom (set k (Some v) c) = true.
Proof.
  unfold complete_geom. rewrite !orb_true_iff. intros [H|H]; [left|right].
  - by destruct c.
  - rewrite forallb_forall in *. intros k' Hk'. specialize (H k' Hk').
    apply bool_decide_eq_true in H. apply bool_decide_eq_true.
    unfold get, set in *. cbn [with_attrib attrib].
    destruct (decide (k' = k)) as [->|Hne].
    + by rewrite dict_lookup_set.
    + by rewrite dict_lookup_set_ne.
Qed.

Lemma geoms_complete_ext ps e e' :
  tag e' = tag e → children e' = children e →
  geoms_complete ps e' = geoms_complete ps e.
Proof. destruct e, e'. cbn. by intros -> ->. Qed.

Lemma geoms_with_children cs e :
  (tag e = "body" → Forall (λ c, complete_geom c = true) cs) →
  Forall (λ c, geoms_complete ["body"] c = true) cs →
  geoms_complete ["body"] (with_children cs e) = true.
Proof.
  intros Hg Hcs. apply geoms_complete_unfold. destruct e. cbn in *.
  split; [|done]. intros ->%list_elem_of_singleton. by apply Hg.
Qed.

Lemma geoms_children e :
  geoms_complete ["body"] e = true →
  Forall (λ c, geoms_complete ["body"] c = true) (children e).
Proof. by intros [_ ?]%geoms_complete_unfold. Qed.

Lemma geoms_body e :
  geoms_complete ["body"] e = true → tag e = "body" →
  Forall (λ c, complete_geom c = true) (children e).
Proof.
  intros [H _]%geoms_complete_unfold Ht. apply H. rewrite Ht. by left.
Qed.

Section Strings.
Context (to_xml : pyval → element).
Context (to_xml_into : pyval → dict (option string) → dict (option string)).
Context (str_float : float → string).

Lemma writable_with_references flag e :
  writable e = true → writable (with_references str_float flag e) = true.
Proof.
  destruct flag; [|done]. apply writable_for_each. intros x Hx.
  unfold set_reference. destruct (_ ≫= _); [|done]. by apply writable_set.
Qed.

Lemma complete_geom_with_references flag c :
  complete_geom c = true →
  complete_geom (with_references str_float flag c) = true.
Proof.
  intros Hc. destruct (decide (tag c = "geom")) as [Ht|Ht].
  - destruct flag; [|done]. unfold with_references.
    rewrite for_each_other_tag by by rewrite Ht.
    by rewrite (complete_geom_ext c).
  - apply not_geom_complete.
    by destruct (with_references_same str_float flag c) as (_ & -> & _).
Qed.

Lemma geoms_with_references flag e :
  geoms_complete ["body"] e = true →
  geoms_complete ["body"] (with_references str_float flag e) = true.
Proof.
  induction e as [i tg a cs IH] using element_induction.
  rewrite !geoms_complete_unfold.
  destruct (with_references_same str_float flag (Element i tg a cs))
    as (_ & -> & ->).
  cbn [tag children]. intros [Hg Hcs]. split.
  - intros Ht. apply Forall_fmap. eapply Forall_impl; [by apply Hg|].
    cbn. intros c. apply complete_geom_with_references.
  - apply Forall_fmap. rewrite Forall_forall in *. intros c Hc. cbn.
    apply IH; auto.
Qed.

End Strings.

(** *** The visual geom logic *)

Lemma string_valued_app a b :
  string_valued (a ++ b) = string_valued a && string_valued b.
Proof. unfold string_valued. apply forallb_app. Qed.

Lemma string_valued_copied k c : string_valued (copied k c) = true.
Proof. unfold copied. by destruct (get k c) as [s|]; cbn; [destruct (negb _)|]. Qed.

Lemma string_valued_visual_copy c :
  tag c = "geom" → complete_geom c = true →
  string_valued (visual_copy_attrib c) = true.
Proof.
  intros Ht. unfold complete_geom.
  rewrite Ht, (bool_decide_eq_true_2 ("geom" = "geom")) by done.
  cbn [negb orb forallb]. rewrite !andb_true_iff, !bool_decide_eq_true.
  intros ([s1 H1] & [s2 H2] & [s3 H3] & _). unfold visual_copy_attrib.
  rewrite H1, H2, H3, !string_valued_app, !string_valued_copied. done.
Qed.

Lemma writable_with_visual_geoms cs :
  ∀ n, Forall (λ c, writable c = true) cs →
       Forall (λ c, complete_geom c = true) cs →
       Forall (λ c, writable c = true) (with_visual_geoms n cs).
Proof.
  induction cs as [|c cs IH]; intros n Hw Hg; [constructor|].
  apply Forall_cons in Hw as [Hc Hw]. apply Forall_cons in Hg as [Hgc Hg].
  cbn [with_visual_geoms]. destruct (decide _) as [Ht|Ht].
  - constructor; [by apply writable_set|]. constructor; [|by apply IH].
    apply writable_Element; [|constructor].
    apply string_valued_visual_copy; [by destruct c|].
    by apply complete_geom_set.
  - constructor; [done|by apply IH].
Qed.

Lemma writable_visual_pass e :
  ∀ n e' n',
    distinct_siblings n e → writable e = true →
    geoms_complete ["body"] e = true →
    for_each_new "body" add_visual_geoms e n = Ok (e', n') →
    writable e' = true.
Proof.
  induction e as [i tg a cs IH] using element_induction.
  intros n e' n' Hds Hw Hg H.
  apply distinct_siblings_unfold in Hds as (Hi & Hnd & Hds).
  cbn [eid children] in *.
  apply writable_unfold in Hw as [Ha Hw].
  apply geoms_complete_unfold in Hg as [Hgc Hg]. cbn [tag attrib children] in *.
  rewrite for_each_new_unfold in H.
  apply bind_Ok in H as (cs' & n1 & Hcs & H).
  destruct (in_turn_visual 0 cs n (Nat.le_0_l _)) as
    (cs1 & n1' & Hrun & Hn1 & Hds1 & _ & Hall); [done|].
  rewrite Hrun in Hcs. injection Hcs as <- <-.
  assert (Forall (λ c, writable c = true) cs1
          ∧ Forall (λ c, complete_geom c = true ∨ tg ≠ "body") cs1)
    as [Hw1 Hg1].
  { clear Hrun Hds1 H Hnd. rename Hds into Hds'.
    induction Hall as [|c c' cs cs1 (Hid & Ht & Hat & k & k' & Hk & _ & Hrun)
                         _ IHall]; [by split; constructor|].
    apply Forall_cons in IH as [IHc IH].
    apply Forall_cons in Hw as [Hwc Hw].
    apply Forall_cons in Hg as [Hgc' Hg].
    apply Forall_cons in Hds' as [Hdc Hds'].
    destruct IHall as [IH1 IH2]; [done|done|done| |done|].
    { intros Hb. specialize (Hgc Hb). by apply Forall_cons in Hgc as [_ ?]. }
    split; constructor; [|done| |done].
    - eapply (IHc k c' k'); [|done|done|done].
      eapply distinct_siblings_mono; [|exact Hdc]. lia.
    - destruct (decide (tg = "body")) as [Hb|Hb]; [left|by right].
      rewrite (complete_geom_ext c) by done.
      assert (tg ∈ ["body"]) as Hin by (rewrite Hb; by left).
      specialize (Hgc Hin). by apply Forall_cons in Hgc as [? _]. }
  destruct (decide _) as [->|Hb].
  - rewrite add_visual_geoms_spec in H.
    + injection H as <- <-. apply writable_Element; [done|].
      apply writable_with_visual_geoms; [done|].
      eapply Forall_impl; [exact Hg1|]. cbn. by intros c [?|?].
    + by erewrite Forall2_same_ids; [|exact Hall].
    + eapply Forall_impl; [exact Hds1|]. cbn. intros c.
      apply distinct_siblings_lt.
  - apply mret_spec in H as [-> ->]. by apply writable_Element.
Qed.

(** *** The edits of [adapt_world] keep string values *)

Lemma writable_remove_frc_ranges body :
  writable body = true → writable (remove_frc_ranges body) = true.
Proof.
  unfold remove_frc_ranges. generalize (eid <$> findall "joint" body).
  intros joints. revert body.
  induction joints as [|j joints IH]; intros body H; [done|].
  cbn [foldl]. apply IH. apply writable_at_child; [|done].
  intros c Hc. unfold drop_frc_range.
  destruct (has_key _ _); [by apply writable_pop|done].
Qed.

Lemma writable_without_frc (rfr : bool) c :
  writable c = true →
  writable (if rfr then for_each "body" remove_frc_ranges c else c) = true.
Proof.
  destruct rfr; [|done]. apply writable_for_each.
  apply writable_remove_frc_ranges.
Qed.

Lemma writable_move_loop wid bid items :
  ∀ root k root' k',
    writable root = true →
    for_loop (move_item wid bid) items root k = Ok (root', k') →
    writable root' = true.
Proof.
  induction items as [|x items IH]; intros root k root' k' Hw H.
  - by apply mret_spec in H as [-> ->].
  - cbn [for_loop] in H. apply bind_Ok in H as (r1 & k1 & H1 & H).
    apply (IH _ _ _ _) in H; [done|]. unfold move_item in H1.
    apply bind_Ok in H1 as (w & ? & Hcw & H1).
    apply bind_Ok in H1 as (c & ? & Hc & H1).
    apply bind_Ok in H1 as (w' & ? & Hw' & [-> ->]%mret_spec).
    unfold lift in Hcw. destruct (child wid root) as [w0|] eqn:Hw0; [|done].
    injection Hcw as -> ->. apply child_Ok_elem in Hw0 as [Hin _].
    unfold lift in Hc. destruct (child x w) as [c0|] eqn:Hc0; [|done].
    injection Hc as -> ->. apply child_Ok_elem in Hc0 as [Hcin _].
    unfold lift, remove in Hw'. destruct (index x w); [|done].
    cbn in Hw'. injection Hw' as <- <-.
    pose proof (writable_children _ Hw) as Hcs.
    rewrite Forall_forall in Hcs. pose proof (Hcs _ Hin) as Hww.
    pose proof (writable_children _ Hww) as Hwcs.
    pose proof (proj1 (Forall_forall _ _) Hwcs _ Hcin) as Hwc.
    apply writable_at_child.
    + intros y Hy. apply writable_at_child; [|done].
      intros z Hz. by apply writable_append.
    + apply writable_at_child; [|done]. intros _ _.
      apply writable_with_children; [done|].
      rewrite delete_take_drop. apply Forall_app.
      split; [by apply Forall_take|by apply Forall_drop].
Qed.

Section BuildStrings.
Context (to_xml : pyval → element).
Context (to_xml_into : pyval → dict (option string) → dict (option string)).
Context (str_float : float → string).

Lemma writable_add_floor_assets root k root' k' :
  writable root = true →
  add_floor_assets root k = Ok (root', k') → writable root' = true.
Proof.
  intros Hw H. unfold add_floor_assets in H.
  apply bind_Ok in H as (asset & k0 & _ & H).
  apply bind_Ok in H as (x1 & k1 & [-> ->]%new_element_spec & H).
  apply bind_Ok in H as (x2 & k2 & [-> ->]%new_element_spec & H).
  apply bind_Ok in H as (x3 & k3 & [-> ->]%new_element_spec & H).
  apply mret_spec in H as [-> ->].
  repeat (apply writable_at_child;
          [intros c Hc; by apply writable_append|]).
  done.
Qed.

Lemma writable_adapt_compiler self root :
  compiler_writable to_xml_into self →
  writable root = true →
  writable (adapt_compiler to_xml_into self root) = true.
Proof.
  intros Hc Hw. unfold adapt_compiler.
  destruct (compiler self) as [c|] eqn:Hcomp; [|done].
  destruct (find "compiler" root) as [el|]; [|done].
  apply writable_at_child; [|done]. intros x Hx.
  apply writable_with_attrib; [done|]. apply (Hc c); [done|].
  by apply writable_unfold in Hx as [? _].
Qed.

Lemma writable_new t k x k' :
  writable t = true → new t k = Ok (x, k') → writable x = true.
Proof.
  intros Ht (-> & _)%new_spec. by rewrite writable_relabel.
Qed.

Lemma writable_make_root_body k B k' :
  library_writable to_xml →
  make_root_body to_xml k = Ok (B, k') → writable B = true.
Proof.
  intros [Hlib _] H. rewrite Forall_forall in Hlib. unfold make_root_body in H.
  apply bind_Ok in H as (B0 & k1 & HB0 & H).
  apply bind_Ok in H as (joints & k2 & Hj & H).
  apply bind_Ok in H as (site & k3 & Hs & [-> ->]%mret_spec).
  apply writable_append; [apply writable_extend|].
  - eapply writable_new; [|exact HB0]. apply Hlib.
    apply elem_of_app. left. do 3 right. by left.
  - apply in_turn_new_spec in Hj as (_ & Hall & _).
    clear -Hall Hlib.
    assert (Forall (λ t, writable t = true) (to_xml <$> root_joints)) as Ht.
    { apply Forall_fmap, Forall_forall. intros v Hv. cbn. apply Hlib.
      apply elem_of_app. right. apply elem_of_app. by left. }
    induction Hall as [|t x ts xs Hx _ IH]; [constructor|].
    apply Forall_cons in Ht as [Ht Hts]. constructor; [|by apply IH].
    by eapply created_from_writable.
  - eapply writable_new; [|exact Hs]. apply Hlib.
    apply elem_of_app. right. apply elem_of_app. right. by left.
Qed.

Lemma writable_add_scene (af : bool) wid B root k root' k' :
  library_writable to_xml →
  writable root = true → writable B = true →
  add_scene to_xml af wid B root k = Ok (root', k') → writable root' = true.
Proof.
  intros [Hlib _] Hw HB H. rewrite Forall_forall in Hlib.
  unfold add_scene in H.
  apply bind_Ok in H as (l5 & k1 & H5 & H).
  apply bind_Ok in H as (l4 & k2 & H4 & H).
  apply writable_new in H5; [|apply Hlib; apply elem_of_app; left; by left].
  apply writable_new in H4;
    [|apply Hlib; apply elem_of_app; left; right; by left].
  assert (writable
            (at_child wid (insert 0 l4)
               (at_child wid (insert 0 l5)
                  (at_child wid (append B) root))) = true) as Hk.
  { apply writable_at_child; [intros; by apply writable_insert|].
    apply writable_at_child; [intros; by apply writable_insert|].
    apply writable_at_child; [intros; by apply writable_append|done]. }
  destruct af.
  - apply bind_Ok in H as (floor & k3 & Hf & [-> ->]%mret_spec).
    apply writable_new in Hf;
      [|apply Hlib; apply elem_of_app; left; do 2 right; by left].
    apply writable_at_child; [intros; by apply writable_insert|done].
  - by apply mret_spec in H as [-> ->].
Qed.

Lemma writable_add_sections root k root' k' :
  library_writable to_xml →
  writable root = true →
  add_sections to_xml root k = Ok (root', k') → writable root' = true.
Proof.
  intros [Hlib _] Hw H. rewrite Forall_forall in Hlib.
  unfold add_sections in H.
  apply bind_Ok in H as (A & k1 & HA & H).
  apply bind_Ok in H as (S & k2 & HS & H).
  apply bind_Ok in H as (sensors & k3 & _ & H).
  apply bind_Ok in H as (fq & k4 & [-> ->]%new_element_spec & H).
  apply bind_Ok in H as (gy & k5 & [-> ->]%new_element_spec & H).
  apply mret_spec in H as [-> ->].
  apply writable_new in HA;
    [|apply Hlib; do 2 (apply elem_of_app; right); right; by left].
  apply writable_new in HS;
    [|apply Hlib; do 2 (apply elem_of_app; right); do 2 right; by left].
  apply writable_at_child.
  - intros c Hc. apply writable_extend; [done|]. by repeat constructor.
  - by repeat apply writable_append.
Qed.

Lemma writable_add_defaults root k root' k' :
  library_writable to_xml →
  writable root = true →
  add_defaults to_xml root k = Ok (root', k') → writable root' = true.
Proof.
  intros [Hlib Hdef] Hw H. rewrite Forall_forall in Hlib.
  unfold add_defaults in H.
  apply bind_Ok in H as (O & k1 & HO & H).
  apply bind_Ok in H as (vg & k2 & [-> ->]%new_element_spec & H).
  apply bind_Ok in H as (sub & k3 & [-> ->]%new_element_spec & H).
  apply bind_Ok in H as (D & k4 & HD & [-> ->]%mret_spec).
  apply writable_new in HO;
    [|apply Hlib; do 2 (apply elem_of_app; right); do 3 right; by left].
  apply writable_new in HD; [|by apply Hdef].
  by repeat apply writable_insert.
Qed.

Lemma writable_build_world self (af : bool) n0 T1 wid bid items n1 :
  library_writable to_xml → compiler_writable to_xml_into self →
  writable (tree self) = true →
  build_world to_xml to_xml_into self af n0 = Ok ((T1, wid, bid, items), n1) →
  writable T1 = true.
Proof.
  intros Hlib Hcomp Hw H. unfold build_world in H.
  apply bind_Ok in H as (root1 & k1 & H1 & H).
  apply bind_Ok in H as (w & k2 & _ & H).
  apply bind_Ok in H as (B & k3 & HB & H).
  apply bind_Ok in H as (root3 & k4 & H3 & H).
  apply bind_Ok in H as (root4 & k5 & H4 & H).
  apply bind_Ok in H as (root5 & k6 & H5 & H).
  apply mret_spec in H as [[= -> -> -> ->] ->].
  eapply writable_add_defaults; [done| |exact H5].
  eapply writable_add_sections; [done| |exact H4].
  eapply writable_add_scene; [done| | |exact H3].
  - apply writable_adapt_compiler; [done|]. destruct af.
    + by eapply writable_add_floor_assets.
    + by apply mret_spec in H1 as [-> ->].
  - by eapply writable_make_root_body.
Qed.

End BuildStrings.

(** *** The edits of [adapt_world] keep the geoms of bodies complete *)

Lemma geoms_append x e :
  geoms_complete ["body"] e = true → geoms_complete ["body"] x = true →
  tag x ≠ "geom" →
  geoms_complete ["body"] (append x e) = true.
Proof.
  intros He Hx Ht. apply geoms_with_children.
  - intros Hb. apply Forall_app. split; [by apply geoms_body|].
    constructor; [by apply not_geom_complete|constructor].
  - apply Forall_app. split; [by apply geoms_children|by constructor].
Qed.

Lemma geoms_leaf i tg a : geoms_complete ["body"] (Element i tg a []) = true.
Proof. cbn. by rewrite orb_true_r. Qed.

Lemma geoms_at_child j f e :
  (∀ c, geoms_complete ["body"] c = true →
        geoms_complete ["body"] (f c) = true) →
  Forall (λ c, geoms_complete ["body"] c = true) (children e) →
  Forall (λ c, geoms_complete ["body"] c = true) (children (at_child j f e)).
Proof.
  intros Hf He. destruct e as [i tg a cs]. cbn [at_child children with_children] in *.
  apply Forall_fmap. eapply Forall_impl; [exact He|]. cbn. intros c Hc.
  destruct (decide _); [by apply Hf|done].
Qed.

Lemma geoms_root_append x e :
  Forall (λ c, geoms_complete ["body"] c = true) (children e) →
  geoms_complete ["body"] x = true →
  Forall (λ c, geoms_complete ["body"] c = true) (children (append x e)).
Proof.
  intros He Hx. destruct e. cbn in *. apply Forall_app.
  split; [done|by constructor].
Qed.

Lemma geoms_root_insert j x e :
  Forall (λ c, geoms_complete ["body"] c = true) (children e) →
  geoms_complete ["body"] x = true →
  Forall (λ c, geoms_complete ["body"] c = true) (children (insert j x e)).
Proof.
  intros He Hx. destruct e. cbn in *. apply Forall_app. split.
  - by apply Forall_take.
  - constructor; [done|by apply Forall_drop].
Qed.

Lemma created_from_geoms n t x :
  created_from n t x → passive t = true →
  geoms_complete ["body"] x = true.
Proof.
  intros Hx Ht. apply passive_geoms. by eapply created_from_passive.
Qed.

Section BuildGeoms.
Context (to_xml : pyval → element).
Context (to_xml_into : pyval → dict (option string) → dict (option string)).
Context (str_float : float → string).

Local Abbreviation G root :=
  (Forall (λ c, geoms_complete ["body"] c = true) (children root)).

Lemma geoms_add_floor_assets root k root' k' :
  G root → add_floor_assets root k = Ok (root', k') → G root'.
Proof.
  intros Hg H. unfold add_floor_assets in H.
  apply bind_Ok in H as (asset & k0 & _ & H).
  apply bind_Ok in H as (x1 & k1 & [-> ->]%new_element_spec & H).
  apply bind_Ok in H as (x2 & k2 & [-> ->]%new_element_spec & H).
  apply bind_Ok in H as (x3 & k3 & [-> ->]%new_element_spec & H).
  apply mret_spec in H as [-> ->].
  repeat (apply geoms_at_child;
          [intros c Hc; apply geoms_append; [done|apply geoms_leaf|done]|]).
  done.
Qed.

Lemma geoms_adapt_compiler self root :
  G root → G (adapt_compiler to_xml_into self root).
Proof.
  intros Hg. unfold adapt_compiler.
  destruct (compiler self) as [c|]; [|done].
  destruct (find "compiler" root) as [el|]; [|done].
  apply geoms_at_child; [|done]. intros x Hx.
  by rewrite (geoms_complete_ext _ x).
Qed.

Lemma geoms_make_root_body k B k' :
  root_body_plain to_xml →
  make_root_body to_xml k = Ok (B, k') →
  tag B = "body" ∧ geoms_complete ["body"] B = true.
Proof.
  intros (Ht & Hcs & Hparts) H.
  apply make_root_body_spec in H
    as (_ & _ & HtB & _ & _ & parts & HcB & Hall).
  rewrite relabel_childless in HcB by done. cbn [app] in HcB.
  split; [by rewrite HtB|]. apply geoms_complete_unfold. rewrite HcB.
  revert Hall Hparts. generalize (root_joints ++ [imu_site]).
  intros vs Hall Hvs. clear HcB.
  assert (Forall (λ x, complete_geom x = true
                       ∧ geoms_complete ["body"] x = true) parts) as Hp.
  { induction Hall as [|v x vs xs Hx _ IH]; [constructor|].
    apply Forall_cons in Hvs as [[Hpv Htv] Hvs].
    constructor; [|by apply IH]. split.
    - apply not_geom_complete. by rewrite (created_from_tag _ _ _ Hx).
    - by eapply created_from_geoms. }
  split; [intros _|]; eapply Forall_impl; try exact Hp; cbn; tauto.
Qed.

Lemma geoms_add_scene af wid B root w k kc root' k' :
  scene_passive to_xml →
  distinct_siblings k root → k ≤ kc → child wid root = Ok w →
  k ≤ eid B → distinct_siblings kc B →
  tag w ≠ "body" → geoms_complete ["body"] B = true →
  G root →
  add_scene to_xml af wid B root kc = Ok (root', k') → G root'.
Proof.
  intros Hsc Hds Hk Hw HB HdB Htw HgB Hg H.
  unfold scene_passive in Hsc.
  apply Forall_cons in Hsc as [Hp5 Hsc]. apply Forall_cons in Hsc as [Hp4 Hsc].
  apply Forall_cons in Hsc as [Hpf _].
  eapply add_scene_spec in H; [|exact Hds|exact Hk|exact Hw|exact HB|exact HdB].
  destruct H as (_ & Hds' & Hframe & floor & l4 & l5 & Hl5 & Hl4 & Hfl & Hw').
  apply Forall_forall. intros y Hy.
  assert (child (eid y) root' = Ok y) as Hcy.
  { apply child_elem; [|done]. by eapply distinct_siblings_NoDup. }
  destruct (decide (eid y = wid)) as [Hid|Hid].
  - rewrite Hid, Hw' in Hcy. injection Hcy as <-.
    apply child_Ok_elem in Hw as [Hwin _].
    rewrite Forall_forall in Hg. pose proof (Hg _ Hwin) as Hgw.
    apply geoms_with_children; [done|].
    apply Forall_app. split.
    + destruct af.
      * apply Forall2_cons_inv_l in Hfl as (x & xs & Hx & Hxs & ->).
        apply Forall2_nil_inv_l in Hxs as ->.
        constructor; [by eapply created_from_geoms|constructor].
      * apply Forall2_nil_inv_l in Hfl as ->. constructor.
    + constructor; [by eapply created_from_geoms|].
      constructor; [by eapply created_from_geoms|].
      apply Forall_app. split; [by apply geoms_children|by constructor].
  - rewrite Hframe in Hcy by done. apply child_Ok_elem in Hcy as [Hin _].
    rewrite Forall_forall in Hg. by apply Hg.
Qed.

Lemma geoms_add_sections root k root' k' :
  sections_passive to_xml →
  G root → add_sections to_xml root k = Ok (root', k') → G root'.
Proof.
  intros (HpA & _ & HpS & _) Hg H. unfold add_sections in H.
  apply bind_Ok in H as (A & k1 & HA & H).
  apply bind_Ok in H as (S & k2 & HS & H).
  apply bind_Ok in H as (sensors & k3 & _ & H).
  apply bind_Ok in H as (fq & k4 & [-> ->]%new_element_spec & H).
  apply bind_Ok in H as (gy & k5 & [-> ->]%new_element_spec & H).
  apply mret_spec in H as [-> ->].
  apply new_spec in HA as (-> & _). apply new_spec in HS as (-> & _).
  apply geoms_at_child.
  - intros c Hc.
    apply geoms_with_children.
    + intros Hb. apply Forall_app. split; [by apply geoms_body|].
      by repeat constructor.
    + apply Forall_app. split; [by apply geoms_children|].
      repeat constructor; apply geoms_leaf.
  - apply geoms_root_append; [apply geoms_root_append; [done|]|];
      apply passive_geoms; by rewrite passive_relabel.
Qed.

Lemma geoms_add_defaults root k root' k' :
  defaults_passive to_xml →
  G root → add_defaults to_xml root k = Ok (root', k') → G root'.
Proof.
  intros [HpO HpD] Hg H. unfold add_defaults in H.
  apply bind_Ok in H as (O & k1 & HO & H).
  apply bind_Ok in H as (vg & k2 & [-> ->]%new_element_spec & H).
  apply bind_Ok in H as (sub & k3 & [-> ->]%new_element_spec & H).
  apply bind_Ok in H as (D & k4 & HD & [-> ->]%mret_spec).
  apply new_spec in HO as (-> & _). apply new_spec in HD as (-> & _).
  apply geoms_root_insert; [apply geoms_root_insert; [done|]|];
    apply passive_geoms; rewrite passive_relabel; [done|].
  by apply HpD.
Qed.

Lemma geoms_build_world self (af : bool) n0 T1 wid bid items n1 :
  scene_passive to_xml → root_body_plain to_xml →
  sections_passive to_xml → defaults_passive to_xml →
  distinct_siblings n0 (tree self) → G (tree self) →
  build_world to_xml to_xml_into self af n0 = Ok ((T1, wid, bid, items), n1) →
  G T1.
Proof.
  intros Hscene Hbody Hsec Hdef Hds Hg H. unfold build_world in H.
  apply bind_Ok in H as (root1 & k1 & H1 & H).
  assert (n0 ≤ k1 ∧ distinct_siblings k1 root1
          ∧ find "worldbody" root1 = find "worldbody" (tree self)
          ∧ G root1) as (Hk1 & Hds1 & Hf1 & Hg1).
  { destruct af.
    - pose proof (geoms_add_floor_assets _ _ _ _ Hg H1).
      apply add_floor_assets_spec in H1 as (? & ? & ?); done.
    - by apply mret_spec in H1 as [-> ->]. }
  destruct (adapt_compiler_spec to_xml_into self root1 k1 Hds1) as [Hds2 Hf2].
  pose proof (geoms_adapt_compiler self root1 Hg1) as Hg2.
  apply bind_Ok in H as (w & k2 & [Hw ->]%not_none_spec & H).
  assert (Hcw : child (eid w) (adapt_compiler to_xml_into self root1) = Ok w).
  { apply child_find with "worldbody"; [|done].
    by eapply distinct_siblings_NoDup. }
  apply find_elem in Hw as [_ Hwt].
  apply bind_Ok in H as (B & k3 & HB & H).
  destruct (geoms_make_root_body _ _ _ Hbody HB) as [HtB HgB].
  apply make_root_body_spec in HB
    as (Hk3 & HidB & _ & _ & HdsB & _).
  apply bind_Ok in H as (root3 & k4 & H3 & H).
  eapply geoms_add_scene in H3;
    [|done|exact Hds2|lia|exact Hcw|lia|exact HdsB|by rewrite Hwt|done|done].
  apply bind_Ok in H as (root4 & k5 & H4 & H).
  apply (geoms_add_sections _ _ _ _ Hsec H3) in H4.
  apply bind_Ok in H as (root5 & k6 & H5 & H).
  apply (geoms_add_defaults _ _ _ _ Hdef H4) in H5.
  by apply mret_spec in H as [[= -> -> -> ->] ->].
Qed.

End BuildGeoms.

Section SaveAfter.
Context (to_xml : pyval → element).
Context (to_xml_into : pyval → dict (option string) → dict (option string)).
Context (str_float : float → string).
Context (_pretty_print_xml : string → string).

Lemma geoms_after_move (arp : bool) n1 T1 T3 w B pre :
  distinct_siblings n1 T3 →
  child (eid w) T1 = Ok (with_children (pre ++ children w ++ [B]) w) →
  child (eid w) T3
  = Ok (Element (eid w) (tag w) (attrib w)
          ((with_references str_float arp <$> pre)
           ++ [extend (with_references str_float arp <$> children w)
                 (with_references str_float arp B)])) →
  (∀ i, i ≠ eid w →
        child i T3 = with_references str_float arp <$> child i T1) →
  tag w ≠ "body" → tag B = "body" →
  Forall (λ c, complete_geom c = true) (children w) →
  Forall (λ c, geoms_complete ["body"] c = true) (children T1) →
  Forall (λ c, geoms_complete ["body"] c = true) (children T3).
Proof.
  intros Hds Hw1 Hw3 Hframe Htw HtB Hcw Hg.
  apply Forall_forall. intros y Hy.
  assert (child (eid y) T3 = Ok y) as Hcy.
  { apply child_elem; [|done]. by eapply distinct_siblings_NoDup. }
  rewrite Forall_forall in Hg.
  destruct (decide (eid y = eid w)) as [Hid|Hid].
  - rewrite Hid, Hw3 in Hcy. injection Hcy as <-.
    apply child_Ok_elem in Hw1 as [Hin _]. apply Hg in Hin.
    apply geoms_children in Hin. cbn [children with_children] in Hin.
    apply Forall_app in Hin as [Hpre Hin].
    apply Forall_app in Hin as [Hcs HB].
    rewrite Forall_singleton in HB.
    apply geoms_complete_unfold. cbn [tag children]. split.
    { by intros Hb%list_elem_of_singleton. }
    apply Forall_app. split.
    + apply Forall_fmap. eapply Forall_impl; [exact Hpre|]. cbn.
      intros c. apply geoms_with_references.
    + constructor; [|constructor].
      destruct (with_references_same str_float arp B) as (_ & HtR & HcR).
      apply geoms_with_children.
      * intros _. rewrite HcR. apply Forall_app.
        split; apply Forall_fmap.
        -- eapply Forall_impl; [exact (geoms_body B HB HtB)|]. cbn.
           intros c.
           apply complete_geom_with_references.
        -- eapply Forall_impl; [exact Hcw|]. cbn. intros c.
           apply complete_geom_with_references.
      * rewrite HcR. apply Forall_app. split; apply Forall_fmap.
        -- eapply Forall_impl; [exact (geoms_children B HB)|]. cbn.
           intros c. apply geoms_with_references.
        -- eapply Forall_impl; [exact Hcs|]. cbn. intros c.
           apply geoms_with_references.
  - rewrite Hframe in Hcy by done.
    destruct (child (eid y) T1) as [c|] eqn:Hc; [|done].
    injection Hcy as <-. apply geoms_with_references. apply Hg.
    by apply child_Ok_elem in Hc as [? _].
Qed.

(** X17: [save] after [adapt_world] returns the text when the
    attributes of the tree before the call have string values, every geom
    directly under a body or a worldbody of that tree has [type], [rgba]
    and [mesh], and the library writes string values. *)
Theorem save_after_adapt_world self (af arp rfr : bool) n0 root' n' :
  scene_passive to_xml → root_body_plain to_xml →
  sections_passive to_xml → defaults_passive to_xml →
  library_writable to_xml → compiler_writable to_xml_into self →
  well_formed n0 (tree self) →
  writable (tree self) = true →
  geoms_complete ["body"; "worldbody"] (tree self) = true →
  adapt_world to_xml to_xml_into str_float self af arp rfr n0
  = Ok (root', n') →
  is_Ok (save _pretty_print_xml
           {| tree := root'; compiler := compiler self |}).
Proof.
  intros Hscene Hbody Hsec Hdef Hlib Hcomp Hds%well_formed_distinct_siblings
         Hw Hgeoms H.
  assert (writable root' = true) as Hw'.
  2:{ unfold save. cbn [tree]. apply tostring_Ok in Hw' as [s ->].
      by eexists. }
  unfold adapt_world in H.
  apply bind_Ok in H as ([[[T1 wid] bid] items] & n1 & Hb & H).
  assert (writable T1 = true) as Hw1
    by by eapply writable_build_world.
  assert (Forall (λ c, geoms_complete ["body"] c = true) (children T1))
    as Hg1.
  { eapply geoms_build_world; [done..| |exact Hb].
    apply geoms_children. eapply geoms_complete_mono; [|exact Hgeoms].
    intros x ->%list_elem_of_singleton. by left. }
  destruct (build_world_spec to_xml to_xml_into self af n0 T1 wid bid items
              n1 Hds Hb)
    as (w & B & floor & l4 & l5 & parts & A & S & S' & extra & Hfw & -> & ->
        & -> & HB & Hn1 & Hds1 & HtB & HaB & HcB & Hparts & Hl5 & Hl4 & Hfl
        & Hcw & _).
  apply bind_Ok in H as (T3 & n1' & Hmove & H).
  apply bind_Ok in H as (T4 & n2 & Hvis & [-> ->]%mret_spec).
  apply find_elem in Hfw as Hw0. destruct Hw0 as [Hwin Hwt].
  pose proof (distinct_siblings_children _ _ _ Hds Hwin) as Hdsw.
  apply distinct_siblings_unfold in Hdsw as (Hwlt & Hwnd & Hwcs).
  destruct (items_moved str_float arp n0 n1 T1 w B (floor ++ [l4; l5]) Hds1)
    as (T3' & Hrun & Hds3 & Hcw3 & Hframe).
  { by rewrite Hwt. }
  { eapply Forall_impl; [exact Hwcs|]. cbn. intros c.
    apply distinct_siblings_lt. }
  { rewrite HcB, Forall_app. split.
    - rewrite relabel_children.
      eapply Forall_impl; [apply relabel_all_ge|]. cbn. intros; lia.
    - apply (Forall2_Forall_r _ (λ x, n0 ≤ eid x)) in Hparts; [done|].
      apply Forall_forall. intros v _ y. apply created_from_ge. }
  { by rewrite <- app_assoc. }
  rewrite Hrun in Hmove. injection Hmove as <- <-.
  assert (writable T3' = true) as Hw3.
  { eapply writable_move_loop; [|exact Hrun]. destruct arp; [|done].
    apply writable_with_children; [done|]. apply Forall_fmap.
    eapply Forall_impl; [by apply writable_children|]. cbn. intros c.
    apply (writable_with_references str_float true). }
  assert (Forall (λ c, geoms_complete ["body"] c = true) (children T3'))
    as Hg3.
  { eapply (geoms_after_move arp n1 T1 T3' w B (floor ++ [l4; l5]));
      [done| |done|done|by rewrite Hwt| |  |done].
    - by rewrite <- app_assoc.
    - rewrite HtB. by destruct Hbody as (? & _).
    - assert (geoms_complete ["body"; "worldbody"] w = true) as Hgw.
      { apply geoms_complete_unfold in Hgeoms as [_ Hcs].
        rewrite Forall_forall in Hcs. by apply Hcs. }
      apply geoms_complete_unfold in Hgw as [Hgw _]. apply Hgw.
      rewrite Hwt. right. by left. }
  destruct (visual_below 0 T3' n1 (Nat.le_0_l _) Hds3)
    as (cs' & n'' & Hrun' & _ & _ & _ & Hall).
  rewrite Hvis in Hrun'. injection Hrun' as -> ->.
  assert (Forall (λ c, writable c = true) cs') as Hcs'.
  { apply distinct_siblings_unfold in Hds3 as (_ & _ & Hds3).
    apply writable_children in Hw3. clear -Hall Hds3 Hw3 Hg3.
    induction Hall as [|c c' cs cs' (_ & _ & _ & k & k' & Hk & _ & Hrun) _ IH];
      [constructor|].
    apply Forall_cons in Hds3 as [Hdc Hds3].
    apply Forall_cons in Hw3 as [Hwc Hw3].
    apply Forall_cons in Hg3 as [Hgc Hg3].
    constructor; [|by apply IH].
    eapply (writable_visual_pass c k c' k'); [|done|done|done].
    eapply distinct_siblings_mono; [|exact Hdc]. lia. }
  destruct rfr.
  - apply writable_with_children; [by apply writable_with_children|].
    cbn [children with_children]. apply Forall_fmap.
    eapply Forall_impl; [exact Hcs'|]. cbn. intros c.
    apply (writable_without_frc true).
  - by apply writable_with_children.
Qed.

End SaveAfter.

(** ** The compiler element *)

Lemma add_floor_assets_find t root k root' k' :
  t ≠ "asset" → distinct_siblings k root →
  add_floor_assets root k = Ok (root', k') →
  find t root' = find t root.
Proof.
  intros Ht Hds H. unfold add_floor_assets in H.
  apply bind_Ok in H as (asset & k0 & [Ha ->]%not_none_spec & H).
  apply bind_Ok in H as (x1 & k1 & [-> ->]%new_element_spec & H).
  apply bind_Ok in H as (x2 & k2 & [-> ->]%new_element_spec & H).
  apply bind_Ok in H as (x3 & k3 & [-> ->]%new_element_spec & H).
  apply mret_spec in H as [-> ->].
  apply find_elem in Ha as [Hin Hta].
  rewrite !at_child_compose by (intros; by rewrite eid_append).
  pose proof (distinct_siblings_NoDup _ _ Hds) as Hnd.
  apply find_at_child; [done| |].
  - intros c Hc Heq. rewrite (same_child (children root) c asset) by done.
    by rewrite Hta.
  - intros c. by rewrite !tag_append.
Qed.

Section Compiler.
Context (to_xml : pyval → element).
Context (to_xml_into : pyval → dict (option string) → dict (option string)).
Context (str_float : float → string).

Lemma build_world_compiler self (af : bool) n0 T1 wid bid items n1 c el :
  distinct_siblings n0 (tree self) →
  build_world to_xml to_xml_into self af n0 = Ok ((T1, wid, bid, items), n1) →
  compiler self = Some c → find "compiler" (tree self) = Some el →
  eid el ≠ wid
  ∧ child (eid el) T1 = Ok (with_attrib (to_xml_into c (attrib el)) el).
Proof.
  intros Hds H Hcomp Hel. unfold build_world in H.
  apply bind_Ok in H as (root1 & k1 & H1 & H).
  assert (n0 ≤ k1 ∧ distinct_siblings k1 root1
          ∧ find "worldbody" root1 = find "worldbody" (tree self)
          ∧ find "compiler" root1 = find "compiler" (tree self))
    as (Hk1 & Hds1 & Hf1 & Hfc1).
  { destruct af.
    - pose proof (add_floor_assets_find "compiler" _ _ _ _ ltac:(done) Hds H1).
      by apply add_floor_assets_spec in H1 as (? & ? & ?).
    - by apply mret_spec in H1 as [-> ->]. }
  destruct (adapt_compiler_spec to_xml_into self root1 k1 Hds1) as [Hds2 Hf2].
  apply bind_Ok in H as (w & k2 & [Hw ->]%not_none_spec & H).
  pose proof (distinct_siblings_NoDup _ _ Hds2) as Hnd2.
  pose proof (child_find _ _ _ Hnd2 Hw) as Hcw.
  rewrite Hf2, Hf1 in Hw.
  apply find_elem in Hw as Hw'. destruct Hw' as [Hwin Hwt].
  apply find_elem in Hel as He'. destruct He' as [Hein Het].
  assert (eid el ≠ eid w) as Hne.
  { apply (other_tag_other_child (children (tree self)));
      [by eapply distinct_siblings_NoDup|done|done|by rewrite Het, Hwt]. }
  assert (child (eid el) (adapt_compiler to_xml_into self root1)
          = Ok (with_attrib (to_xml_into c (attrib el)) el)) as Hc2.
  { unfold adapt_compiler. rewrite Hcomp, Hfc1, Hel.
    rewrite child_at_child_same; [|by intros []].
    rewrite (child_find "compiler" root1 el); [done| |by rewrite Hfc1].
    by eapply distinct_siblings_NoDup. }
  apply bind_Ok in H as (B & k3 & HB & H).
  apply make_root_body_spec in HB
    as (Hk3 & HidB & HtB & HaB & HdsB & parts & HcB & Hparts).
  apply bind_Ok in H as (root3 & k4 & H3 & H).
  eapply add_scene_spec in H3; [|exact Hds2|lia|exact Hcw|lia|exact HdsB].
  destruct H3 as (Hk4 & Hds3 & Hframe3 & H3).
  apply bind_Ok in H as (root4 & k5 & H4 & H).
  apply add_sections_spec in H4; [|exact Hds3].
  destruct H4 as (Hk5 & Hds4 & Hkeep4 & _).
  apply bind_Ok in H as (root5 & k6 & H5 & H).
  apply add_defaults_spec in H5; [|exact Hds4].
  destruct H5 as (Hk6 & Hds5 & Hframe5).
  apply mret_spec in H as [[= -> -> -> ->] ->].
  split; [done|]. rewrite Hframe5.
  2:{ apply (distinct_siblings_children _ _ _ Hds),
        distinct_siblings_lt in Hein. lia. }
  apply Hkeep4; [by rewrite Hframe3|].
  rewrite tag_with_attrib. by rewrite Het.
Qed.

(** X18: when the robot has a compiler description and the tree a
    compiler element, that element has after the call the attributes that
    the library writes from the description into the ones it had. *)
Theorem compiler_adapted self (af arp rfr : bool) n0 root' n' c el :
  well_formed n0 (tree self) →
  adapt_world to_xml to_xml_into str_float self af arp rfr n0
  = Ok (root', n') →
  compiler self = Some c → find "compiler" (tree self) = Some el →
  ∃ el',
    child (eid el) root' = Ok el' ∧ tag el' = "compiler"
    ∧ attrib el' = to_xml_into c (attrib el).
Proof.
  intros Hds%well_formed_distinct_siblings Hrun Hcomp Hel.
  destruct (adapt_world_passes _ _ _ _ _ _ _ _ _ _ Hds Hrun)
    as (T1 & wid & bid & items & n1 & Hb & Hn1 & Hwid & _ & _ & Hpass).
  destruct (build_world_compiler _ _ _ _ _ _ _ _ _ _ Hds Hb Hcomp Hel)
    as [Hne Hc].
  destruct (Hpass _ _ Hne Hc) as (c' & k & k' & HF & Hc').
  apply find_elem in Hel as [_ Ht].
  destruct el as [i tg a cs]. cbn [tag attrib] in *. subst tg.
  assert (with_references str_float arp
            (with_attrib (to_xml_into c a) (Element i "compiler" a cs))
          = Element i "compiler" (to_xml_into c a)
              (with_references str_float arp <$> cs)) as Heq.
  { destruct arp; unfold with_references.
    - by rewrite for_each_other_tag.
    - by rewrite list_fmap_id. }
  rewrite Heq, for_each_new_unfold in HF.
  apply bind_Ok in HF as (cs' & k1 & _ & HF).
  rewrite decide_False in HF by done. apply mret_spec in HF as [-> ->].
  eexists. split; [exact Hc'|]. destruct rfr; [|done].
  by rewrite for_each_other_tag.
Qed.

(** *** The children of the root *)

Lemma build_world_root_ids self (af : bool) n0 T1 wid bid items n1 c0 rest :
  children (tree self) = c0 :: rest →
  build_world to_xml to_xml_into self af n0 = Ok ((T1, wid, bid, items), n1) →
  ∃ d o a s,
    eid <$> children T1 = eid c0 :: d :: o :: (eid <$> rest) ++ [a; s]
    ∧ n0 ≤ d ∧ n0 ≤ o ∧ n0 ≤ a ∧ n0 ≤ s.
Proof.
  intros Hcs H. unfold build_world in H.
  apply bind_Ok in H as (root1 & k1 & H1 & H).
  assert (n0 ≤ k1 ∧ eid <$> children root1 = eid <$> children (tree self))
    as [Hk1 Hids1].
  { destruct af; [|by apply mret_spec in H1 as [-> ->]].
    unfold add_floor_assets in H1.
    apply bind_Ok in H1 as (asset & k0 & [_ ->]%not_none_spec & H1).
    apply bind_Ok in H1 as (x1 & k2 & [-> ->]%new_element_spec & H1).
    apply bind_Ok in H1 as (x2 & k3 & [-> ->]%new_element_spec & H1).
    apply bind_Ok in H1 as (x3 & k4 & [-> ->]%new_element_spec & H1).
    apply mret_spec in H1 as [-> ->]. split; [lia|].
    by rewrite !at_child_same_ids by (intros c <-; apply eid_append). }
  assert (eid <$> children (adapt_compiler to_xml_into self root1)
          = eid <$> children (tree self)) as Hids2.
  { rewrite <- Hids1. unfold adapt_compiler.
    destruct (compiler self); [|done].
    destruct (find "compiler" root1); [|done].
    apply at_child_same_ids. intros c <-. apply eid_with_attrib. }
  apply bind_Ok in H as (w & k2 & [_ ->]%not_none_spec & H).
  apply bind_Ok in H as (B & k3 & HB & H).
  apply make_root_body_spec in HB as (Hk3 & _).
  apply bind_Ok in H as (root3 & k4 & H3 & H).
  assert (k3 ≤ k4 ∧ eid <$> children root3 = eid <$> children (tree self))
    as [Hk4 Hids3].
  { rewrite <- Hids2. unfold add_scene in H3.
    apply bind_Ok in H3 as (l5 & k5 & (_ & _ & Hl5 & _)%new_spec & H3).
    apply bind_Ok in H3 as (l4 & k6 & (_ & _ & Hl4 & _)%new_spec & H3).
    destruct af.
    - apply bind_Ok in H3 as (fl & k7 & (_ & _ & Hfl & _)%new_spec & H3).
      apply mret_spec in H3 as [-> ->]. split; [lia|].
      rewrite !at_child_same_ids; [done|..]; intros c <-;
        first [apply eid_insert|apply eid_append].
    - apply mret_spec in H3 as [-> ->]. split; [lia|].
      rewrite !at_child_same_ids; [done|..]; intros c <-;
        first [apply eid_insert|apply eid_append]. }
  apply bind_Ok in H as (root4 & k5 & H4 & H).
  assert (∃ a s, k4 ≤ a ∧ k4 ≤ s ∧ k4 ≤ k5
                 ∧ eid <$> children root4
                   = (eid <$> children (tree self)) ++ [a; s])
    as (a & s & Ha & Hs & Hk5 & Hids4).
  { rewrite <- Hids3. unfold add_sections in H4.
    apply bind_Ok in H4 as (A & k6 & (_ & _ & HA & HidA & _)%new_spec & H4).
    apply bind_Ok in H4 as (S & k7 & (_ & _ & HS & HidS & _)%new_spec & H4).
    apply bind_Ok in H4 as (sensors & k8 & [_ ->]%not_none_spec & H4).
    apply bind_Ok in H4 as (fq & k9 & [-> ->]%new_element_spec & H4).
    apply bind_Ok in H4 as (gy & k10 & [-> ->]%new_element_spec & H4).
    apply mret_spec in H4 as [-> ->].
    exists (eid A), (eid S). split_and!; [lia..|].
    rewrite at_child_same_ids by (intros c <-; apply eid_extend).
    destruct root3 as [i3 t3 a3 cs3]. cbn [append with_children children].
    by rewrite !fmap_app, <- app_assoc. }
  apply bind_Ok in H as (root5 & k6 & H5 & H).
  apply mret_spec in H as [[= -> -> -> ->] ->].
  destruct (children root4) as [|c4 rest4] eqn:Hc4.
  { rewrite Hcs in Hids4. done. }
  apply (add_defaults_children _ _ _ _ _ c4 rest4 Hc4) in H5
    as (D & O & vg & -> & HO & _ & HD).
  apply created_from_ge in HO, HD.
  rewrite Hcs in Hids4. cbn [fmap list_fmap app] in Hids4.
  injection Hids4 as Hc4id Hrest.
  exists (eid D), (eid O), a, s. split_and!; [|lia..].
  cbn [fmap list_fmap]. by rewrite Hc4id, <- Hrest.
Qed.

(** X19: [adapt_world] keeps the former children of the root as
    children of the root, in their order, and gives it exactly four new
    children: two right after its first child and two at its end. *)
Theorem root_children_order self (af arp rfr : bool) n0 root' n' c0 rest :
  well_formed n0 (tree self) →
  adapt_world to_xml to_xml_into str_float self af arp rfr n0
  = Ok (root', n') →
  children (tree self) = c0 :: rest →
  ∃ d o a s,
    eid <$> children root' = eid c0 :: d :: o :: (eid <$> rest) ++ [a; s]
    ∧ n0 ≤ d ∧ n0 ≤ o ∧ n0 ≤ a ∧ n0 ≤ s.
Proof.
  intros Hds%well_formed_distinct_siblings Hrun Hcs.
  destruct (adapt_world_passes _ _ _ _ _ _ _ _ _ _ Hds Hrun)
    as (T1 & wid & bid & items & n1 & Hb & _ & _ & Hids & _).
  rewrite Hids. by eapply build_world_root_ids.
Qed.

End Compiler.

(** ** The sample robots, again *)

Lemma reference_positions_set_witness :
  ∃ joint',
    descendants
      (add_reference_position sample_str_float (tree (parsed sample_mjcf)))
    !! 7 = Some joint'
    ∧ eid joint' = eid (element_at [2; 0; 1] (tree (parsed sample_mjcf)))
    ∧ get "ref" joint' = Some (sample_str_float 2.58).
Proof.
  apply (reference_positions_set sample_str_float
           (tree (parsed sample_mjcf)) 7
           (element_at [2; 0; 1] (tree (parsed sample_mjcf)))
           "torso roll" 2.58); by vm_compute.
Defined.

Lemma adapt_world_returns_when_witness :
  ∃ root' n',
    adapt_world sample_to_xml sample_to_xml_into sample_str_float
      (parsed sample_mjcf) true true true (parsed_count sample_mjcf)
    = Ok (root', n').
Proof.
  apply (adapt_world_returns_when sample_to_xml sample_to_xml_into
           sample_str_float (parsed sample_mjcf) true true true
           (parsed_count sample_mjcf)).
  - split; apply (bool_decide_unpack _); by vm_compute.
  - by vm_compute.
  - intros _. by vm_compute.
  - by vm_compute.
Defined.

Lemma adapt_world_raises_witness :
  adapt_world sample_to_xml sample_to_xml_into sample_str_float
    (parsed no_asset_mjcf) true false false (parsed_count no_asset_mjcf)
  = Raise AttributeError
  ∧ adapt_world sample_to_xml sample_to_xml_into sample_str_float
      (parsed no_worldbody_mjcf) true false false
      (parsed_count no_worldbody_mjcf)
    = Raise TypeError.
Proof.
  split.
  - apply (adapt_world_raises sample_to_xml sample_to_xml_into
             sample_str_float (parsed no_asset_mjcf) true false false
             (parsed_count no_asset_mjcf)).
    + split; apply (bool_decide_unpack _); by vm_compute.
    + done.
    + by vm_compute.
  - apply (adapt_world_raises sample_to_xml sample_to_xml_into
             sample_str_float (parsed no_worldbody_mjcf) true false false
             (parsed_count no_worldbody_mjcf)).
    + split; apply (bool_decide_unpack _); by vm_compute.
    + intros _. by vm_compute.
    + by vm_compute.
Defined.

Lemma frc_ranges_removed_witness :
  adapted sample_mjcf true true true
  = Ok (adapted_tree sample_mjcf true true true,
        adapted_count sample_mjcf true true true)
  ∧ ∀ body join,
      body ∈ descendants (adapted_tree sample_mjcf true true true) →
      tag body = "body" → join ∈ children body → tag join = "joint" →
      has_key "actuatorfrcrange" join = false.
Proof.
  split; [by vm_compute|].
  apply (frc_ranges_removed sample_to_xml sample_to_xml_into
           sample_str_float (parsed sample_mjcf) true true
           (parsed_count sample_mjcf) _
           (adapted_count sample_mjcf true true true)).
  - split; apply (bool_decide_unpack _); by vm_compute.
  - by vm_compute.
Defined.

Lemma adapt_world_keeps_elements_witness :
  adapted sample_mjcf true true true
  = Ok (adapted_tree sample_mjcf true true true,
        adapted_count sample_mjcf true true true)
  ∧ same_but (edited_keys true true) (tree (parsed sample_mjcf))
      (adapted_tree sample_mjcf true true true)
  ∧ ∀ x, x ∈ descendants (tree (parsed sample_mjcf)) →
         ∃ x', x' ∈ descendants (adapted_tree sample_mjcf true true true)
               ∧ same_but (edited_keys true true) x x'.
Proof.
  split; [by vm_compute|].
  apply (adapt_world_keeps_elements sample_to_xml sample_to_xml_into
           sample_str_float (parsed sample_mjcf) true true true
           (parsed_count sample_mjcf) _
           (adapted_count sample_mjcf true true true)).
  - split; apply (bool_decide_unpack _); by vm_compute.
  - by vm_compute.
Defined.

Lemma floor_assets_added_witness :
  ∃ asset asset' old new,
    find "asset" (tree (parsed sample_mjcf)) = Some asset
    ∧ child (eid asset) (adapted_tree sample_mjcf true true true) = Ok asset'
    ∧ children asset' = old ++ new
    ∧ eid <$> old = eid <$> children asset
    ∧ Forall2 (created_from (parsed_count sample_mjcf)) floor_assets new.
Proof.
  apply (floor_assets_added sample_to_xml sample_to_xml_into
           sample_str_float (parsed sample_mjcf) true true
           (parsed_count sample_mjcf) _
           (adapted_count sample_mjcf true true true)).
  - split; apply (bool_decide_unpack _); by vm_compute.
  - by vm_compute.
Defined.

Lemma imu_sensors_added_witness :
  ∃ sensors old new,
    sensors ∈ children (adapted_tree sample_mjcf true true true)
    ∧ tag sensors = "sensor"
    ∧ children sensors = old ++ new
    ∧ Forall2 (created_from (parsed_count sample_mjcf)) imu_sensors new.
Proof.
  apply (imu_sensors_added sample_to_xml sample_to_xml_into
           sample_str_float (parsed sample_mjcf) true true true
           (parsed_count sample_mjcf) _
           (adapted_count sample_mjcf true true true)).
  - split; apply (bool_decide_unpack _); by vm_compute.
  - by vm_compute.
Defined.

Lemma option_and_default_inserted_witness :
  ∃ D O visual_geom,
    children (adapted_tree sample_mjcf true true true) !! 1 = Some D
    ∧ children (adapted_tree sample_mjcf true true true) !! 2 = Some O
    ∧ created_from (parsed_count sample_mjcf) visual_geom_default visual_geom
    ∧ created_from (parsed_count sample_mjcf)
        (sample_to_xml (default_section visual_geom)) D
    ∧ created_from (parsed_count sample_mjcf)
        (sample_to_xml option_section) O.
Proof.
  apply (option_and_default_inserted sample_to_xml sample_to_xml_into
           sample_str_float (parsed sample_mjcf) true true true
           (parsed_count sample_mjcf) _
           (adapted_count sample_mjcf true true true)).
  - split; [by vm_compute|]. intros visual_geom H.
    apply passive_unfold. split_and!; [done|done|].
    repeat (constructor; [first [exact H|by vm_compute]|]). constructor.
  - split; apply (bool_decide_unpack _); by vm_compute.
  - by vm_compute.
Defined.

Lemma save_after_adapt_world_witness :
  is_Ok (save (λ s, s)
           {| tree := adapted_tree sample_mjcf true true true;
              compiler := compiler (parsed sample_mjcf) |}).
Proof.
  apply (save_after_adapt_world sample_to_xml sample_to_xml_into
           sample_str_float (λ s, s) (parsed sample_mjcf) true true true
           (parsed_count sample_mjcf) _
           (adapted_count sample_mjcf true true true)).
  - unfold scene_passive. repeat constructor.
  - unfold root_body_plain. split_and!; [done|done|].
    repeat constructor; by vm_compute.
  - unfold sections_passive. split_and!; by vm_compute.
  - split; [by vm_compute|]. intros visual_geom H.
    apply passive_unfold. split_and!; [done|done|].
    repeat (constructor; [first [exact H|by vm_compute]|]). constructor.
  - split.
    + repeat (constructor; [by vm_compute|]). constructor.
    + intros visual_geom H. apply writable_unfold. split; [by vm_compute|].
      repeat (constructor; [first [exact H|by vm_compute]|]). constructor.
  - intros c a [= <-] Ha. unfold sample_to_xml_into.
    repeat apply string_valued_set. done.
  - split; apply (bool_decide_unpack _); by vm_compute.
  - by vm_compute.
  - by vm_compute.
  - by vm_compute.
Defined.

Lemma compiler_adapted_witness :
  ∃ el',
    child (eid (element_at [0] (tree (parsed sample_mjcf))))
      (adapted_tree sample_mjcf true true true) = Ok el'
    ∧ tag el' = "compiler"
    ∧ attrib el'
      = sample_to_xml_into sample_compiler
          (attrib (element_at [0] (tree (parsed sample_mjcf)))).
Proof.
  apply (compiler_adapted sample_to_xml sample_to_xml_into
           sample_str_float (parsed sample_mjcf) true true true
           (parsed_count sample_mjcf) _
           (adapted_count sample_mjcf true true true)).
  - split; apply (bool_decide_unpack _); by vm_compute.
  - by vm_compute.
  - done.
  - by vm_compute.
Defined.

Lemma root_children_order_witness :
  ∃ d o a s,
    eid <$> children (adapted_tree sample_mjcf true true true)
    = eid (element_at [0] (tree (parsed sample_mjcf))) :: d :: o
      :: (eid <$> drop 1 (children (tree (parsed sample_mjcf)))) ++ [a; s]
    ∧ parsed_count sample_mjcf ≤ d ∧ parsed_count sample_mjcf ≤ o
    ∧ parsed_count sample_mjcf ≤ a ∧ parsed_count sample_mjcf ≤ s.
Proof.
  apply (root_children_order sample_to_xml sample_to_xml_into
           sample_str_float (parsed sample_mjcf) true true true
           (parsed_count sample_mjcf) _
           (adapted_count sample_mjcf true true true)).
  - split; apply (bool_decide_unpack _); by vm_compute.
  - by vm_compute.
  - by vm_compute.
Defined.

Lemma adapt_world_sets_references_witness :
  ∃ joint',
    joint' ∈ descendants (adapted_tree sample_mjcf true true true)
    ∧ eid joint' = eid (element_at [2; 0; 1] (tree (parsed sample_mjcf)))
    ∧ get "ref" joint' = Some (sample_str_float 2.58).
Proof.
  apply (adapt_world_sets_references sample_to_xml sample_to_xml_into
           sample_str_float (parsed sample_mjcf) true true
           (parsed_count sample_mjcf) _
           (adapted_count sample_mjcf true true true)
           (element_at [2; 0; 1] (tree (parsed sample_mjcf)))
           "torso roll" 2.58).
  - split; apply (bool_decide_unpack _); by vm_compute.
  - by vm_compute.
  - apply (at_path_descendants [2; 0; 1]); [done|by vm_compute].
  - by vm_compute.
  - by vm_compute.
  - by vm_compute.
Defined.

End MjcfMore.
